(** * pyannote-face: tracking by detection

    A shallow embedding of [scripts/pyannote-face.py] (the two
    synchronizing generators [getShotGenerator] and [getFaceGenerator],
    the per-frame body of [track], the loops of [detect] and [shape],
    and the computation of [upscale] in the main program) together
    with the properties of the specification that concern them and
    further properties of the code.

    Conventions.
    - Python floats (timestamps, areas, confidences, box coordinates) are
      modelled by exact rationals [Q]; only comparisons ([>], [==]),
      truthiness, subtraction and doubling are used on them, and [==] is
      [Qeq_bool].  The one place where the rounding of doubles shows is
      the division of the main program: there a float is an IEEE 754
      binary64 number ([spec_float]).
    - A generator is the record of where it is suspended and of the
      locals that are live there; [send] becomes a function from such a
      state and the value sent to the value yielded and the next state.
    - A Python exception is a value [Raise e] of the type [result].
    - The dictionaries [trackers] and [confidences] are [gmap]s, the set
      [unmatched] is a [gset]; [trackers.items()] is [map_to_list].  The
      script is written for Python 2, where [items()] returns a list in
      an order that is the same from one call to the next as long as the
      keys do not change; line 248 indexes that list.
    - dlib, OpenCV and Munkres are outside the repository: they are
      taken as parameters (the class [Dlib] and the variable
      [hungarian]). *)

From Stdlib Require Import QArith Lia Sorted SpecFloat.
From stdpp Require Import base option list gmap sets.

#[local] Set Warnings "-clear-no-such-hyp".

(** ** Exceptions *)

Inductive exn : Set :=
  | StopIteration
  | AttributeError
  | KeyError
  | IndexError
  | ValueError.

Inductive result (A : Type) : Type :=
  | Ok (a : A)
  | Raise (e : exn).
Arguments Ok {A} a.
Arguments Raise {A} e.

#[global] Instance result_ret : MRet result := fun A a => Ok a.
#[global] Instance result_bind : MBind result := fun A B f m =>
  match m with
  | Ok a => f a
  | Raise e => Raise e
  end.

(** [o ?? e]: the value of [o], or the exception [e] when there is none. *)
Definition or_raise {A} (o : option A) (e : exn) : result A :=
  match o with
  | Some a => Ok a
  | None => Raise e
  end.
Infix "??" := or_raise (at level 40, no associativity).

(** A [for] loop whose body may raise. *)
Fixpoint for_each {A S : Type} (body : S → A → result S) (s : S) (l : list A)
  : result S :=
  match l with
  | [] => Ok s
  | x :: l' => s' ← body s x; for_each body s' l'
  end.

(** [enumerate(l)] *)
Definition enumerate {A} (l : list A) : list (nat * A) :=
  zip (seq 0 (length l)) l.

(** ** Floats *)

(** [x > y] *)
Definition Qgt_bool (x y : Q) : bool := negb (Qle_bool x y).

(** Truth value of a float: [bool(x)] is [x != 0.0]. *)
Definition float_truthy (x : Q) : bool := negb (Qeq_bool x 0).

(** [int(x)] truncates towards zero. *)
Definition py_int (x : Q) : Z := (Qnum x ÷ Zpos (Qden x))%Z.

(** [max] of two floats. *)
Definition float_max (x y : Q) : Q := if Qle_bool x y then y else x.

(** ** Boxes and records *)

(** [dlib.drectangle]: a box with floating-point sides. *)
Record drectangle : Set := mk_drectangle {
  d_left : Q;
  d_top : Q;
  d_right : Q;
  d_bottom : Q;
}.

(** One parsed line of a detection file (lines 100-103):
    [T], [identifier], [face]. *)
Abbreviation face_line := (Q * Z * drectangle)%type.

(** One line of the output, before [FACE_TEMPLATE] formats it. *)
Record output_line : Set := mk_output_line {
  o_t : Q;
  o_identifier : nat;
  o_left : Z;
  o_top : Z;
  o_right : Z;
  o_bottom : Z;
  o_confidence : Q;
}.

(** [FACE_TEMPLATE.format(t=, identifier=, confidence=, left=int(face.left()), ...)] *)
Definition write_face (t : Q) (identifier : nat) (confidence : Q)
    (face : drectangle) : output_line :=
  {| o_t := t; o_identifier := identifier;
     o_left := py_int (d_left face); o_top := py_int (d_top face);
     o_right := py_int (d_right face); o_bottom := py_int (d_bottom face);
     o_confidence := confidence |}.

(** ** getShotGenerator (lines 64-82) *)

Module Shot.

(** Where the generator is suspended, with the lines of the shot file
    not read yet ([T] is [float(line.strip())]). *)
Inductive gen : Set :=
  | Primed (lines : list Q)             (* line 67: [t = yield] *)
  | Waiting (T : Q) (lines : list Q)    (* line 77: [t = yield] *)
  | Found (lines : list Q).             (* line 81: [t = yield T] *)

(** [while True] of lines 74-82, entered with [T] read and [t] sent. *)
Definition wait (T : Q) (lines : list Q) (t : Q) : option Q * gen :=
  if Qgt_bool T t then (None, Waiting T lines)
  else (Some T, Found lines).

(** [for line in f]: the next line, or the end of the function, which
    makes [send] raise StopIteration. *)
Definition next_line (lines : list Q) (t : Q) : result (option Q * gen) :=
  match lines with
  | [] => Raise StopIteration
  | T :: lines' => Ok (wait T lines' t)
  end.

(** [generator.send(t)] *)
Definition send (g : gen) (t : Q) : result (option Q * gen) :=
  match g with
  | Primed lines => next_line lines t
  | Waiting T lines => Ok (wait T lines t)
  | Found lines => next_line lines t
  end.

(** [getShotGenerator(shotFile)] followed by [send(None)]. *)
Definition getShotGenerator (shotFile : list Q) : gen := Primed shotFile.

(** Successive [send]s; a generator that has raised raises again. *)
Fixpoint sends (g : gen) (ts : list Q) : list (result (option Q)) * gen :=
  match ts with
  | [] => ([], g)
  | t :: ts' =>
      match send g t with
      | Ok (shot, g') => let '(out, g'') := sends g' ts' in (Ok shot :: out, g'')
      | Raise e => let '(out, g'') := sends g ts' in (Raise e :: out, g'')
      end
  end.

End Shot.

(** ** getFaceGenerator (lines 85-133) *)

Module Face.

Abbreviation faces_t := (list (Z * drectangle)).

Inductive gen : Set :=
  | Primed (lines : list face_line)
      (* line 89: [t = yield] *)
  | Waiting (currentT : Q) (faces : faces_t) (line : face_line)
      (lines : list face_line)
      (* line 120: [t = yield t, []], the line just parsed in hand *)
  | Returned (line : face_line) (lines : list face_line)
      (* line 124: [t = yield currentT, faces] *)
  | Exhausted.
      (* line 132: [t = yield t, []] *)

(** [while True] of lines 116-129, entered with the group
    [currentT, faces] complete and the first line of the next group
    parsed. *)
Definition wait (currentT : Q) (faces : faces_t) (line : face_line)
    (lines : list face_line) (t : Q) : (Q * faces_t) * gen :=
  if Qgt_bool currentT t then ((t, []), Waiting currentT faces line lines)
  else ((currentT, faces), Returned line lines).

(** [for line in f] of lines 96-129, up to the next [yield]; after the
    last line the generator falls into the loop of lines 131-132.  The
    test of line 107, [T == currentT or currentT is None], is the
    [match] on [currentT] with [Qeq_bool] in its [Some] branch. *)
Fixpoint read (faces : faces_t) (currentT : option Q)
    (lines : list face_line) (t : Q) : (Q * faces_t) * gen :=
  match lines with
  | [] => ((t, []), Exhausted)
  | (T, identifier, face) :: lines' =>
      match currentT with
      | None => read (faces ++ [(identifier, face)]) (Some T) lines' t
      | Some c =>
          if Qeq_bool T c
          then read (faces ++ [(identifier, face)]) (Some T) lines' t
          else wait c faces (T, identifier, face) lines' t
      end
  end.

(** [generator.send(t)] *)
Definition send (g : gen) (t : Q) : (Q * faces_t) * gen :=
  match g with
  | Primed lines => read [] None lines t
  | Waiting currentT faces line lines => wait currentT faces line lines t
  | Returned (T, identifier, face) lines =>
      read [(identifier, face)] (Some T) lines t
  | Exhausted => ((t, []), Exhausted)
  end.

(** [getFaceGenerator(detection)] followed by [send(None)]. *)
Definition getFaceGenerator (detection : list face_line) : gen :=
  Primed detection.

Fixpoint sends (g : gen) (ts : list Q) : list (Q * faces_t) * gen :=
  match ts with
  | [] => ([], g)
  | t :: ts' =>
      let '(out, g') := send g t in
      let '(outs, g'') := sends g' ts' in
      (out :: outs, g'')
  end.

End Face.

(** ** numpy arrays of rank two *)

Abbreviation matrix := (list (list Q)).

(** [np.zeros((n, m))] *)
Definition np_zeros (n m : nat) : matrix := replicate n (replicate m 0%Q).

(** [a[t, f]] *)
Definition np_get (a : matrix) (t f : nat) : result Q :=
  row ← a !! t ?? IndexError;
  row !! f ?? IndexError.

(** [a[t, f] = v] *)
Definition np_set (a : matrix) (t f : nat) (v : Q) : result matrix :=
  row ← a !! t ?? IndexError;
  if bool_decide (f < length row) then Ok (<[t := <[f := v]> row]> a)
  else Raise IndexError.

(** [np.max(a)] *)
Definition np_max (a : matrix) : result Q :=
  match concat a with
  | [] => Raise ValueError
  | x :: xs => Ok (foldl float_max x xs)
  end.

(** [x - a], elementwise *)
Definition np_rsub (x : Q) (a : matrix) : matrix :=
  (λ row : list Q, (λ v, x - v)%Q <$> row) <$> a.

(** ** The libraries [track] calls *)

(** dlib's correlation tracker and boxes, and OpenCV's colour
    conversion.  A tracker object is only ever reached through the one
    entry of [trackers] that holds it, so its mutation by [start_track]
    and [update] is the replacement of that entry. *)
Class Dlib : Type := {
  image : Type;
  tracker : Type;
  (** [cv2.cvtColor(frame, cv2.COLOR_RGB2GRAY)] *)
  cvtColor : image → image;
  (** [dlib.correlation_tracker()] *)
  correlation_tracker : tracker;
  (** [tracker.start_track(gray, face)] *)
  start_track : tracker → image → drectangle → tracker;
  (** [tracker.update(gray)]: the tracker after the call and the
      confidence returned *)
  update : tracker → image → tracker * Q;
  (** [tracker.get_position()] *)
  get_position : tracker → drectangle;
  (** [box.intersect(other)] *)
  intersect : drectangle → drectangle → drectangle;
  (** [box.area()] *)
  area : drectangle → Q;
}.

(** ** track (lines 173-292) *)

(** What one frame appends to the output, by the place that writes it:
    lines 257-260 (a detection matched to a track), lines 277-280 (a new
    track) and lines 289-292 (a track without a detection). *)
Record frame_output : Set := mk_frame_output {
  matched : list output_line;
  spawned : list output_line;
  coasting : list output_line;
}.

(** The lines of one frame in the order in which they reach the file. *)
Definition written (o : frame_output) : list output_line :=
  matched o ++ spawned o ++ coasting o.

(** [if shot:] with [shot] either [None] or a timestamp. *)
Definition shot_truthy (shot : option Q) : bool :=
  match shot with
  | None => false
  | Some T => float_truthy T
  end.

Section Track.

Context {D : Dlib}.

(** [Munkres().compute] *)
Variable hungarian : matrix → list (nat * nat).

(** The variables of [track] that live across frames. *)
Record state : Type := mk_state {
  shotGenerator : Shot.gen;
  faceGenerator : Face.gen;
  trackers : gmap nat tracker;
  confidences : gmap nat Q;
  identifier : nat;
}.

(** Lines 185-197. *)
Definition track_init (shot : list Q) (detection : list face_line) : state :=
  {| shotGenerator := Shot.getShotGenerator shot;
     faceGenerator := Face.getFaceGenerator detection;
     trackers := ∅; confidences := ∅; identifier := 0 |}.

(** Lines 207-210: reset trackers at shot boundaries. *)
Definition reset_at_shot (shot : option Q)
    (trackers : gmap nat tracker) (confidences : gmap nat Q)
  : gmap nat tracker * gmap nat Q :=
  if shot_truthy shot then (∅, ∅) else (trackers, confidences).

(** Lines 218-219: update all trackers and store their confidence. *)
Definition update_one (gray : image)
    (acc : gmap nat tracker * gmap nat Q) (item : nat * tracker)
  : gmap nat tracker * gmap nat Q :=
  let '(i, tracker) := item in
  let '(tracker', confidence) := update tracker gray in
  (<[i := tracker']> acc.1, <[i := confidence]> acc.2).

Definition update_all (gray : image)
    (trackers : gmap nat tracker) (confidences : gmap nat Q)
  : gmap nat tracker * gmap nat Q :=
  foldl (update_one gray) (trackers, confidences) (map_to_list trackers).

(** Lines 228-233: intersection for every tracker/face pair. *)
Definition intersections_row (t : nat) (position : drectangle)
    (areas : matrix) (item : nat * (Z * drectangle)) : result matrix :=
  let '(f, (_, face)) := item in
  np_set areas t f (area (intersect position face)).

Definition intersections (N : nat) (trackers_ : list (nat * tracker))
    (faces : Face.faces_t) : result matrix :=
  for_each
    (λ areas '(t, (i, tracker)),
       let position := get_position tracker in
       for_each (intersections_row t position) areas (enumerate faces))
    (np_zeros N N) (enumerate trackers_).

(** The state of the loop of lines 238-262. *)
Record matching : Type := mk_matching {
  m_trackers : gmap nat tracker;
  m_unmatched : gset nat;
  m_faces : list (option (Z * drectangle));  (* [None] is [(None, None)] *)
  m_out : list output_line;
}.

(** Line 253: enough overlap. *)
Definition enough_overlap (area faceArea trackerArea : Q) : bool :=
  Qgt_bool (2 * area) faceArea || Qgt_bool (2 * area) trackerArea.

(** Lines 240-262, the body of [for t, f in mapping]. *)
Definition match_pair (gray : image) (T : Q) (confidences : gmap nat Q)
    (areas : matrix) (Nt Nf : nat) (trackers_ : list (nat * tracker))
    (m : matching) (p : nat * nat) : result matching :=
  let '(t, f) := p in
  if bool_decide (Nt ≤ t) || bool_decide (Nf ≤ f) then Ok m
  else
    area_tf ← np_get areas t f;
    slot ← m_faces m !! f ?? IndexError;
    '(_, face) ← slot ?? AttributeError;
    let faceArea := area face in
    '(i, tracker0) ← trackers_ !! t ?? IndexError;
    let tracker := default tracker0 (m_trackers m !! i) in
    let trackerArea := area (get_position tracker) in
    if enough_overlap area_tf faceArea trackerArea then
      let tracker' := start_track tracker gray face in
      if bool_decide (i ∈ m_unmatched m) then
        confidence ← confidences !! i ?? KeyError;
        Ok {| m_trackers := <[i := tracker']> (m_trackers m);
              m_unmatched := m_unmatched m ∖ {[i]};
              m_faces := <[f := None]> (m_faces m);
              m_out := m_out m ++ [write_face T i confidence face] |}
      else Raise KeyError
    else Ok m.

(** Whether there is anything to match (line 224, [if Nt and Nf]). *)
Definition Nt_and_Nf (Nt Nf : nat) : bool :=
  negb (Nt =? 0)%nat && negb (Nf =? 0)%nat.

(** Line 236, the argument of the solver: [np.max(areas) - areas]. *)
Definition cost_matrix (areas : matrix) : result matrix :=
  top ← np_max areas;
  Ok (np_rsub top areas).

(** Line 221, [unmatched = set(trackers)], with nothing matched yet. *)
Definition matching_init (trackers : gmap nat tracker)
    (faces : Face.faces_t) : matching :=
  {| m_trackers := trackers; m_unmatched := dom trackers;
     m_faces := Some <$> faces; m_out := [] |}.

(** Lines 221-262. *)
Definition match_faces (gray : image) (T : Q)
    (trackers : gmap nat tracker) (confidences : gmap nat Q)
    (faces : Face.faces_t) : result matching :=
  let Nt := size trackers in
  let Nf := length faces in
  let m0 := matching_init trackers faces in
  if Nt_and_Nf Nt Nf then
    let N := Nat.max Nt Nf in
    let trackers_ := map_to_list trackers in
    areas ← intersections N trackers_ faces;
    cost ← cost_matrix areas;
    let mapping := hungarian cost in
    for_each (match_pair gray T confidences areas Nt Nf trackers_) m0 mapping
  else Ok m0.

(** The state of the loop of lines 264-280. *)
Record spawning : Type := mk_spawning {
  s_trackers : gmap nat tracker;
  s_confidences : gmap nat Q;
  s_identifier : nat;
  s_out : list output_line;
}.

(** Lines 266-280, the body of [for _, face in faces]. *)
Definition spawn (gray : image) (T : Q) (s : spawning)
    (slot : option (Z * drectangle)) : spawning :=
  match slot with
  | None => s
  | Some (_, face) =>
      let identifier := S (s_identifier s) in
      let tracker := start_track correlation_tracker gray face in
      let '(tracker, confidence) := update tracker gray in
      {| s_confidences := <[identifier := confidence]> (s_confidences s);
         s_trackers := <[identifier := tracker]> (s_trackers s);
         s_identifier := identifier;
         s_out := s_out s ++ [write_face T identifier 0 face] |}
  end.

(** Lines 284-292, the body of the last loop. *)
Definition coast (T : Q) (confidences : gmap nat Q) (unmatched : gset nat)
    (out : list output_line) (item : nat * tracker)
  : result (list output_line) :=
  let '(i, tracker) := item in
  if bool_decide (i ∈ unmatched) then
    let face := get_position tracker in
    confidence ← confidences !! i ?? KeyError;
    Ok (out ++ [write_face T i confidence face])
  else Ok out.

(** Lines 203-292, the body of [for timestamp, frame in frames]. *)
Definition track_frame (st : state) (timestamp : Q) (frame : image)
  : result (state * frame_output) :=
  let gray := cvtColor frame in
  '(shot, shotGenerator') ← Shot.send (shotGenerator st) timestamp;
  let '(trackers1, confidences1) :=
    reset_at_shot shot (trackers st) (confidences st) in
  let '((T, faces), faceGenerator') :=
    Face.send (faceGenerator st) timestamp in
  let '(trackers2, confidences2) :=
    update_all gray trackers1 confidences1 in
  m ← match_faces gray T trackers2 confidences2 faces;
  let s := foldl (spawn gray T)
             {| s_trackers := m_trackers m; s_confidences := confidences2;
                s_identifier := identifier st; s_out := [] |}
             (m_faces m) in
  coasted ← for_each (coast T (s_confidences s) (m_unmatched m)) []
              (map_to_list (s_trackers s));
  Ok ({| shotGenerator := shotGenerator';
         faceGenerator := faceGenerator';
         trackers := s_trackers s;
         confidences := s_confidences s;
         identifier := s_identifier s |},
      {| matched := m_out m; spawned := s_out s; coasting := coasted |}).

(** Lines 201-292: the frames in turn, until one raises.  The result
    is what each frame processed to its end wrote, the state reached
    after the last of them, and the exception that ended the run, if
    any (what the frame that raised had written is left out). *)
Fixpoint track_frames (st : state) (frames : list (Q * image))
  : list frame_output * state * option exn :=
  match frames with
  | [] => ([], st, None)
  | (timestamp, frame) :: frames' =>
      match track_frame st timestamp frame with
      | Raise e => ([], st, Some e)
      | Ok (st', o) =>
          let '(os, st'', e) := track_frames st' frames' in
          (o :: os, st'', e)
      end
  end.

(** [track(video, shot, detection, output)] *)
Definition track (frames : list (Q * image)) (shot : list Q)
    (detection : list face_line) : list frame_output * state * option exn :=
  track_frames (track_init shot detection) frames.

End Track.

(** ** detect (lines 135-170) *)

(** [dlib.rectangle]: a box with integer sides. *)
Record rectangle : Set := mk_rectangle {
  r_left : Z;
  r_top : Z;
  r_right : Z;
  r_bottom : Z;
}.

(** Lines 167-170: [FACE_TEMPLATE.format(t=t, identifier=identifier,
    confidence=-1, left=boundingBox.left(), ...)]. *)
Definition write_box (t : Q) (identifier : nat) (boundingBox : rectangle)
  : output_line :=
  {| o_t := t; o_identifier := identifier;
     o_left := r_left boundingBox; o_top := r_top boundingBox;
     o_right := r_right boundingBox; o_bottom := r_bottom boundingBox;
     o_confidence := inject_Z (-1) |}.

Section Detect.

Context {D : Dlib}.

(** [dlib.get_frontal_face_detector()], called as
    [faceDetector(gray, upscale)]. *)
Variable faceDetector : image → Z → list rectangle.

(** Lines 165-170, the body of [for boundingBox in ...]: the counter
    and the lines written so far. *)
Definition detect_box (t : Q) (acc : nat * list output_line)
    (boundingBox : rectangle) : nat * list output_line :=
  let identifier := S acc.1 in
  (identifier, acc.2 ++ [write_box t identifier boundingBox]).

(** Lines 161-170, the body of [for t, frame in generator]. *)
Definition detect_frame (upscale : Z) (acc : nat * list output_line)
    (item : Q * image) : nat * list output_line :=
  let '(t, frame) := item in
  let gray := cvtColor frame in
  foldl (detect_box t) acc (faceDetector gray upscale).

(** [detect(video, output, step, upscale)], on the frames that
    [video.iterframes(step=step, with_time=True)] gives. *)
Definition detect (frames : list (Q * image)) (upscale : Z)
  : list output_line :=
  (foldl (detect_frame upscale) (0%nat, []) frames).2.

End Detect.

(** ** shape (lines 295-336) *)

(** One line of the output of [shape]: the time, the identifier and the
    points [(p.x, p.y)]. *)
Record shape_line : Set := mk_shape_line {
  sh_t : Q;
  sh_identifier : Z;
  sh_points : list (Z * Z);
}.

Section Shape.

Context {D : Dlib}.

(** [dlib.shape_predictor(model)], called on [gray] and a bounding box;
    the result is the list of its [parts()]. *)
Variable facialFeaturesDetector : image → rectangle → list (Z * Z).

(** Lines 326-336, the body of [for identifier, face in faces]. *)
Definition shape_face (gray : image) (T : Q) (item : Z * drectangle)
  : shape_line :=
  let '(identifier, face) := item in
  let boundingBox :=
    mk_rectangle (py_int (d_left face)) (py_int (d_top face))
                 (py_int (d_right face)) (py_int (d_bottom face)) in
  {| sh_t := T; sh_identifier := identifier;
     sh_points := facialFeaturesDetector gray boundingBox |}.

(** Lines 315-336, [for timestamp, frame in frames]. *)
Fixpoint shape_frames (faceGenerator : Face.gen) (frames : list (Q * image))
  : list shape_line :=
  match frames with
  | [] => []
  | (timestamp, frame) :: frames' =>
      let gray := cvtColor frame in
      let '((T, faces), faceGenerator') := Face.send faceGenerator timestamp in
      (shape_face gray T <$> faces) ++ shape_frames faceGenerator' frames'
  end.

(** [shape(video, model, tracking, output)] *)
Definition shape (frames : list (Q * image)) (tracking : list face_line)
  : list shape_line :=
  shape_frames (Face.getFaceGenerator tracking) frames.

End Shape.

(** ** The command line (lines 357-365) *)

(** The division and the ceiling of lines 362-365 depend on the
    rounding of doubles: here a float is an IEEE 754 binary64 number,
    [spec_float] with 53 bits of precision and exponents below 1024. *)

Definition SMALLEST_DEFAULT : Z := 36.

(** [float(n)] for an integer [n]; 36 is a double. *)
Definition float_of_int (n : Z) : spec_float :=
  binary_normalize 53 1024 n 0 false.

(** What the arithmetic of lines 362-365 raises: [NaNError] is the
    ValueError of [int] on a NaN. *)
Inductive float_exn : Set :=
  | ZeroDivisionError
  | OverflowError
  | NaNError.

Inductive arith (A : Type) : Type :=
  | Done (a : A)
  | Fails (e : float_exn).
Arguments Done {A} a.
Arguments Fails {A} e.

(** [x > y]: false as soon as one side is a NaN. *)
Definition float_gt (x y : spec_float) : bool := SFltb y x.

(** [x / y] on Python floats: a divisor that is [0.0] or [-0.0]
    raises, anything else is the division of doubles. *)
Definition float_div (x y : spec_float) : arith spec_float :=
  match y with
  | S754_zero _ => Fails ZeroDivisionError
  | _ => Done (SFdiv 53 1024 x y)
  end.

(** [int(np.ceil(x))]: the ceiling of a double is a double, which
    [int] converts exactly; [int] raises on an infinity and on a NaN. *)
Definition int_ceil (x : spec_float) : arith Z :=
  match x with
  | S754_nan => Fails NaNError
  | S754_infinity _ => Fails OverflowError
  | S754_zero _ => Done 0%Z
  | S754_finite s m e =>
      let n := if s then Zneg m else Zpos m in
      Done (match e with
            | Zneg p => - ((- n) / Zpos (2 ^ p))
            | _ => n * 2 ^ e
            end)%Z
  end.

(** Lines 361-365: [upscale] from
    [smallest = float(arguments['--smallest'])]. *)
Definition upscale_of (smallest : spec_float) : arith Z :=
  if float_gt smallest (float_of_int SMALLEST_DEFAULT) then Done 1%Z
  else
    match float_div (float_of_int SMALLEST_DEFAULT) smallest with
    | Fails e => Fails e
    | Done quotient => int_ceil quotient
    end.

(** ** A small instance

    Stand-ins for the libraries, used to run the embedding on concrete
    files: a tracker that stays on the box it was started on and always
    reports the confidence 1/2, boxes that intersect as dlib's do and
    measure width times height, and a solver that pairs row [i] with
    column [i]. *)

Module Still.

Definition box (l t r b : Z) : drectangle :=
  mk_drectangle (inject_Z l) (inject_Z t) (inject_Z r) (inject_Z b).

Definition is_empty (b : drectangle) : bool :=
  Qgt_bool (d_top b) (d_bottom b) || Qgt_bool (d_left b) (d_right b).

(** A measure for the stand-in, width times height.  It is not
    dlib's, whose [drectangle.area()] counts both sides in and gives
    [(right - left + 1) * (bottom - top + 1)]; the properties below are
    stated for every instance of [Dlib], and this one only runs them on
    examples. *)
Definition still_area (b : drectangle) : Q :=
  if is_empty b then 0%Q
  else ((d_right b - d_left b) * (d_bottom b - d_top b))%Q.

Definition float_min (x y : Q) : Q := if Qle_bool x y then x else y.

Definition still_intersect (a b : drectangle) : drectangle :=
  mk_drectangle (float_max (d_left a) (d_left b))
                (float_max (d_top a) (d_top b))
                (float_min (d_right a) (d_right b))
                (float_min (d_bottom a) (d_bottom b)).

#[local] Instance dlib : Dlib := {|
  image := unit;
  tracker := drectangle;
  cvtColor := λ frame, frame;
  correlation_tracker := box 0 0 0 0;
  start_track := λ _ _ face, face;
  update := λ tracker _, (tracker, (1 # 2)%Q);
  get_position := λ tracker, tracker;
  intersect := still_intersect;
  area := still_area;
|}.

Definition diagonal (cost : matrix) : list (nat * nat) :=
  (λ i, (i, i)) <$> seq 0 (length cost).

Definition frames (ts : list Q) : list (Q * unit) := (λ t, (t, ())) <$> ts.

(** A state with two live tracks, a shot ahead at 5.0, and two
    detections due at 1.0: the first falls on track 2, the second on no
    track, and track 1 has no detection. *)
Definition busy : state :=
  {| shotGenerator := Shot.getShotGenerator [5%Q];
     faceGenerator :=
       Face.getFaceGenerator
         [(1%Q, 1%Z, box 0 0 10 10); (1%Q, 2%Z, box 20 20 30 30);
          (2%Q, 3%Z, box 0 0 10 10)];
     trackers := {[ 1%nat := box 100 100 110 110; 2%nat := box 1 1 11 11 ]};
     confidences := {[ 1%nat := (1 # 2)%Q; 2%nat := (1 # 2)%Q ]};
     identifier := 2 |}.

End Still.

(** Stand-ins for the detector of faces and for the predictor of
    facial features: two faces on every image, and the four corners of
    the box. *)

Module Still2.

Definition two_faces (gray : unit) (upscale : Z) : list rectangle :=
  [mk_rectangle 0 0 10 10; mk_rectangle 20 20 30 30].

Definition corners (gray : unit) (boundingBox : rectangle) : list (Z * Z) :=
  [(r_left boundingBox, r_top boundingBox);
   (r_right boundingBox, r_top boundingBox);
   (r_right boundingBox, r_bottom boundingBox);
   (r_left boundingBox, r_bottom boundingBox)].

(** A state with no track yet, a shot ahead at 5.0, and two detections
    due at 1.0. *)
Definition fresh : @state Still.dlib :=
  {| shotGenerator := Shot.getShotGenerator [5%Q];
     faceGenerator :=
       Face.getFaceGenerator
         [(1%Q, 1%Z, Still.box 0 0 10 10); (1%Q, 2%Z, Still.box 20 20 30 30);
          (2%Q, 3%Z, Still.box 0 0 10 10)];
     trackers := ∅;
     confidences := ∅;
     identifier := 0 |}.

End Still2.

(** ** Notions used to state the properties *)

Module Array.

(** [a] has [n] rows of [m] entries. *)
Definition shape (n m : nat) (a : matrix) : Prop :=
  length a = n ∧ Forall (λ row, length row = m) a.

(** The entry at row [t] and column [f], when there is one. *)
Definition entry (a : matrix) (t f : nat) : option Q :=
  row ← a !! t; row !! f.

End Array.

Module LastGroup.

Import Face.

Definition detections (lines : list face_line) : faces_t :=
  (λ line : face_line, (line.1.2, line.2)) <$> lines.

(** The detections a generator still holds or has still to read. *)
Definition pending (g : gen) : faces_t :=
  match g with
  | Primed lines => detections lines
  | Waiting _ faces line lines => faces ++ detections (line :: lines)
  | Returned line lines => detections (line :: lines)
  | Exhausted => []
  end.

(** The groups returned by successive pulls, one after the other. *)
Definition returned (outs : list (Q * faces_t)) : faces_t :=
  concat (outs.*2).

(** The partition of the lines of a detection file into maximal runs of
    equal timestamp, each with its timestamp; [groups_from] has the run
    [faces] at [currentT] open. *)
Fixpoint groups_from (currentT : Q) (faces : faces_t)
    (lines : list face_line) : list (Q * faces_t) :=
  match lines with
  | [] => [(currentT, faces)]
  | (T, identifier, face) :: lines' =>
      if Qeq_bool T currentT
      then groups_from T (faces ++ [(identifier, face)]) lines'
      else (currentT, faces) :: groups_from T [(identifier, face)] lines'
  end.

Definition groups (lines : list face_line) : list (Q * faces_t) :=
  match lines with
  | [] => []
  | (T, identifier, face) :: lines' =>
      groups_from T [(identifier, face)] lines'
  end.

(** The groups that a generator holds or has still to read. *)
Definition pending_groups (g : gen) : list (Q * faces_t) :=
  match g with
  | Primed lines => groups lines
  | Waiting currentT faces (T, identifier, face) lines =>
      (currentT, faces) :: groups_from T [(identifier, face)] lines
  | Returned (T, identifier, face) lines =>
      groups_from T [(identifier, face)] lines
  | Exhausted => []
  end.

(** The group that a waiting generator holds has a face at least. *)
Definition holds_faces (g : gen) : Prop :=
  match g with
  | Waiting _ faces _ _ => faces ≠ []
  | _ => True
  end.

(** The results of pulls that carry faces. *)
Definition with_faces (outs : list (Q * faces_t)) : list (Q * faces_t) :=
  filter (λ out, out.2 ≠ []) outs.

(** What a pull can do, [P] being the groups that the generator holds or
    has still to read: fall off the end of the file with at most one group
    left, which is lost; wait; or return the first group of [P], whose
    time the driving time has reached. *)
Definition outcome (P : list (Q * faces_t)) (t : Q) (out : Q * faces_t)
    (g' : gen) : Prop :=
  (g' = Exhausted ∧ out.2 = [] ∧ (length P ≤ 1)%nat) ∨
  (out.2 = [] ∧ pending_groups g' = P ∧ P ≠ [] ∧ holds_faces g') ∨
  (out.2 ≠ [] ∧ (out.1 <= t)%Q ∧ P = out :: pending_groups g' ∧
   pending_groups g' ≠ [] ∧ holds_faces g').

End LastGroup.

Section Notions.

Context {D : Dlib}.

(** The area shared by the position of the [t]-th tracker and the box of
    the [f]-th face; nothing is shared with a row or a column that
    stands for no tracker or no face. *)
Definition overlap (trackers_ : list (nat * tracker)) (faces : Face.faces_t)
    (t f : nat) : Q :=
  match trackers_ !! t, faces !! f with
  | Some (_, tracker), Some (_, face) =>
      area (intersect (get_position tracker) face)
  | _, _ => 0%Q
  end.

(** A solver's answer pairs no row and no column twice. *)
Definition is_assignment (mapping : list (nat * nat)) : Prop :=
  NoDup mapping.*1 ∧ NoDup mapping.*2.

(** The test of line 253 for a pair proposed by the solver, on the
    trackers and the faces as the loop of lines 238-262 finds them;
    a pair with a row or a column that stands for no tracker or no face
    fails it. *)
Definition accepted (trackers_ : list (nat * tracker)) (faces : Face.faces_t)
    (p : nat * nat) : bool :=
  match trackers_ !! p.1, faces !! p.2 with
  | Some (_, tracker), Some (_, face) =>
      enough_overlap (area (intersect (get_position tracker) face))
        (area face) (area (get_position tracker))
  | _, _ => false
  end.

(** The rule of the specification for the pair of row [t] and column
    [f]: they stand for a tracker and a face, and twice the area these
    share exceeds the area of the face or that of the tracker. *)
Definition overlap_rule (trackers_ : list (nat * tracker))
    (faces : Face.faces_t) (t f : nat) : Prop :=
  (t < length trackers_)%nat ∧ (f < length faces)%nat ∧
  ∃ i tr identifier face,
    trackers_ !! t = Some (i, tr) ∧ faces !! f = Some (identifier, face) ∧
    (area face < 2 * area (intersect (get_position tr) face)
     ∨ area (get_position tr) < 2 * area (intersect (get_position tr) face))%Q.

(** What the loop of lines 238-262 has done for a pair it accepted: the
    face is replaced by [(None, None)] and the tracker has left
    [unmatched]. *)
Definition pair_matched (m : matching) (trackers_ : list (nat * tracker))
    (t f : nat) : Prop :=
  m_faces m !! f = Some None ∧
  ∃ i tr, trackers_ !! t = Some (i, tr) ∧ i ∉ m_unmatched m.

(** The line written for an accepted pair. *)
Definition matched_line (T : Q) (confidences : gmap nat Q)
    (trackers_ : list (nat * tracker)) (faces : Face.faces_t)
    (p : nat * nat) : option output_line :=
  if accepted trackers_ faces p then
    item ← trackers_ !! p.1;
    slot ← faces !! p.2;
    confidence ← confidences !! item.1;
    Some (write_face T item.1 confidence slot.2)
  else None.

(** What holds of the state of the loop of lines 238-262 once the pairs
    [done] have been gone through. *)
Record loop_inv (T : Q) (trackers : gmap nat tracker)
    (confidences : gmap nat Q) (faces : Face.faces_t)
    (done : list (nat * nat)) (m : matching) : Prop := {
  inv_out :
    m_out m = omap (matched_line T confidences (map_to_list trackers) faces)
                done;
  inv_unmatched :
    m_unmatched m = dom trackers ∖ list_to_set (o_identifier <$> m_out m);
  inv_faces_length : length (m_faces m) = length faces;
  inv_faces_todo :
    ∀ f, f ∉ done.*2 → m_faces m !! f = Some <$> faces !! f;
  inv_faces_done :
    ∀ p, p ∈ done →
         m_faces m !! p.2
         = if accepted (map_to_list trackers) faces p then Some None
           else Some <$> faces !! p.2;
  inv_dom : dom (m_trackers m) = dom trackers;
  inv_trackers :
    ∀ j, j ∈ m_unmatched m → m_trackers m !! j = trackers !! j;
}.

(** A tracker and its confidence after line 219. *)
Definition updated (gray : image) (tr : tracker) : tracker :=
  (update tr gray).1.

Definition confidence (gray : image) (tr : tracker) : Q :=
  (update tr gray).2.

(** The faces that the matching loop has not replaced by [(None, None)]. *)
Definition faces_left (slots : list (option (Z * drectangle)))
  : Face.faces_t :=
  omap id slots.

(** The lines written by the loop of lines 264-280 for the faces left,
    the counter being at [identifier] when it starts. *)
Fixpoint spawned_lines (T : Q) (identifier : nat) (faces : Face.faces_t)
  : list output_line :=
  match faces with
  | [] => []
  | (_, face) :: faces' =>
      write_face T (S identifier) 0 face
        :: spawned_lines T (S identifier) faces'
  end.

(** The line written by the loop of lines 282-292 for one tracker. *)
Definition coasting_line (T : Q) (confidences : gmap nat Q)
    (unmatched : gset nat) (item : nat * tracker) : option output_line :=
  if bool_decide (item.1 ∈ unmatched) then
    confidence ← confidences !! item.1;
    Some (write_face T item.1 confidence (get_position item.2))
  else None.

(** The values a frame works on: the trackers and confidences once
    lines 207-219 are through, and the time and faces of line 213. *)
Definition frame_trackers (st : state) (shot : option Q) (gray : image)
  : gmap nat tracker :=
  updated gray <$> (reset_at_shot shot (trackers st) (confidences st)).1.

Definition frame_confidences (st : state) (shot : option Q) (gray : image)
  : gmap nat Q :=
  (confidence gray <$> (reset_at_shot shot (trackers st) (confidences st)).1)
  ∪ (reset_at_shot shot (trackers st) (confidences st)).2.

Definition frame_T (st : state) (timestamp : Q) : Q :=
  (Face.send (faceGenerator st) timestamp).1.1.

Definition frame_faces (st : state) (timestamp : Q) : Face.faces_t :=
  (Face.send (faceGenerator st) timestamp).1.2.

(** The rest of a frame (lines 264-292) once the matching loop has left
    the state [m]. *)
Definition spawn_all (st : state) (timestamp : Q) (shot : option Q)
    (gray : image) (m : matching) : spawning :=
  foldl (spawn gray (frame_T st timestamp))
    {| s_trackers := m_trackers m;
       s_confidences := frame_confidences st shot gray;
       s_identifier := identifier st; s_out := [] |}
    (m_faces m).

Definition frame_end (st : state) (timestamp : Q) (shot : option Q)
    (shotGenerator' : Shot.gen) (gray : image) (m : matching)
  : state * frame_output :=
  let s := spawn_all st timestamp shot gray m in
  ({| shotGenerator := shotGenerator';
      faceGenerator := (Face.send (faceGenerator st) timestamp).2;
      trackers := s_trackers s;
      confidences := s_confidences s;
      identifier := s_identifier s |},
   {| matched := m_out m;
      spawned := s_out s;
      coasting := omap (coasting_line (frame_T st timestamp)
                          (s_confidences s) (m_unmatched m))
                    (map_to_list (s_trackers s)) |}).

(** The record a shot generator is to compare with the next time sent,
    and the lines that follow it. *)
Definition next_shot (g : Shot.gen) : option (Q * list Q) :=
  match g with
  | Shot.Primed (T :: lines) => Some (T, lines)
  | Shot.Waiting T lines => Some (T, lines)
  | Shot.Found (T :: lines) => Some (T, lines)
  | _ => None
  end.

(** The identifiers given to new tracks, in the order of their creation. *)
Definition created (os : list frame_output) : list nat :=
  o_identifier <$> concat (spawned <$> os).

(** No live track has an identifier above the counter. *)
Definition well_formed (st : state) : Prop :=
  ∀ i, i ∈ dom (trackers st) → (i ≤ identifier st)%nat.

End Notions.

(** ** Notions used to state the further properties *)

Section DetectNotions.

Context {D : Dlib}.

Variable faceDetector : image → Z → list rectangle.

(** The boxes that the detector finds, frame after frame, each with the
    time of its frame. *)
Definition detections_of (frames : list (Q * image)) (upscale : Z)
  : list (Q * rectangle) :=
  frames ≫= (λ item : Q * image,
               (λ boundingBox, (item.1, boundingBox))
                 <$> faceDetector (cvtColor item.2) upscale).

End DetectNotions.

(** The time and the box of a line. *)
Definition line_box (line : output_line) : Q * rectangle :=
  (o_t line,
   mk_rectangle (o_left line) (o_top line) (o_right line) (o_bottom line)).

(** The records that a shot generator has in hand or has still to read. *)
Definition unread (g : Shot.gen) : list Q :=
  match g with
  | Shot.Primed lines => lines
  | Shot.Waiting T lines => T :: lines
  | Shot.Found lines => lines
  end.

(** The cuts that successive pulls of a shot generator have returned. *)
Definition cuts (outs : list (result (option Q))) : list Q :=
  omap (λ out, match out with Ok shot => shot | Raise _ => None end) outs.

(** How many of the pulls at the times [ts] a shot generator answers
    before it raises. *)
Fixpoint answered (g : Shot.gen) (ts : list Q) : nat :=
  match ts with
  | [] => 0
  | t :: ts' =>
      match Shot.send g t with
      | Ok (_, g') => S (answered g' ts')
      | Raise _ => 0
      end
  end.

(** The times of the lines of a detection file. *)
Definition timestamps (lines : list face_line) : list Q :=
  (λ line : face_line, line.1.1) <$> lines.

(** A box with its sides truncated by [int], as the lines written have
    it. *)
Definition int_box (face : drectangle) : rectangle :=
  mk_rectangle (py_int (d_left face)) (py_int (d_top face))
               (py_int (d_right face)) (py_int (d_bottom face)).

Section StateNotions.

Context {D : Dlib}.

(** What a run keeps of its state: the dictionaries [trackers] and
    [confidences] have the same keys, which lie between 1 and the
    counter. *)
Definition state_inv (st : state) : Prop :=
  dom (confidences st) = dom (trackers st)
  ∧ ∀ i, i ∈ dom (trackers st) → (1 ≤ i ≤ identifier st)%nat.

(** A state with no track, and whose face generator answers every pull
    with no face and is exhausted by it. *)
Definition idle (st : state) : Prop :=
  trackers st = ∅
  ∧ ∀ t, Face.send (faceGenerator st) t = ((t, []), Face.Exhausted).

End StateNotions.

Section MatchNotions.

Context {D : Dlib}.

(** The columns of the pairs of the solver that pass the test of line
    253. *)
Definition accepted_columns (trackers_ : list (nat * tracker))
    (faces : Face.faces_t) (mapping : list (nat * nat)) : list nat :=
  (filter (λ p, accepted trackers_ faces p = true) mapping).*2.

(** The time and the box that a line written for a detection carries. *)
Definition written_box (T : Q) (item : Z * drectangle) : Q * rectangle :=
  (T, int_box item.2).

End MatchNotions.

(** The faces of a group that come from lines of the file [L] that
    carry the time of the group. *)
Definition sourced (L : list face_line) (T : Q) (faces : Face.faces_t)
  : Prop :=
  ∀ item, item ∈ faces →
          ∃ T' : Q, (T', item.1, item.2) ∈ L ∧ (T' == T)%Q.

(** A face generator that holds and has still to read nothing but lines
    of the file [L]. *)
Definition grounded (L : list face_line) (g : Face.gen) : Prop :=
  match g with
  | Face.Primed lines => lines ⊆ L
  | Face.Waiting currentT faces line lines =>
      sourced L currentT faces ∧ line :: lines ⊆ L
  | Face.Returned line lines => line :: lines ⊆ L
  | Face.Exhausted => True
  end.

(** The identifiers of the lines of a file. *)
Definition identifiers (lines : list face_line) : list Z :=
  (λ line : face_line, line.1.2) <$> lines.

Section RestartNotions.

Context {D : Dlib}.

(** What the matching loop has done for the lines it has written: the
    track of the line was live with a confidence, which the line shows,
    and its tracker has been started again on the box of the line, which
    is that of one of the faces of the frame. *)
Definition restarted (gray : image) (trackers : gmap nat tracker)
    (confidences : gmap nat Q) (faces : Face.faces_t) (m : matching)
  : Prop :=
  ∀ line, line ∈ m_out m →
    ∃ tr face,
      face ∈ faces.*2
      ∧ trackers !! o_identifier line = Some tr
      ∧ confidences !! o_identifier line = Some (o_confidence line)
      ∧ m_trackers m !! o_identifier line = Some (start_track tr gray face)
      ∧ line_box line = (o_t line, int_box face).

End RestartNotions.

(** A face generator whose lines are in the order of time and not
    earlier than [b]. *)
Definition bounded (b : Q) (g : Face.gen) : Prop :=
  match g with
  | Face.Primed lines => StronglySorted Qle (b :: timestamps lines)
  | Face.Waiting currentT faces line lines =>
      StronglySorted Qle (b :: currentT :: timestamps (line :: lines))
  | Face.Returned line lines =>
      StronglySorted Qle (b :: timestamps (line :: lines))
  | Face.Exhausted => True
  end.

(** All the lines of a run, in the order in which they are written. *)
Definition all_written (os : list frame_output) : list output_line :=
  concat (written <$> os).

(** A face, a line and a face generator with the identifiers read from
    the file forgotten. *)
Definition anonymous (item : Z * drectangle) : Z * drectangle :=
  (0%Z, item.2).

Definition anonymous_line (line : face_line) : face_line :=
  (line.1.1, 0%Z, line.2).

Definition anonymous_gen (g : Face.gen) : Face.gen :=
  match g with
  | Face.Primed lines => Face.Primed (anonymous_line <$> lines)
  | Face.Waiting currentT faces line lines =>
      Face.Waiting currentT (anonymous <$> faces) (anonymous_line line)
        (anonymous_line <$> lines)
  | Face.Returned line lines =>
      Face.Returned (anonymous_line line) (anonymous_line <$> lines)
  | Face.Exhausted => Face.Exhausted
  end.

Section AnonymousNotions.

Context {D : Dlib}.

Definition anonymous_state (st : state) : state :=
  {| shotGenerator := shotGenerator st;
     faceGenerator := anonymous_gen (faceGenerator st);
     trackers := trackers st;
     confidences := confidences st;
     identifier := identifier st |}.

Definition anonymous_matching (m : matching) : matching :=
  {| m_trackers := m_trackers m;
     m_unmatched := m_unmatched m;
     m_faces := (λ slot : option (Z * drectangle), anonymous <$> slot)
                  <$> m_faces m;
     m_out := m_out m |}.

End AnonymousNotions.

(** * Properties *)

(** ** The synchronizers after the end of their file *)

Module FaceFacts.

Import Face.

(** [wait] never ends the generator. *)
Lemma wait_not_exhausted currentT faces line lines t out :
  wait currentT faces line lines t ≠ (out, Exhausted).
Proof. unfold wait. by destruct (Qgt_bool currentT t). Qed.

(** The only way out of the [for] loop without a group to return is the
    end of the file, and then the driving time comes back alone. *)
Lemma read_exhausted lines : ∀ faces currentT t out,
  read faces currentT lines t = (out, Exhausted) → out = (t, []).
Proof.
  induction lines as [|[[T identifier] face] lines IH];
    intros faces currentT t out; simpl.
  - by intros [= <-].
  - destruct currentT as [c|]; [|by apply IH].
    destruct (Qeq_bool T c); [by apply IH|].
    intros Hw. by apply wait_not_exhausted in Hw.
Qed.

Lemma send_exhausted g t out :
  send g t = (out, Exhausted) → out = (t, []).
Proof.
  destruct g as [lines|c faces line lines|[[T identifier] face] lines|];
    simpl.
  - apply read_exhausted.
  - intros Hw. by apply wait_not_exhausted in Hw.
  - apply read_exhausted.
  - by intros [= <-].
Qed.

Lemma sends_exhausted ts :
  sends Exhausted ts = ((λ t, (t, [])) <$> ts, Exhausted).
Proof.
  induction ts as [|t ts IH]; [done|].
  simpl. by rewrite IH.
Qed.

End FaceFacts.

(** C1 (as amended).  Once a pull has read the detection file to its
    end, that pull and every later one return normally: each gives back
    the driving timestamp it was sent, with an empty list of detections. *)
Theorem face_generator_after_exhaustion (g : Face.gen) (t : Q) (ts : list Q)
    (out : Q * Face.faces_t) :
  Face.send g t = (out, Face.Exhausted) →
  out = (t, []) ∧
  Face.sends Face.Exhausted ts = ((λ t', (t', [])) <$> ts, Face.Exhausted).
Proof.
  intros Hsend. split.
  - by eapply FaceFacts.send_exhausted.
  - apply FaceFacts.sends_exhausted.
Qed.

Lemma face_generator_after_exhaustion_witness :
  Face.send (Face.getFaceGenerator [(1%Q, 1%Z, Still.box 0 0 10 10)]) 5%Q
    = ((5%Q, []), Face.Exhausted) ∧
  Face.sends Face.Exhausted [6%Q; 7%Q]
    = ([(6%Q, []); (7%Q, [])], Face.Exhausted).
Proof.
  split; [reflexivity|].
  exact (proj2 (face_generator_after_exhaustion
                  (Face.getFaceGenerator [(1%Q, 1%Z, Still.box 0 0 10 10)])
                  5%Q [6%Q; 7%Q] (5%Q, []) eq_refl)).
Defined.

(** C1 (as stated) fails on both synchronizers.  With the single shot
    5.0, the pull that follows the one returning it raises
    StopIteration, and so does every later one.  With detections at 1.0
    and 2.0, the pulls after the end of the file return 6.0 and 7.0, the
    times they were sent, neither of which was ever recorded. *)
Lemma exhaustion_counterexample :
  (Shot.sends (Shot.getShotGenerator [5%Q]) [5%Q; 6%Q; 7%Q]).1
    = [Ok (Some 5%Q); Raise StopIteration; Raise StopIteration] ∧
  Face.sends
    (Face.getFaceGenerator
       [(1%Q, 1%Z, Still.box 0 0 10 10); (2%Q, 2%Z, Still.box 0 0 10 10)])
    [5%Q; 6%Q; 7%Q]
    = ([(1%Q, [(1%Z, Still.box 0 0 10 10)]); (6%Q, []); (7%Q, [])],
       Face.Exhausted).
Proof. split; reflexivity. Qed.

(** ** The last group of a detection file *)

Module LastGroupFacts.

Import Face LastGroup.

Lemma read_pending lines : ∀ faces currentT t T fs g',
  read faces currentT lines t = ((T, fs), g') →
  (g' = Exhausted ∧ fs = []) ∨
  (fs ++ pending g' = faces ++ detections lines ∧ pending g' ≠ []).
Proof.
  induction lines as [|[[T0 identifier] face] lines IH];
    intros faces currentT t T fs g'; simpl.
  - intros [= <- <- <-]. by left.
  - assert (read (faces ++ [(identifier, face)]) (Some T0) lines t
            = (T, fs, g') →
            g' = Exhausted ∧ fs = []
            ∨ fs ++ pending g'
              = faces ++ (identifier, face) :: detections lines
              ∧ pending g' ≠ []) as Hsame.
    { intros Hr. apply IH in Hr as [?|[Hfs Hne]]; [by left|right].
      split; [|done]. by rewrite Hfs, <-app_assoc. }
    destruct currentT as [c|]; [|done].
    destruct (Qeq_bool T0 c); [done|].
    unfold wait. destruct (Qgt_bool c t); intros [= <- <- <-]; right.
    + split; [done|]. simpl. by destruct faces.
    + by split.
Qed.

Lemma send_pending g t T fs g' :
  send g t = ((T, fs), g') →
  (g' = Exhausted ∧ fs = []) ∨
  (fs ++ pending g' = pending g ∧ pending g' ≠ []).
Proof.
  destruct g as [lines|c faces line lines|[[T0 identifier] face] lines|];
    simpl.
  - intros Hr. by apply read_pending in Hr.
  - unfold wait. destruct (Qgt_bool c t); intros [= <- <- <-]; right.
    + split; [done|]. simpl. by destruct faces.
    + by split.
  - intros Hr. by apply read_pending in Hr.
  - intros [= <- <- <-]. by left.
Qed.

Lemma returned_nothing (ts : list Q) :
  concat ((λ t : Q, (t, @nil (Z * drectangle))) <$> ts).*2 = [].
Proof. induction ts as [|t ts IH]; [done|]. by simpl. Qed.

(** Whatever the driving times, what has been returned falls short of
    what the generator held. *)
Lemma sends_pending ts : ∀ g outs g',
  sends g ts = (outs, g') →
  pending g ≠ [] →
  ∃ rest, rest ≠ [] ∧ returned outs ++ rest = pending g.
Proof.
  induction ts as [|t ts IH]; intros g outs g'; simpl.
  - intros [= <- <-] Hne. by exists (pending g).
  - destruct (send g t) as [[T fs] g1] eqn:Hsend.
    destruct (sends g1 ts) as [outs1 g2] eqn:Hsends.
    intros [= <- <-] Hne.
    apply send_pending in Hsend as [[-> ->]|[Hfs Hne1]].
    + rewrite FaceFacts.sends_exhausted in Hsends.
      injection Hsends as <- <-.
      exists (pending g). split; [done|].
      unfold returned. simpl. by rewrite returned_nothing.
    + destruct (IH _ _ _ Hsends Hne1) as (rest & Hrest & Heq).
      exists rest. split; [done|].
      unfold returned in *. simpl. by rewrite <-Hfs, <-Heq, app_assoc.
Qed.

Lemma groups_from_nonempty lines : ∀ currentT faces,
  groups_from currentT faces lines ≠ [].
Proof.
  induction lines as [|[[T identifier] face] lines IH]; intros c faces; simpl;
    [done|].
  destruct (Qeq_bool T c); [apply IH|done].
Qed.

Lemma wait_outcome currentT faces line lines t :
  faces ≠ [] →
  outcome (pending_groups (Waiting currentT faces line lines)) t
    (wait currentT faces line lines t).1 (wait currentT faces line lines t).2.
Proof.
  intros Hfaces. destruct line as [[T identifier] face].
  unfold wait, Qgt_bool.
  destruct (Qle_bool currentT t) eqn:Hle; simpl.
  - right. right. simpl. split; [done|].
    split; [by apply Qle_bool_iff|]. split; [done|].
    split; [apply groups_from_nonempty|done].
  - right. left. simpl. by repeat split.
Qed.

Lemma read_outcome lines : ∀ faces currentT t,
  faces ≠ [] →
  outcome (groups_from currentT faces lines) t
    (read faces (Some currentT) lines t).1
    (read faces (Some currentT) lines t).2.
Proof.
  induction lines as [|[[T identifier] face] lines IH];
    intros faces c t Hfaces; simpl.
  - left. split; [done|]. split; [done|]. simpl. lia.
  - destruct (Qeq_bool T c) eqn:Heq.
    + apply IH. by destruct faces.
    + apply (wait_outcome c faces (T, identifier, face) lines t Hfaces).
Qed.

Lemma send_outcome g t :
  holds_faces g →
  outcome (pending_groups g) t (send g t).1 (send g t).2.
Proof.
  destruct g as [lines|c faces line lines|[[T identifier] face] lines|];
    simpl; intros Hfaces.
  - destruct lines as [|[[T identifier] face] lines]; simpl.
    + left. split; [done|]. split; [done|]. simpl. lia.
    + by apply read_outcome.
  - by apply wait_outcome.
  - by apply read_outcome.
  - left. split; [done|]. split; [done|]. simpl. lia.
Qed.

Lemma with_faces_nothing (ts : list Q) :
  with_faces ((λ t : Q, (t, @nil (Z * drectangle))) <$> ts) = [].
Proof.
  unfold with_faces. induction ts as [|t ts IH]; [done|].
  rewrite fmap_cons, filter_cons_False; [done|]. simpl. by intros [].
Qed.

Lemma never_early_nothing (ts : list Q) :
  Forall2 (λ (t : Q) (out : Q * faces_t), out.2 ≠ [] → (out.1 <= t)%Q) ts
    ((λ t : Q, (t, @nil (Z * drectangle))) <$> ts).
Proof.
  induction ts as [|t ts IH]; [constructor|].
  rewrite fmap_cons. constructor; [|done]. simpl. by intros [].
Qed.

(** The groups returned are, in the order of the file, among those the
    generator held, short of the last one, and none is returned before
    the driving time has reached its time. *)
Lemma sends_groups ts : ∀ g,
  holds_faces g →
  (∃ rest, with_faces (sends g ts).1 ++ rest = pending_groups g ∧
           (pending_groups g ≠ [] → rest ≠ [])) ∧
  Forall2 (λ (t : Q) (out : Q * faces_t), out.2 ≠ [] → (out.1 <= t)%Q) ts
    (sends g ts).1.
Proof.
  induction ts as [|t ts IH]; intros g Hfaces; simpl.
  - split; [by exists (pending_groups g)|constructor].
  - pose proof (send_outcome g t Hfaces) as Hout.
    destruct (send g t) as [out g1]. simpl in Hout.
    specialize (IH g1).
    destruct (sends g1 ts) as [outs g2] eqn:Hsends. simpl in *.
    destruct Hout as [(-> & Hnil & Hlen)|[(Hnil & Hsame & Hne & Hf1)|
                      (Hfs & Hle & Hcons & Hne & Hf1)]].
    + rewrite FaceFacts.sends_exhausted in Hsends.
      injection Hsends as <- <-. split.
      * exists (pending_groups g). unfold with_faces.
        rewrite filter_cons_False by (intros Hx; by apply Hx).
        fold (with_faces ((λ t0 : Q, (t0, @nil (Z * drectangle))) <$> ts)).
        by rewrite with_faces_nothing.
      * constructor; [intros Hx; by destruct Hx|apply never_early_nothing].
    + destruct (IH Hf1) as [(rest & Hrest & Hrne) Htime]. split.
      * exists rest. unfold with_faces in *.
        rewrite filter_cons_False by (intros Hx; by apply Hx).
        rewrite Hrest, Hsame. split; [done|]. intros _.
        apply Hrne. by rewrite Hsame.
      * constructor; [intros Hx; by destruct Hx|done].
    + destruct (IH Hf1) as [(rest & Hrest & Hrne) Htime]. split.
      * exists rest. unfold with_faces in *.
        rewrite filter_cons_True by done.
        rewrite Hcons. simpl. rewrite Hrest. split; [done|].
        intros _. by apply Hrne.
      * constructor; [done|done].
Qed.

End LastGroupFacts.

(** C2, on the scenario of the specification: the two detections at 1.0
    make up the last (and only) group of their file, and no pull ever
    returns them, although the driving time reaches and passes 1.0. *)
Theorem final_group_not_returned :
  Face.sends
    (Face.getFaceGenerator
       [(1%Q, 1%Z, Still.box 0 0 10 10); (1%Q, 2%Z, Still.box 20 20 30 30)])
    [0%Q; 1%Q; 2%Q; 3%Q]
  = ([(0%Q, []); (1%Q, []); (2%Q, []); (3%Q, [])], Face.Exhausted).
Proof. reflexivity. Qed.

(** For every detection file and every sequence of driving times, the
    groups returned are the first ones of the partition of the file into
    runs of equal timestamp, in its order and each once, some group
    being left out, and none is returned before the driving time has
    reached its timestamp. *)
Lemma returned_groups_prefix (detection : list face_line) (ts : list Q) :
  (∃ rest,
     LastGroup.with_faces (Face.sends (Face.getFaceGenerator detection) ts).1
       ++ rest
     = LastGroup.groups detection ∧
     (detection ≠ [] → rest ≠ [])) ∧
  Forall2 (λ (t : Q) (out : Q * Face.faces_t), out.2 ≠ [] → (out.1 <= t)%Q)
    ts (Face.sends (Face.getFaceGenerator detection) ts).1.
Proof.
  destruct (LastGroupFacts.sends_groups ts (Face.getFaceGenerator detection))
    as [(rest & Hrest & Hne) Htime]; [done|].
  split; [|done]. exists rest. split; [done|].
  intros Hdet. apply Hne. simpl.
  destruct detection as [|[[T identifier] face] lines]; [done|]. simpl.
  apply LastGroupFacts.groups_from_nonempty.
Qed.

(** In terms of lines: for every detection file and every sequence of
    driving times, the groups returned, put end to end, are a proper
    prefix of the file. *)
Lemma some_detections_never_returned (detection : list face_line)
    (ts : list Q) :
  detection ≠ [] →
  ∃ rest, rest ≠ [] ∧
    LastGroup.returned (Face.sends (Face.getFaceGenerator detection) ts).1
      ++ rest
    = LastGroup.detections detection.
Proof.
  intros Hne.
  destruct (Face.sends (Face.getFaceGenerator detection) ts)
    as [outs g'] eqn:Hsends.
  apply LastGroupFacts.sends_pending in Hsends; [done|].
  simpl. by destruct detection.
Qed.

(** ** Loops and arrays *)

Lemma for_each_app {A S : Type} (body : S → A → result S) (l1 l2 : list A)
    (s : S) :
  for_each body s (l1 ++ l2) = s' ← for_each body s l1; for_each body s' l2.
Proof.
  revert s. induction l1 as [|x l1 IH]; intros s; simpl; [done|].
  destruct (body s x) as [s'|e]; simpl; [apply IH|done].
Qed.

Module ArrayFacts.

Import Array.

Lemma np_get_entry a t f : np_get a t f = entry a t f ?? IndexError.
Proof. unfold np_get, entry. by destruct (a !! t). Qed.

Lemma entry_is_Some n m a t f :
  shape n m a → (t < n)%nat → (f < m)%nat → is_Some (entry a t f).
Proof.
  intros [Hn Hm] Ht Hf. unfold entry.
  destruct (lookup_lt_is_Some_2 a t) as [row Hrow]; [lia|].
  rewrite Hrow. simpl. apply lookup_lt_is_Some_2.
  rewrite Forall_lookup in Hm. rewrite (Hm _ _ Hrow). lia.
Qed.

Lemma shape_zeros n m : shape n m (np_zeros n m).
Proof.
  split; [apply length_replicate|].
  apply Forall_replicate, length_replicate.
Qed.

Lemma entry_zeros n m t f :
  (t < n)%nat → (f < m)%nat → entry (np_zeros n m) t f = Some 0%Q.
Proof.
  intros Ht Hf. unfold entry, np_zeros.
  rewrite lookup_replicate_2 by done. simpl. by apply lookup_replicate_2.
Qed.

Lemma np_set_ok n m a t f v :
  shape n m a → (t < n)%nat → (f < m)%nat →
  ∃ a', np_set a t f v = Ok a' ∧ shape n m a' ∧
    ∀ t' f', entry a' t' f'
             = if decide (t' = t ∧ f' = f) then Some v else entry a t' f'.
Proof.
  intros [Hn Hm] Ht Hf. unfold np_set.
  destruct (lookup_lt_is_Some_2 a t) as [row Hrow]; [lia|].
  rewrite Hrow. simpl.
  assert (length row = m) as Hlen.
  { rewrite Forall_lookup in Hm. by apply (Hm t). }
  rewrite bool_decide_eq_true_2 by lia.
  eexists. split; [done|]. split.
  - split; [by rewrite length_insert|].
    apply Forall_insert; [done|]. by rewrite length_insert.
  - intros t' f'. unfold entry.
    destruct (decide (t' = t)) as [->|Hne].
    + rewrite list_lookup_insert_eq by lia. simpl.
      destruct (decide (f' = f)) as [->|Hnf].
      * rewrite decide_True by done. apply list_lookup_insert_eq. lia.
      * rewrite decide_False by (intros []; congruence).
        rewrite list_lookup_insert_ne by done. by rewrite Hrow.
    + rewrite decide_False by (intros []; congruence).
      by rewrite list_lookup_insert_ne.
Qed.



Lemma entry_elem_of a t f v : entry a t f = Some v → v ∈ concat a.
Proof.
  unfold entry. destruct (a !! t) as [row|] eqn:Hrow; [|done]. simpl.
  intros Hv. apply list_elem_of_In, in_concat. exists row.
  split; apply list_elem_of_In; by eapply list_elem_of_lookup_2.
Qed.

Lemma float_max_le_l x y : (x <= float_max x y)%Q.
Proof.
  unfold float_max. destruct (Qle_bool x y) eqn:Hle.
  - by apply Qle_bool_iff.
  - apply Qle_refl.
Qed.

Lemma float_max_le_r x y : (y <= float_max x y)%Q.
Proof.
  unfold float_max. destruct (Qle_bool x y) eqn:Hle.
  - apply Qle_refl.
  - destruct (Qlt_le_dec x y) as [Hlt|Hge]; [|done].
    apply Qlt_le_weak, Qle_bool_iff in Hlt. congruence.
Qed.

Lemma foldl_float_max xs : ∀ x,
  (x <= foldl float_max x xs)%Q ∧
  (∀ y, y ∈ xs → (y <= foldl float_max x xs)%Q) ∧
  foldl float_max x xs ∈ x :: xs.
Proof.
  induction xs as [|z xs IH]; intros x; simpl.
  - split; [apply Qle_refl|]. split; [by intros y ?%elem_of_nil|].
    apply list_elem_of_here.
  - destruct (IH (float_max x z)) as (Hx & Hxs & Hin). repeat split.
    + eapply Qle_trans; [apply float_max_le_l|done].
    + intros y [->|Hy]%elem_of_cons; [|by apply Hxs].
      eapply Qle_trans; [apply float_max_le_r|done].
    + apply elem_of_cons in Hin as [Heq|Hin].
      * rewrite Heq. unfold float_max.
        destruct (Qle_bool x z); [apply list_elem_of_further|];
          apply list_elem_of_here.
      * by do 2 apply list_elem_of_further.
Qed.

(** [np.max] of an array with at least one entry is one of its entries
    and is below none of them. *)
Lemma np_max_ok n m a :
  shape n m a → (0 < n)%nat → (0 < m)%nat →
  ∃ top, np_max a = Ok top ∧ top ∈ concat a ∧
    ∀ t f v, entry a t f = Some v → (v <= top)%Q.
Proof.
  intros Hshape Hn Hm.
  destruct (entry_is_Some n m a 0 0 Hshape Hn Hm) as [v0 Hv0].
  apply entry_elem_of in Hv0. unfold np_max.
  destruct (concat a) as [|x xs] eqn:Hc; [by apply elem_of_nil in Hv0|].
  destruct (foldl_float_max xs x) as (Hx & Hxs & Hin).
  eexists. split; [done|]. split; [done|].
  intros t f v Hv. apply entry_elem_of in Hv. rewrite Hc in Hv.
  apply elem_of_cons in Hv as [->|Hv]; [done|by apply Hxs].
Qed.

End ArrayFacts.

(** ** The overlap matrix (lines 227-233) *)

Section Intersections.

Context {D : Dlib}.

Import Array ArrayFacts.

(** The inner loop fills the columns of the faces in row [t]. *)
Lemma intersections_row_ok n m t position (faces : Face.faces_t) :
  ∀ s a,
    shape n m a → (t < n)%nat → (s + length faces ≤ m)%nat →
    ∃ a', for_each (intersections_row t position) a
            (zip (seq s (length faces)) faces) = Ok a' ∧
      shape n m a' ∧
      ∀ t' f', entry a' t' f'
        = if decide (t' = t ∧ (s ≤ f' < s + length faces)%nat)
          then (λ x : Z * drectangle, area (intersect position x.2))
                 <$> faces !! (f' - s)%nat
          else entry a t' f'.
Proof.
  induction faces as [|[identifier face] faces IH]; intros s a Hshape Ht Hs.
  - exists a. split; [done|]. split; [done|]. intros t' f'.
    rewrite decide_False; [done|]. simpl. lia.
  - simpl in *.
    destruct (np_set_ok n m a t s (area (intersect position face)))
      as (a1 & -> & Hshape1 & Hentry1); [done|done|lia|].
    simpl.
    destruct (IH (S s) a1) as (a' & -> & Hshape' & Hentry'); [done|done|lia|].
    exists a'. split; [done|]. split; [done|]. intros t' f'.
    rewrite Hentry', Hentry1.
    destruct (decide (t' = t)) as [->|Hne].
    + destruct (decide (f' = s)) as [->|Hnf].
      * rewrite decide_False by lia. rewrite !decide_True by lia.
        by rewrite Nat.sub_diag.
      * destruct (decide (S s ≤ f' < S s + length faces)%nat) as [Hin|Hout].
        -- rewrite !decide_True by lia.
           by replace (f' - s)%nat with (S (f' - S s)) by lia.
        -- rewrite !decide_False by lia. done.
    + rewrite !decide_False by (intros []; congruence). done.
Qed.

(** The outer loop fills the rows of the trackers. *)
Lemma intersections_rows_ok n m (faces : Face.faces_t)
    (trackers_ : list (nat * tracker)) :
  (length faces ≤ m)%nat →
  ∀ s a,
    shape n m a → (s + length trackers_ ≤ n)%nat →
    ∃ a', for_each
            (λ areas '(t, (i, tracker)),
               for_each (intersections_row t (get_position tracker)) areas
                 (enumerate faces))
            a (zip (seq s (length trackers_)) trackers_) = Ok a' ∧
      shape n m a' ∧
      ∀ t' f', entry a' t' f'
        = if decide ((s ≤ t' < s + length trackers_)%nat ∧
                     (f' < length faces)%nat)
          then Some (overlap trackers_ faces (t' - s) f')
          else entry a t' f'.
Proof.
  intros Hm.
  induction trackers_ as [|[i tracker] trackers_ IH]; intros s a Hshape Hs.
  - exists a. split; [done|]. split; [done|]. intros t' f'.
    rewrite decide_False; [done|]. simpl. lia.
  - simpl in *. unfold enumerate.
    destruct (intersections_row_ok n m s (get_position tracker) faces 0 a)
      as (a1 & -> & Hshape1 & Hentry1); [done|lia|lia|].
    simpl.
    destruct (IH (S s) a1) as (a' & Ha' & Hshape' & Hentry'); [done|lia|].
    unfold enumerate in Ha'. rewrite Ha'.
    exists a'. split; [done|]. split; [done|]. intros t' f'.
    rewrite Hentry', Hentry1.
    destruct (decide (f' < length faces)%nat) as [Hf|Hf].
    + destruct (decide (t' = s)) as [->|Hne].
      * rewrite decide_False by lia. rewrite !decide_True by lia.
        rewrite Nat.sub_diag, Nat.sub_0_r. unfold overlap. simpl.
        destruct (lookup_lt_is_Some_2 faces f' Hf) as [[? face] ->]. done.
      * destruct (decide (S s ≤ t' < S s + length trackers_)%nat)
          as [Hin|Hout].
        -- rewrite !decide_True by lia. f_equal. unfold overlap.
           by replace (t' - s)%nat with (S (t' - S s)) by lia.
        -- rewrite !decide_False by lia. done.
    + rewrite !decide_False by lia. done.
Qed.

(** Lines 228-233 build an N×N array that holds the shared area of
    every tracker/face pair and zero elsewhere. *)
Lemma intersections_ok N (trackers_ : list (nat * tracker))
    (faces : Face.faces_t) :
  (length trackers_ ≤ N)%nat → (length faces ≤ N)%nat →
  ∃ areas, intersections N trackers_ faces = Ok areas ∧
    shape N N areas ∧
    ∀ t f, (t < N)%nat → (f < N)%nat →
           entry areas t f = Some (overlap trackers_ faces t f).
Proof.
  intros Ht Hf. unfold intersections, enumerate.
  destruct (intersections_rows_ok N N faces trackers_ Hf 0 (np_zeros N N))
    as (areas & Hareas & Hshape & Hentry); [apply shape_zeros|lia|].
  unfold enumerate in Hareas. rewrite Hareas.
  exists areas. split; [done|]. split; [done|]. intros t f HtN HfN.
  rewrite Hentry, Nat.sub_0_r.
  destruct (decide _) as [_|Hout]; [done|].
  rewrite entry_zeros by done. f_equal. unfold overlap.
  destruct (trackers_ !! t) as [[i tracker]|] eqn:Htr; [|done].
  destruct (faces !! f) as [[identifier face]|] eqn:Hfa; [|done].
  apply lookup_lt_Some in Htr, Hfa. lia.
Qed.

End Intersections.

Section CostMatrix.

Context {D : Dlib}.

Import Array ArrayFacts.

(** Lines 224-236 with a tracker and a face at least: the overlap array
    is built, its largest entry is found, and the solver is run on their
    difference. *)
Lemma match_faces_solver (hungarian : matrix → list (nat * nat))
    (gray : image) (T : Q) (trackers : gmap nat tracker)
    (confidences : gmap nat Q) (faces : Face.faces_t) :
  (0 < size trackers)%nat → (0 < length faces)%nat →
  ∃ (areas : matrix) (top : Q),
    intersections (Nat.max (size trackers) (length faces))
      (map_to_list trackers) faces = Ok areas ∧
    shape (Nat.max (size trackers) (length faces))
          (Nat.max (size trackers) (length faces)) areas ∧
    (∀ t f,
       (t < Nat.max (size trackers) (length faces))%nat →
       (f < Nat.max (size trackers) (length faces))%nat →
       entry areas t f = Some (overlap (map_to_list trackers) faces t f)) ∧
    np_max areas = Ok top ∧
    (∀ t f v, entry areas t f = Some v → (v <= top)%Q) ∧
    cost_matrix areas = Ok (np_rsub top areas) ∧
    match_faces hungarian gray T trackers confidences faces
    = for_each
        (match_pair gray T confidences areas (size trackers) (length faces)
           (map_to_list trackers))
        (matching_init trackers faces) (hungarian (np_rsub top areas)).
Proof.
  intros HNt HNf.
  set (N := Nat.max (size trackers) (length faces)).
  assert (length (map_to_list trackers) = size trackers) as Hlen
    by apply length_map_to_list.
  destruct (intersections_ok N (map_to_list trackers) faces)
    as (areas & Hareas & Hshape & Hentry); [lia|lia|].
  destruct (np_max_ok N N areas Hshape) as (top & Htop & _ & Hle); [lia|lia|].
  exists areas, top.
  split; [done|]. split; [done|]. split; [done|]. split; [done|].
  split; [done|].
  split; [unfold cost_matrix; by rewrite Htop|].
  unfold match_faces, Nt_and_Nf.
  destruct (Nat.eqb_spec (size trackers) 0) as [?|_]; [lia|].
  destruct (Nat.eqb_spec (length faces) 0) as [?|_]; [lia|].
  simpl. fold N. rewrite Hareas. simpl.
  unfold cost_matrix. rewrite Htop. done.
Qed.


End CostMatrix.


(** ** The matching loop (lines 238-262) *)

Section Matching.

Context {D : Dlib}.

Import Array ArrayFacts.

Variables (gray : image) (T : Q).
Variables (trackers : gmap nat tracker) (confidences : gmap nat Q).
Variables (faces : Face.faces_t) (areas : matrix).

Hypothesis areas_overlap :
  ∀ t f, (t < size trackers)%nat → (f < length faces)%nat →
         entry areas t f = Some (overlap (map_to_list trackers) faces t f).
Hypothesis confidences_known : dom trackers ⊆ dom confidences.

(** A tracker sits in one row only. *)
Lemma row_of_identifier t t' i tracker tracker' :
  map_to_list trackers !! t = Some (i, tracker) →
  map_to_list trackers !! t' = Some (i, tracker') →
  t = t'.
Proof.
  intros Ht Ht'.
  apply (NoDup_lookup (map_to_list trackers).*1 t t' i).
  - apply NoDup_fst_map_to_list.
  - by rewrite list_lookup_fmap, Ht.
  - by rewrite list_lookup_fmap, Ht'.
Qed.

Lemma row_lookup t i tracker :
  map_to_list trackers !! t = Some (i, tracker) → trackers !! i = Some tracker.
Proof.
  intros Ht. apply elem_of_map_to_list. by eapply list_elem_of_lookup_2.
Qed.

(** The identifier of a line written by the loop is that of the row of
    one of the pairs gone through. *)
Lemma matched_line_row p line :
  matched_line T confidences (map_to_list trackers) faces p = Some line →
  accepted (map_to_list trackers) faces p = true ∧
  ∃ tracker, map_to_list trackers !! p.1 = Some (o_identifier line, tracker).
Proof.
  unfold matched_line.
  destruct (accepted _ _ p); [|done].
  destruct (map_to_list trackers !! p.1) as [[i tracker]|]; [|done].
  destruct (faces !! p.2) as [[identifier face]|]; [|done]. simpl.
  destruct (confidences !! i) as [c|]; [|done]. simpl.
  intros [= <-]. split; [done|]. by exists tracker.
Qed.

Lemma matched_rows (done : list (nat * nat)) i :
  i ∈ o_identifier
        <$> omap (matched_line T confidences (map_to_list trackers) faces) done →
  ∃ p tracker, p ∈ done ∧
    accepted (map_to_list trackers) faces p = true ∧
    map_to_list trackers !! p.1 = Some (i, tracker).
Proof.
  intros (line & -> & Hline)%list_elem_of_fmap.
  apply list_elem_of_omap in Hline as (p & Hp & Hline).
  apply matched_line_row in Hline as (Hacc & tracker & Hrow).
  by exists p, tracker.
Qed.

Lemma matched_identifiers_NoDup (done : list (nat * nat)) :
  NoDup done.*1 →
  NoDup (o_identifier
           <$> omap (matched_line T confidences (map_to_list trackers) faces)
                 done).
Proof.
  induction done as [|p done IH]; simpl; [constructor|].
  intros [Hp Hdone]%NoDup_cons.
  destruct (matched_line _ _ _ _ p) as [line|] eqn:Hline; [|by apply IH].
  simpl. apply NoDup_cons. split; [|by apply IH].
  intros (p' & tracker' & Hp' & _ & Hrow')%matched_rows.
  apply matched_line_row in Hline as (_ & tracker & Hrow).
  apply Hp. rewrite (row_of_identifier _ _ _ _ _ Hrow Hrow').
  by apply list_elem_of_fmap_2.
Qed.

Lemma loop_inv_init :
  loop_inv T trackers confidences faces [] (matching_init trackers faces).
Proof.
  split; simpl.
  - done.
  - by rewrite difference_empty_L.
  - by rewrite length_fmap.
  - intros f _. by rewrite list_lookup_fmap.
  - by intros p ?%elem_of_nil.
  - done.
  - done.
Qed.

(** A pair that involves a row or a column added to square the array
    changes nothing. *)
Lemma match_pair_phantom m t f :
  (size trackers ≤ t)%nat ∨ (length faces ≤ f)%nat →
  match_pair gray T confidences areas (size trackers) (length faces)
    (map_to_list trackers) m (t, f) = Ok m ∧
  accepted (map_to_list trackers) faces (t, f) = false.
Proof.
  intros Hpad. split.
  - unfold match_pair.
    destruct Hpad.
    + by rewrite (bool_decide_eq_true_2 (size trackers ≤ t)%nat).
    + rewrite (bool_decide_eq_true_2 (length faces ≤ f)%nat) by done.
      by rewrite orb_true_r.
  - unfold accepted. simpl.
    destruct (map_to_list trackers !! t) as [[i tracker]|] eqn:Htr; [|done].
    destruct (faces !! f) as [[identifier face]|] eqn:Hfa; [|done].
    apply lookup_lt_Some in Htr, Hfa.
    rewrite length_map_to_list in Htr. lia.
Qed.

Lemma loop_inv_skip (done : list (nat * nat)) m p :
  loop_inv T trackers confidences faces done m →
  p.2 ∉ done.*2 →
  accepted (map_to_list trackers) faces p = false →
  loop_inv T trackers confidences faces (done ++ [p]) m.
Proof.
  intros [Hout Hun Hlen Htodo Hdone Hdom Htr] Hcol Hacc. split.
  - rewrite omap_app, <-Hout. simpl. unfold matched_line. rewrite Hacc.
    by rewrite app_nil_r.
  - done.
  - done.
  - intros f Hf. apply Htodo. rewrite fmap_app in Hf.
    intros ?. apply Hf, elem_of_app. by left.
  - intros p' [Hp'|Hp'%list_elem_of_singleton]%elem_of_app; [by apply Hdone|].
    subst p'. rewrite Hacc. by apply Htodo.
  - done.
  - done.
Qed.

(** One turn of the loop on a pair whose row and column are new. *)
Lemma match_pair_ok (done : list (nat * nat)) m p :
  loop_inv T trackers confidences faces done m →
  p.1 ∉ done.*1 → p.2 ∉ done.*2 →
  ∃ m', match_pair gray T confidences areas (size trackers) (length faces)
          (map_to_list trackers) m p = Ok m' ∧
        loop_inv T trackers confidences faces (done ++ [p]) m'.
Proof.
  intros Hinv Hrow Hcol. destruct p as [t f]. simpl in Hrow, Hcol.
  destruct (decide ((size trackers ≤ t)%nat ∨ (length faces ≤ f)%nat))
    as [Hpad|Hreal].
  { destruct (match_pair_phantom m t f Hpad) as [-> Hacc].
    exists m. split; [done|]. by apply loop_inv_skip. }
  assert (t < size trackers)%nat as Ht by lia.
  assert (f < length faces)%nat as Hf by lia.
  destruct (lookup_lt_is_Some_2 (map_to_list trackers) t)
    as [[i tracker] Htr]; [by rewrite length_map_to_list|].
  destruct (lookup_lt_is_Some_2 faces f Hf) as [[identifier face] Hfa].
  pose proof Hinv as [Hout Hun Hlen Htodo Hdone Hdom Htrs].
  assert (i ∈ m_unmatched m) as Hi.
  { rewrite Hun. apply elem_of_difference. split.
    - apply elem_of_dom. rewrite (row_lookup _ _ _ Htr). by eexists.
    - rewrite elem_of_list_to_set, Hout.
      intros (p' & tracker' & Hp' & _ & Hrow')%matched_rows.
      apply Hrow. rewrite (row_of_identifier _ _ _ _ _ Htr Hrow').
      by apply list_elem_of_fmap_2. }
  assert (accepted (map_to_list trackers) faces (t, f)
          = enough_overlap (area (intersect (get_position tracker) face))
              (area face) (area (get_position tracker))) as Hacc.
  { unfold accepted. simpl. by rewrite Htr, Hfa. }
  unfold match_pair.
  rewrite (bool_decide_eq_false_2 (size trackers ≤ t)%nat) by lia.
  rewrite (bool_decide_eq_false_2 (length faces ≤ f)%nat) by lia.
  simpl.
  rewrite np_get_entry, (areas_overlap t f Ht Hf). simpl.
  rewrite (Htodo f Hcol), Hfa. simpl.
  rewrite Htr. simpl.
  rewrite (Htrs i Hi), (row_lookup _ _ _ Htr). simpl.
  unfold overlap. rewrite Htr, Hfa. rewrite <-Hacc.
  destruct (accepted (map_to_list trackers) faces (t, f)) eqn:Hyes.
  2:{ exists m. split; [done|]. by apply loop_inv_skip. }
  rewrite bool_decide_eq_true_2 by done.
  assert (is_Some (confidences !! i)) as [c Hc].
  { apply elem_of_dom, confidences_known, elem_of_dom.
    rewrite (row_lookup _ _ _ Htr). by eexists. }
  rewrite Hc. simpl. eexists. split; [done|].
  assert (matched_line T confidences (map_to_list trackers) faces (t, f)
          = Some (write_face T i c face)) as Hline.
  { unfold matched_line. rewrite Hyes. simpl. rewrite Htr. simpl.
    rewrite Hfa. simpl. by rewrite Hc. }
  split; simpl.
  - by rewrite omap_app, <-Hout; simpl; rewrite Hline.
  - rewrite Hun, fmap_app, list_to_set_app_L. simpl.
    generalize (m_unmatched m), (dom trackers). intros X Y. set_solver +.
  - by rewrite length_insert.
  - intros f' Hf'. rewrite fmap_app in Hf'. simpl in Hf'.
    rewrite list_lookup_insert_ne.
    + apply Htodo. intros ?. apply Hf', elem_of_app. by left.
    + intros ->. apply Hf', elem_of_app. right. apply list_elem_of_here.
  - intros p' [Hp'|Hp'%list_elem_of_singleton]%elem_of_app.
    + rewrite list_lookup_insert_ne; [by apply Hdone|].
      intros Heq. apply Hcol. rewrite Heq. by apply list_elem_of_fmap_2.
    + subst p'. simpl. rewrite Hyes. apply list_lookup_insert_eq. lia.
  - rewrite dom_insert_L, Hdom.
    assert (i ∈ dom trackers) as Hin; [|set_solver + Hin].
    apply elem_of_dom. rewrite (row_lookup _ _ _ Htr). by eexists.
  - intros j [Hj Hne]%elem_of_difference.
    rewrite lookup_insert_ne; [by apply Htrs|].
    intros ->. apply Hne. by apply elem_of_singleton.
Qed.

(** The whole loop, on the answer of a solver. *)
Lemma match_loop_ok (mapping : list (nat * nat)) :
  is_assignment mapping →
  ∃ m', for_each
          (match_pair gray T confidences areas (size trackers) (length faces)
             (map_to_list trackers))
          (matching_init trackers faces) mapping = Ok m' ∧
        loop_inv T trackers confidences faces mapping m'.
Proof.
  intros [Hrows Hcols].
  induction mapping as [|p done IH] using rev_ind.
  - exists (matching_init trackers faces). split; [done|]. apply loop_inv_init.
  - rewrite fmap_app in Hrows, Hcols.
    apply NoDup_app in Hrows as (Hrows & Hrow & _).
    apply NoDup_app in Hcols as (Hcols & Hcol & _).
    destruct (IH Hrows Hcols) as (m & Hm & Hinv).
    destruct (match_pair_ok done m p Hinv) as (m' & Hm' & Hinv').
    + intros Hin. apply (Hrow _ Hin). apply list_elem_of_here.
    + intros Hin. apply (Hcol _ Hin). apply list_elem_of_here.
    + exists m'. split; [|done]. rewrite for_each_app, Hm. simpl.
      rewrite Hm'. done.
Qed.

End Matching.

(** ** The other loops of a frame *)

Lemma omap_cons {A B : Type} (f : A → option B) (x : A) (l : list A) :
  omap f (x :: l)
  = match f x with Some y => y :: omap f l | None => omap f l end.
Proof. done. Qed.

Section Loops.

Context {D : Dlib}.

Variables (gray : image) (T : Q).

(** Lines 218-219, entry by entry. *)
Lemma update_fold_lookup (l : list (nat * tracker)) :
  ∀ (a : gmap nat tracker) (b : gmap nat Q) i,
    NoDup l.*1 →
    (foldl (update_one gray) (a, b) l).1 !! i
    = match (list_to_map l : gmap nat tracker) !! i with
      | Some tracker => Some (updated gray tracker)
      | None => a !! i
      end ∧
    (foldl (update_one gray) (a, b) l).2 !! i
    = match (list_to_map l : gmap nat tracker) !! i with
      | Some tracker => Some (confidence gray tracker)
      | None => b !! i
      end.
Proof.
  induction l as [|[j tracker] l IH]; intros a b i Hnd; simpl; [done|].
  apply NoDup_cons in Hnd as [Hj Hnd].
  unfold updated, confidence in *.
  destruct (update tracker gray) as [tracker' c] eqn:Hupd. simpl.
  destruct (IH (<[j:=tracker']> a) (<[j:=c]> b) i Hnd) as [-> ->].
  destruct (decide (i = j)) as [->|Hne].
  - rewrite (not_elem_of_list_to_map_1 _ _ Hj), !lookup_insert_eq.
    by rewrite Hupd.
  - by rewrite !lookup_insert_ne.
Qed.

Lemma update_all_spec (trackers : gmap nat tracker) (confidences : gmap nat Q) :
  update_all gray trackers confidences
  = (updated gray <$> trackers,
     (confidence gray <$> trackers) ∪ confidences).
Proof.
  unfold update_all.
  destruct (foldl _ _ _) as [a b] eqn:Hfold. f_equal; apply map_eq; intros i.
  - pose proof (update_fold_lookup (map_to_list trackers) trackers confidences
                  i (NoDup_fst_map_to_list _)) as [Ha _].
    rewrite Hfold, list_to_map_to_list in Ha. simpl in Ha.
    rewrite Ha, lookup_fmap. by destruct (trackers !! i).
  - pose proof (update_fold_lookup (map_to_list trackers) trackers confidences
                  i (NoDup_fst_map_to_list _)) as [_ Hb].
    rewrite Hfold, list_to_map_to_list in Hb. simpl in Hb.
    rewrite Hb, lookup_union, lookup_fmap.
    destruct (trackers !! i); simpl; [|by rewrite (left_id_L None _)].
    by destruct (confidences !! i).
Qed.

(** Lines 264-280: the faces left each start a tracker, under the
    identifiers that follow the counter. *)
Lemma spawn_fold (slots : list (option (Z * drectangle))) : ∀ s,
  let s' := foldl (spawn gray T) s slots in
  let n := length (faces_left slots) in
  s_identifier s' = (s_identifier s + n)%nat ∧
  s_out s' = s_out s ++ spawned_lines T (s_identifier s) (faces_left slots) ∧
  dom (s_trackers s')
  = dom (s_trackers s) ∪ list_to_set (seq (S (s_identifier s)) n) ∧
  dom (s_confidences s')
  = dom (s_confidences s) ∪ list_to_set (seq (S (s_identifier s)) n) ∧
  ∀ j, (j ≤ s_identifier s)%nat →
       s_trackers s' !! j = s_trackers s !! j ∧
       s_confidences s' !! j = s_confidences s !! j.
Proof.
  induction slots as [|[[identifier face]|] slots IH]; intros s; cbv zeta.
  - simpl. rewrite Nat.add_0_r, app_nil_r, !(right_id_L ∅ _). done.
  - change (faces_left (Some (identifier, face) :: slots))
      with ((identifier, face) :: faces_left slots).
    cbn [foldl spawn].
    destruct (update (start_track correlation_tracker gray face) gray)
      as [tracker' c] eqn:Hupd.
    match goal with |- context [foldl _ ?s1 slots] =>
      destruct (IH s1) as (Hid & Hout & Htr & Hco & Hold) end.
    cbn [s_identifier s_out s_trackers s_confidences] in Hid, Hout, Htr, Hco,
      Hold.
    rewrite Hid, Hout, Htr, Hco, !dom_insert_L.
    cbn [length spawned_lines seq list_to_set].
    split; [lia|]. split; [by rewrite <-app_assoc|].
    split; [set_solver +|]. split; [set_solver +|].
    intros j Hj. destruct (Hold j) as [-> ->]; [lia|].
    rewrite !lookup_insert_ne by lia. done.
  - change (faces_left (None :: slots)) with (faces_left slots). apply IH.
Qed.

Lemma spawned_lines_identifiers identifier (faces : Face.faces_t) :
  o_identifier <$> spawned_lines T identifier faces
  = seq (S identifier) (length faces).
Proof.
  revert identifier.
  induction faces as [|[z face] faces IH]; intros identifier; simpl; [done|].
  by rewrite IH.
Qed.

(** Every line of a new track carries the time of the detections and
    the confidence 0.000. *)
Lemma spawned_lines_confidence identifier (faces : Face.faces_t) :
  Forall (λ line, o_t line = T ∧ o_confidence line = 0%Q)
    (spawned_lines T identifier faces).
Proof.
  revert identifier.
  induction faces as [|[z face] faces IH]; intros identifier; simpl.
  - constructor.
  - constructor; [done|apply IH].
Qed.

(** Lines 282-292: a line for every tracker still in [unmatched]. *)
Lemma coast_loop (confidences : gmap nat Q) (unmatched : gset nat)
    (items : list (nat * tracker)) :
  unmatched ⊆ dom confidences →
  ∀ out,
    for_each (coast T confidences unmatched) out items
    = Ok (out ++ omap (coasting_line T confidences unmatched) items).
Proof.
  intros Hknown.
  induction items as [|[i tracker] items IH]; intros out; simpl.
  - by rewrite app_nil_r.
  - unfold coasting_line at 1. simpl.
    destruct (bool_decide (i ∈ unmatched)) eqn:Hi; simpl; [|apply IH].
    apply bool_decide_eq_true_1 in Hi.
    destruct (confidences !! i) as [c|] eqn:Hc.
    + simpl. rewrite IH. by rewrite <-app_assoc.
    + apply Hknown, elem_of_dom in Hi. rewrite Hc in Hi. by destruct Hi.
Qed.

Lemma coasting_identifiers (confidences : gmap nat Q) (unmatched : gset nat)
    (items : list (nat * tracker)) :
  unmatched ⊆ dom confidences →
  o_identifier <$> omap (coasting_line T confidences unmatched) items
  = filter (.∈ unmatched) items.*1.
Proof.
  intros Hknown.
  induction items as [|[i tracker] items IH]; [done|].
  rewrite omap_cons, fmap_cons, filter_cons.
  unfold coasting_line at 1. cbn [fst snd].
  destruct (decide (i ∈ unmatched)) as [Hi|Hi].
  - rewrite bool_decide_eq_true_2 by done.
    destruct (confidences !! i) as [c|] eqn:Hc.
    + cbn [mbind option_bind]. rewrite fmap_cons, IH. done.
    + apply Hknown, elem_of_dom in Hi. rewrite Hc in Hi. by destruct Hi.
  - rewrite bool_decide_eq_false_2 by done. apply IH.
Qed.

(** Each tracker in [unmatched] gets its line once. *)
Lemma coasting_permutation (trackers : gmap nat tracker)
    (confidences : gmap nat Q) (unmatched : gset nat) :
  unmatched ⊆ dom confidences → unmatched ⊆ dom trackers →
  o_identifier
    <$> omap (coasting_line T confidences unmatched) (map_to_list trackers)
  ≡ₚ elements unmatched.
Proof.
  intros Hknown Hlive. rewrite coasting_identifiers by done.
  apply NoDup_Permutation.
  - apply NoDup_filter, NoDup_fst_map_to_list.
  - apply NoDup_elements.
  - intros i. rewrite list_elem_of_filter, elem_of_elements. split.
    + by intros [? _].
    + intros Hi. split; [done|].
      apply Hlive, elem_of_dom in Hi as [tracker Htr].
      apply list_elem_of_fmap. exists (i, tracker). split; [done|].
      by apply elem_of_map_to_list.
Qed.

End Loops.

(** ** One frame *)

Section Frame.

Context {D : Dlib}.

Variable hungarian : matrix → list (nat * nat).

(** Lines 221-262 when the solver is not called. *)
Lemma match_faces_skip gray T (trackers : gmap nat tracker)
    (confidences : gmap nat Q) (faces : Face.faces_t) :
  size trackers = 0%nat ∨ length faces = 0%nat →
  match_faces hungarian gray T trackers confidences faces
  = Ok (matching_init trackers faces).
Proof.
  intros Hzero. unfold match_faces, Nt_and_Nf.
  destruct Hzero as [-> | ->]; simpl; [done|].
  by rewrite andb_false_r.
Qed.

(** Lines 221-262 on the answer of a solver. *)
Lemma match_faces_ok gray T (trackers : gmap nat tracker)
    (confidences : gmap nat Q) (faces : Face.faces_t) :
  (∀ cost, is_assignment (hungarian cost)) →
  dom trackers ⊆ dom confidences →
  ∃ m mapping,
    match_faces hungarian gray T trackers confidences faces = Ok m ∧
    is_assignment mapping ∧
    loop_inv T trackers confidences faces mapping m.
Proof.
  intros Hsolver Hknown.
  destruct (decide (size trackers = 0%nat ∨ length faces = 0%nat))
    as [Hzero|Hsome].
  - exists (matching_init trackers faces), [].
    split; [by apply match_faces_skip|].
    split; [split; constructor|]. apply loop_inv_init.
  - destruct (match_faces_solver hungarian gray T trackers confidences faces)
      as (areas & top & _ & _ & Hentry & _ & _ & _ & ->); [lia|lia|].
    destruct (match_loop_ok gray T trackers confidences faces areas)
      with (mapping := hungarian (np_rsub top areas))
      as (m & Hm & Hinv); [|done|done|].
    + intros t f Ht Hf. apply Hentry; lia.
    + by exists m, (hungarian (np_rsub top areas)).
Qed.

(** What the loop leaves, whatever the pairs were. *)
Lemma loop_inv_matched_live T (trackers : gmap nat tracker)
    (confidences : gmap nat Q) (faces : Face.faces_t)
    (mapping : list (nat * nat)) m i :
  loop_inv T trackers confidences faces mapping m →
  i ∈ o_identifier <$> m_out m → i ∈ dom trackers.
Proof.
  intros Hinv Hi. rewrite (inv_out _ _ _ _ _ _ Hinv) in Hi.
  apply matched_rows in Hi as (p & tracker & _ & _ & Hrow).
  apply elem_of_dom. rewrite (row_lookup _ _ _ _ Hrow). by eexists.
Qed.

Lemma loop_inv_matched_NoDup T (trackers : gmap nat tracker)
    (confidences : gmap nat Q) (faces : Face.faces_t)
    (mapping : list (nat * nat)) m :
  is_assignment mapping →
  loop_inv T trackers confidences faces mapping m →
  NoDup (o_identifier <$> m_out m).
Proof.
  intros [Hrows _] Hinv. rewrite (inv_out _ _ _ _ _ _ Hinv).
  by apply matched_identifiers_NoDup.
Qed.

Lemma loop_inv_unmatched_live T (trackers : gmap nat tracker)
    (confidences : gmap nat Q) (faces : Face.faces_t)
    (mapping : list (nat * nat)) m :
  loop_inv T trackers confidences faces mapping m →
  m_unmatched m ⊆ dom trackers.
Proof.
  intros Hinv. rewrite (inv_unmatched _ _ _ _ _ _ Hinv).
  generalize (dom trackers). intros X. set_solver +.
Qed.

Lemma frame_confidences_known (st : state) shot gray :
  dom (frame_trackers st shot gray) ⊆ dom (frame_confidences st shot gray).
Proof.
  unfold frame_trackers, frame_confidences.
  rewrite dom_union_L, !dom_fmap_L.
  generalize (dom (reset_at_shot shot (trackers st) (confidences st)).1).
  intros X. set_solver +.
Qed.

(** The body of the loop over the frames, once the shot generator has
    answered and the matching loop has run. *)
Lemma track_frame_end (st : state) timestamp frame shot shotGenerator' m :
  Shot.send (shotGenerator st) timestamp = Ok (shot, shotGenerator') →
  match_faces hungarian (cvtColor frame) (frame_T st timestamp)
    (frame_trackers st shot (cvtColor frame))
    (frame_confidences st shot (cvtColor frame))
    (frame_faces st timestamp) = Ok m →
  m_unmatched m ⊆ dom (frame_confidences st shot (cvtColor frame)) →
  track_frame hungarian st timestamp frame
  = Ok (frame_end st timestamp shot shotGenerator' (cvtColor frame) m).
Proof.
  intros Hshot Hm Hknown.
  unfold track_frame, frame_end, spawn_all.
  unfold frame_T, frame_faces, frame_trackers, frame_confidences in *.
  rewrite Hshot. simpl.
  destruct (reset_at_shot shot (trackers st) (confidences st))
    as [trackers1 confidences1].
  destruct (Face.send (faceGenerator st) timestamp)
    as [[T faces] faceGenerator'].
  rewrite update_all_spec. simpl in *. rewrite Hm. simpl.
  rewrite coast_loop; [done|].
  match goal with |- context [foldl _ ?s0 (m_faces m)] =>
    destruct (spawn_fold (cvtColor frame) T (m_faces m) s0)
      as (_ & _ & _ & -> & _) end.
  simpl. clear -Hknown. set_solver.
Qed.

End Frame.

(** ** Tracks started by a frame *)

Section Slots.

Context {D : Dlib}.

Variables (T : Q) (trackers : gmap nat tracker) (confidences : gmap nat Q).

Variable faces : Face.faces_t.

(** A slot that still holds a face holds the face of the frame. *)
Lemma loop_inv_slot (done : list (nat * nat)) (m : matching) (f : nat)
    (item : Z * drectangle) :
  loop_inv T trackers confidences faces done m →
  m_faces m !! f = Some (Some item) → faces !! f = Some item.
Proof.
  intros Hinv Hslot.
  destruct (decide (f ∈ done.*2)) as [Hcol|Hcol].
  - apply list_elem_of_fmap in Hcol as (p & -> & Hin).
    rewrite (inv_faces_done _ _ _ _ _ _ Hinv p Hin) in Hslot.
    destruct (accepted (map_to_list trackers) faces p); [done|].
    destruct (faces !! p.2); by simplify_eq/=.
  - rewrite (inv_faces_todo _ _ _ _ _ _ Hinv f Hcol) in Hslot.
    destruct (faces !! f); by simplify_eq/=.
Qed.

End Slots.

Section Started.

Context {D : Dlib}.

Variables (gray : image) (T : Q).

Lemma spawn_identifier (s : spawning) (identifier : Z) (face : drectangle) :
  s_identifier (spawn gray T s (Some (identifier, face)))
  = S (s_identifier s)
  ∧ s_trackers (spawn gray T s (Some (identifier, face)))
      !! S (s_identifier s)
    = Some (updated gray (start_track correlation_tracker gray face))
  ∧ s_confidences (spawn gray T s (Some (identifier, face)))
      !! S (s_identifier s)
    = Some (confidence gray (start_track correlation_tracker gray face)).
Proof.
  unfold spawn, updated, confidence.
  destruct (update (start_track correlation_tracker gray face) gray)
    as [tracker' confidence'].
  cbn. by rewrite !lookup_insert_eq.
Qed.

(** The trackers and the confidences that the loop of lines 264-280
    leaves for the lines it writes. *)
Lemma spawn_fold_started (slots : list (option (Z * drectangle))) :
  ∀ s : spawning,
  Forall (λ line,
            ∃ identifier face,
              Some (identifier, face) ∈ slots
              ∧ line = write_face T (o_identifier line) 0 face
              ∧ s_trackers (foldl (spawn gray T) s slots) !! o_identifier line
                = Some (updated gray
                          (start_track correlation_tracker gray face))
              ∧ s_confidences (foldl (spawn gray T) s slots)
                  !! o_identifier line
                = Some (confidence gray
                          (start_track correlation_tracker gray face)))
    (spawned_lines T (s_identifier s) (faces_left slots)).
Proof.
  induction slots as [|[[identifier face]|] slots IH]; intros s.
  - constructor.
  - unfold faces_left. rewrite omap_cons. cbn [id foldl spawned_lines].
    destruct (spawn_identifier s identifier face) as (Hid & Htr & Hco).
    constructor.
    + exists identifier, face. cbn [write_face o_identifier].
      split; [by left|]. split; [done|].
      destruct (spawn_fold gray T slots
                  (spawn gray T s (Some (identifier, face))))
        as (_ & _ & _ & _ & Hkeep).
      destruct (Hkeep (S (s_identifier s))) as [-> ->]; [lia|done].
    + specialize (IH (spawn gray T s (Some (identifier, face)))).
      rewrite Hid in IH. eapply Forall_impl; [done|].
      intros line (identifier' & face' & Hin & Hrest).
      exists identifier', face'. split; [by right|done].
  - unfold faces_left. rewrite omap_cons. cbn [foldl spawn].
    eapply Forall_impl; [apply IH|].
    intros line (identifier' & face' & Hin & Hrest).
    exists identifier', face'. split; [by right|done].
Qed.

(** The same, face by face: the [k]-th face left starts the track
    whose identifier is [k + 1] above the counter. *)
Lemma spawn_fold_lookup (slots : list (option (Z * drectangle))) :
  ∀ (s : spawning) (k : nat) (item : Z * drectangle),
  faces_left slots !! k = Some item →
  s_trackers (foldl (spawn gray T) s slots) !! (s_identifier s + S k)%nat
  = Some (updated gray (start_track correlation_tracker gray item.2))
  ∧ s_confidences (foldl (spawn gray T) s slots) !! (s_identifier s + S k)%nat
    = Some (confidence gray (start_track correlation_tracker gray item.2)).
Proof.
  induction slots as [|[[identifier face]|] slots IH]; intros s k item.
  - done.
  - unfold faces_left. rewrite omap_cons. cbn [id foldl].
    destruct (spawn_identifier s identifier face) as (Hid & Htr & Hco).
    destruct k as [|k].
    + intros [= <-]. rewrite Nat.add_1_r. cbn [snd].
      destruct (spawn_fold gray T slots
                  (spawn gray T s (Some (identifier, face))))
        as (_ & _ & _ & _ & Hkeep).
      destruct (Hkeep (S (s_identifier s))) as [-> ->]; [lia|done].
    + intros Hitem.
      specialize (IH (spawn gray T s (Some (identifier, face))) k item Hitem).
      rewrite Hid in IH.
      by replace (s_identifier s + S (S k))%nat
        with (S (s_identifier s) + S k)%nat by lia.
  - unfold faces_left. rewrite omap_cons. cbn [foldl spawn]. apply IH.
Qed.

End Started.

(** The tracks that the end of a frame has started, line by line. *)
Lemma frame_end_started {D : Dlib} (st : state) (timestamp : Q)
    (shot : option Q) (shotGenerator' : Shot.gen) (gray : image)
    (mapping : list (nat * nat)) (m : matching) :
  loop_inv (frame_T st timestamp) (frame_trackers st shot gray)
    (frame_confidences st shot gray) (frame_faces st timestamp) mapping m →
  ∀ line,
    line ∈ spawned (frame_end st timestamp shot shotGenerator' gray m).2 →
    ∃ face,
      face ∈ (frame_faces st timestamp).*2
      ∧ line = write_face (frame_T st timestamp) (o_identifier line) 0 face
      ∧ trackers (frame_end st timestamp shot shotGenerator' gray m).1
          !! o_identifier line
        = Some (updated gray (start_track correlation_tracker gray face))
      ∧ confidences (frame_end st timestamp shot shotGenerator' gray m).1
          !! o_identifier line
        = Some (confidence gray (start_track correlation_tracker gray face)).
Proof.
  intros Hinv.
  cbn [frame_end fst snd spawned trackers confidences].
  pose proof (spawn_fold gray (frame_T st timestamp) (m_faces m)
                {| s_trackers := m_trackers m;
                   s_confidences := frame_confidences st shot gray;
                   s_identifier := identifier st; s_out := [] |})
    as (_ & Hout & _).
  pose proof (spawn_fold_started gray (frame_T st timestamp) (m_faces m)
                {| s_trackers := m_trackers m;
                   s_confidences := frame_confidences st shot gray;
                   s_identifier := identifier st; s_out := [] |})
    as Hstarted.
  fold (spawn_all st timestamp shot gray m) in Hout, Hstarted.
  rewrite Hout. cbn [s_out s_identifier app] in *.
  intros line Hline. rewrite Forall_forall in Hstarted.
  destruct (Hstarted line Hline)
    as (identifier' & face & Hin & Heq & Htr & Hco).
  exists face. split_and!; [|done..].
  apply list_elem_of_lookup in Hin as [f Hf].
  apply (loop_inv_slot _ _ _ _ _ _ _ _ Hinv) in Hf.
  apply list_elem_of_fmap. exists (identifier', face). split; [done|].
  by eapply list_elem_of_lookup_2.
Qed.

(** ** Output of a frame *)

Lemma matched_unmatched_permutation (live : gset nat) (ids : list nat) :
  NoDup ids → (∀ i, i ∈ ids → i ∈ live) →
  ids ++ elements (live ∖ list_to_set ids) ≡ₚ elements live.
Proof.
  intros Hnd Hlive. apply NoDup_Permutation.
  - apply NoDup_app. split; [done|]. split; [|apply NoDup_elements].
    intros i Hi. rewrite elem_of_elements, elem_of_difference.
    intros [_ Hni]. apply Hni. by apply elem_of_list_to_set.
  - apply NoDup_elements.
  - intros i.
    rewrite elem_of_app, !elem_of_elements, elem_of_difference,
      elem_of_list_to_set.
    split; [intros [?|[? _]]; auto|].
    intros Hi. destruct (decide (i ∈ ids)); auto.
Qed.

Lemma diagonal_is_assignment (cost : matrix) :
  is_assignment (Still.diagonal cost).
Proof.
  unfold is_assignment, Still.diagonal.
  assert (∀ l : list nat, ((λ i, (i, i)) <$> l).*1 = l
                          ∧ ((λ i, (i, i)) <$> l).*2 = l) as Hproj.
  { induction l as [|i l [IH1 IH2]]; [done|].
    rewrite !fmap_cons, IH1, IH2. done. }
  destruct (Hproj (seq 0 (length cost))) as [-> ->].
  split; apply NoDup_seq.
Qed.

Section Completeness.

Context {D : Dlib}.

Variable hungarian : matrix → list (nat * nat).

(** The summary of a frame on which the rest is built: the frame ends
    normally, and its state and output are those of [frame_end] for a
    state of the matching loop that satisfies [loop_inv]. *)
Lemma track_frame_ok (st : state) timestamp frame shot shotGenerator' :
  (∀ cost, is_assignment (hungarian cost)) →
  Shot.send (shotGenerator st) timestamp = Ok (shot, shotGenerator') →
  ∃ m mapping,
    is_assignment mapping ∧
    loop_inv (frame_T st timestamp) (frame_trackers st shot (cvtColor frame))
      (frame_confidences st shot (cvtColor frame)) (frame_faces st timestamp)
      mapping m ∧
    track_frame hungarian st timestamp frame
    = Ok (frame_end st timestamp shot shotGenerator' (cvtColor frame) m).
Proof.
  intros Hsolver Hshot.
  destruct (match_faces_ok hungarian (cvtColor frame) (frame_T st timestamp)
              (frame_trackers st shot (cvtColor frame))
              (frame_confidences st shot (cvtColor frame))
              (frame_faces st timestamp) Hsolver
              (frame_confidences_known st shot (cvtColor frame)))
    as (m & mapping & Hm & Hassign & Hinv).
  exists m, mapping. split; [done|]. split; [done|].
  apply track_frame_end; [done|done|].
  etrans; [by eapply loop_inv_unmatched_live|].
  apply frame_confidences_known.
Qed.

(** The tracks that pass the test of line 208 are among those of the
    state. *)
Lemma survivors_subseteq (st : state) shot :
  dom (reset_at_shot shot (trackers st) (confidences st)).1
  ⊆ dom (trackers st).
Proof.
  unfold reset_at_shot. destruct (shot_truthy shot); simpl; [|done].
  rewrite dom_empty_L. apply empty_subseteq.
Qed.

(** The identifiers on the lines of a frame. *)
Lemma frame_end_identifiers (st : state) timestamp shot shotGenerator' gray
    mapping m :
  is_assignment mapping →
  loop_inv (frame_T st timestamp) (frame_trackers st shot gray)
    (frame_confidences st shot gray) (frame_faces st timestamp) mapping m →
  let st' := (frame_end st timestamp shot shotGenerator' gray m).1 in
  let o := (frame_end st timestamp shot shotGenerator' gray m).2 in
  let survivors := (reset_at_shot shot (trackers st) (confidences st)).1 in
  let new := seq (S (identifier st)) (identifier st' - identifier st) in
  (identifier st ≤ identifier st')%nat ∧
  o_identifier <$> spawned o = new ∧
  dom (trackers st') = dom survivors ∪ list_to_set new ∧
  o_identifier <$> written o ≡ₚ elements (dom survivors) ++ new.
Proof.
  intros Hassign Hinv. cbv zeta. unfold frame_end. cbn [fst snd].
  cbn [identifier trackers spawned written matched coasting].
  pose proof (spawn_fold gray (frame_T st timestamp) (m_faces m)
                {| s_trackers := m_trackers m;
                   s_confidences := frame_confidences st shot gray;
                   s_identifier := identifier st; s_out := [] |})
    as (Hid & Hout & Htr & Hco & _).
  fold (spawn_all st timestamp shot gray m) in Hid, Hout, Htr, Hco.
  cbn [s_identifier s_out s_trackers s_confidences] in Hid, Hout, Htr, Hco.
  set (s := spawn_all st timestamp shot gray m) in *.
  set (n := length (faces_left (m_faces m))) in *.
  replace (s_identifier s - identifier st)%nat with n by lia.
  assert (dom (frame_trackers st shot gray)
          = dom (reset_at_shot shot (trackers st) (confidences st)).1)
    as Hlive by (unfold frame_trackers; apply dom_fmap_L).
  split; [lia|].
  split. { rewrite Hout. simpl. apply spawned_lines_identifiers. }
  split. { by rewrite Htr, (inv_dom _ _ _ _ _ _ Hinv), Hlive. }
  unfold written. cbn [matched spawned coasting].
  rewrite !fmap_app, Hout. simpl. rewrite spawned_lines_identifiers. fold n.
  rewrite coasting_permutation.
  - rewrite (inv_unmatched _ _ _ _ _ _ Hinv), Hlive.
    rewrite (Permutation_app_comm (seq _ _)), app_assoc.
    apply Permutation_app_tail, matched_unmatched_permutation.
    + by eapply loop_inv_matched_NoDup.
    + intros i Hi. rewrite <-Hlive. by eapply loop_inv_matched_live.
  - rewrite Hco. etrans; [by eapply loop_inv_unmatched_live|].
    etrans; [apply frame_confidences_known|]. apply union_subseteq_l.
  - rewrite Htr, (inv_dom _ _ _ _ _ _ Hinv).
    etrans; [by eapply loop_inv_unmatched_live|]. apply union_subseteq_l.
Qed.

(** The identifiers of the live tracks stay below the counter. *)
Lemma track_frame_well_formed (st st' : state) timestamp frame o :
  (∀ cost, is_assignment (hungarian cost)) →
  well_formed st →
  track_frame hungarian st timestamp frame = Ok (st', o) →
  well_formed st'.
Proof.
  intros Hsolver Hwf Hframe.
  destruct (Shot.send (shotGenerator st) timestamp) as [[shot sg]|e] eqn:Hshot.
  2:{ unfold track_frame in Hframe. by rewrite Hshot in Hframe. }
  destruct (track_frame_ok st timestamp frame shot sg Hsolver Hshot)
    as (m & mapping & Hassign & Hinv & Hend).
  destruct (frame_end_identifiers st timestamp shot sg (cvtColor frame)
              mapping m Hassign Hinv) as (Hle & _ & Hdom & _).
  rewrite Hend in Hframe.
  destruct (frame_end st timestamp shot sg (cvtColor frame) m) as [st1 o1].
  injection Hframe as -> ->. simpl in Hle, Hdom.
  intros i. rewrite Hdom, elem_of_union, elem_of_list_to_set, elem_of_seq.
  intros [Hi|Hi]; [|lia].
  apply survivors_subseteq, Hwf in Hi. lia.
Qed.

Lemma track_frames_well_formed frames : ∀ (st : state),
  (∀ cost, is_assignment (hungarian cost)) →
  well_formed st →
  well_formed (track_frames hungarian st frames).1.2.
Proof.
  induction frames as [|[timestamp frame] frames IH]; intros st Hsolver Hwf;
    simpl; [done|].
  destruct (track_frame hungarian st timestamp frame) as [[st1 o]|] eqn:Hf;
    [|done].
  apply track_frame_well_formed in Hf; [|done|done].
  specialize (IH st1 Hsolver Hf).
  by destruct (track_frames hungarian st1 frames) as [[os st2] e].
Qed.

(** So are they in every state that a run of [track] goes through. *)
Lemma track_well_formed frames shot detection :
  (∀ cost, is_assignment (hungarian cost)) →
  well_formed (track hungarian frames shot detection).1.2.
Proof.
  intros Hsolver. apply track_frames_well_formed; [done|].
  intros i Hi. simpl in Hi. by rewrite dom_empty_L in Hi.
Qed.

End Completeness.

(** C5.  A frame for which the shot generator answers is processed to
    its end, and writes one line for every track that passed the test of
    line 208 and one for every track started during the frame, and no
    other: the identifiers on its lines are those of the survivors and
    the new ones, each once, so that there are k + m lines.  The m new
    identifiers are those of the tracks that the frame has started:
    the tracks live when the frame ends are the k survivors and these m,
    k + m in all, and each line of a new track has its tracker, started
    on a face of the frame and updated once, and its confidence in the
    state. *)
Theorem output_completeness {D : Dlib} (hungarian : matrix → list (nat * nat))
    (st : state) (timestamp : Q) (frame : image) (shot : option Q)
    (shotGenerator' : Shot.gen) :
  (∀ cost, is_assignment (hungarian cost)) →
  well_formed st →
  Shot.send (shotGenerator st) timestamp = Ok (shot, shotGenerator') →
  ∃ st' o,
    track_frame hungarian st timestamp frame = Ok (st', o) ∧
    (identifier st ≤ identifier st')%nat ∧
    o_identifier <$> spawned o
    = seq (S (identifier st)) (identifier st' - identifier st) ∧
    length (written o)
    = (size (reset_at_shot shot (trackers st) (confidences st)).1
       + (identifier st' - identifier st))%nat ∧
    o_identifier <$> written o
    ≡ₚ elements (dom (reset_at_shot shot (trackers st) (confidences st)).1)
       ++ seq (S (identifier st)) (identifier st' - identifier st) ∧
    NoDup (o_identifier <$> written o) ∧
    dom (trackers st')
    = dom (reset_at_shot shot (trackers st) (confidences st)).1
      ∪ list_to_set (seq (S (identifier st))
                       (identifier st' - identifier st)) ∧
    size (trackers st')
    = (size (reset_at_shot shot (trackers st) (confidences st)).1
       + (identifier st' - identifier st))%nat ∧
    ∀ line, line ∈ spawned o →
      ∃ face,
        face ∈ (frame_faces st timestamp).*2
        ∧ line = write_face (frame_T st timestamp) (o_identifier line) 0 face
        ∧ trackers st' !! o_identifier line
          = Some (updated (cvtColor frame)
                    (start_track correlation_tracker (cvtColor frame) face))
        ∧ confidences st' !! o_identifier line
          = Some (confidence (cvtColor frame)
                    (start_track correlation_tracker (cvtColor frame) face)).
Proof.
  intros Hsolver Hwf Hshot.
  destruct (track_frame_ok hungarian st timestamp frame shot shotGenerator'
              Hsolver Hshot) as (m & mapping & Hassign & Hinv & Hframe).
  destruct (frame_end_identifiers st timestamp shot shotGenerator'
              (cvtColor frame) mapping m Hassign Hinv)
    as (Hle & Hnew & Hdom & Hperm).
  pose proof (frame_end_started st timestamp shot shotGenerator'
                (cvtColor frame) mapping m Hinv) as Hstarted.
  destruct (frame_end st timestamp shot shotGenerator' (cvtColor frame) m)
    as [st' o]. simpl in Hle, Hnew, Hdom, Hperm, Hstarted.
  assert (NoDup (elements
                   (dom (reset_at_shot shot (trackers st) (confidences st)).1)
                 ++ seq (S (identifier st)) (identifier st' - identifier st)))
    as Hnodup.
  { apply NoDup_app. split; [apply NoDup_elements|].
    split; [|apply NoDup_seq].
    intros i Hi%elem_of_elements Hnewi%elem_of_seq.
    apply survivors_subseteq, Hwf in Hi. lia. }
  exists st', o. split; [done|]. split; [done|]. split; [done|].
  split; [|split; [done|]]; [|split; [|split; [done|split; [|done]]]].
  - rewrite <-(length_fmap o_identifier), Hperm, length_app, length_seq.
    by rewrite <-size_dom.
  - by rewrite Hperm.
  - rewrite <-size_dom, Hdom, size_union.
    + rewrite size_dom, size_list_to_set, length_seq; [done|apply NoDup_seq].
    + intros i Hi Hnewi%elem_of_list_to_set%elem_of_seq.
      apply survivors_subseteq, Hwf in Hi. lia.
Qed.

Lemma busy_well_formed : well_formed Still.busy.
Proof.
  intros i Hi. simpl in *.
  apply elem_of_dom in Hi as [tr Hi].
  destruct (decide (i = 1%nat)) as [->|?]; [lia|].
  destruct (decide (i = 2%nat)) as [->|?]; [lia|].
  rewrite lookup_insert_ne, lookup_singleton_ne in Hi by done. done.
Qed.

Lemma output_completeness_witness :
  ∃ st' o,
    track_frame (D := Still.dlib) Still.diagonal Still.busy 1%Q ()
    = Ok (st', o) ∧
    (2 ≤ identifier st')%nat ∧
    o_identifier <$> spawned o = seq 3 (identifier st' - 2) ∧
    length (written o) = (2 + (identifier st' - 2))%nat ∧
    o_identifier <$> written o ≡ₚ [2; 1]%nat ++ seq 3 (identifier st' - 2) ∧
    NoDup (o_identifier <$> written o) ∧
    dom (trackers st')
    = dom (trackers Still.busy) ∪ list_to_set (seq 3 (identifier st' - 2)) ∧
    size (trackers st') = (2 + (identifier st' - 2))%nat ∧
    ∀ line, line ∈ spawned o →
      ∃ face,
        face ∈ [Still.box 0 0 10 10; Still.box 20 20 30 30]
        ∧ line = write_face 1%Q (o_identifier line) 0 face
        ∧ trackers st' !! o_identifier line = Some face
        ∧ confidences st' !! o_identifier line = Some (1 # 2)%Q.
Proof.
  apply (output_completeness (D := Still.dlib) Still.diagonal Still.busy 1%Q ()
           None (Shot.Waiting 5%Q [])).
  - apply diagonal_is_assignment.
  - apply busy_well_formed.
  - reflexivity.
Defined.

(** ** Tracks between shots *)

Section Coasting.

Context {D : Dlib}.

Lemma reset_at_no_shot shot (trackers : gmap nat tracker)
    (confidences : gmap nat Q) :
  shot_truthy shot = false →
  reset_at_shot shot trackers confidences = (trackers, confidences).
Proof. intros Hshot. unfold reset_at_shot. by rewrite Hshot. Qed.

(** A track left in [unmatched] by the matching loop goes through the
    rest of the frame with the tracker and the confidence that line 219
    gave it, and gets its line from the last loop. *)
Lemma frame_end_coasting (st : state) timestamp shot shotGenerator' gray
    mapping m i tr :
  well_formed st →
  loop_inv (frame_T st timestamp) (frame_trackers st shot gray)
    (frame_confidences st shot gray) (frame_faces st timestamp) mapping m →
  (reset_at_shot shot (trackers st) (confidences st)).1 !! i = Some tr →
  i ∉ o_identifier <$> m_out m →
  let st' := (frame_end st timestamp shot shotGenerator' gray m).1 in
  let o := (frame_end st timestamp shot shotGenerator' gray m).2 in
  trackers st' !! i = Some (updated gray tr) ∧
  confidences st' !! i = Some (confidence gray tr) ∧
  write_face (frame_T st timestamp) i (confidence gray tr)
    (get_position (updated gray tr)) ∈ coasting o.
Proof.
  intros Hwf Hinv Hi Hni. cbv zeta. unfold frame_end. cbn [fst snd].
  cbn [trackers confidences coasting].
  assert (frame_trackers st shot gray !! i = Some (updated gray tr)) as Htr.
  { unfold frame_trackers. by rewrite lookup_fmap, Hi. }
  assert (frame_confidences st shot gray !! i = Some (confidence gray tr))
    as Hco.
  { unfold frame_confidences. apply lookup_union_Some_l.
    by rewrite lookup_fmap, Hi. }
  assert (i ∈ m_unmatched m) as Hun.
  { rewrite (inv_unmatched _ _ _ _ _ _ Hinv). apply elem_of_difference.
    split; [by apply elem_of_dom; eexists|].
    by rewrite elem_of_list_to_set. }
  assert (i ≤ identifier st)%nat as Hle.
  { apply Hwf, survivors_subseteq with (shot := shot).
    apply elem_of_dom. by eexists. }
  pose proof (spawn_fold gray (frame_T st timestamp) (m_faces m)
                {| s_trackers := m_trackers m;
                   s_confidences := frame_confidences st shot gray;
                   s_identifier := identifier st; s_out := [] |})
    as (_ & _ & _ & _ & Hold).
  fold (spawn_all st timestamp shot gray m) in Hold.
  destruct (Hold i Hle) as [Hst Hsc]. cbn [s_trackers s_confidences] in Hst, Hsc.
  rewrite (inv_trackers _ _ _ _ _ _ Hinv i Hun), Htr in Hst.
  rewrite Hco in Hsc.
  split; [done|]. split; [done|].
  apply list_elem_of_omap. exists (i, updated gray tr). split.
  - by apply elem_of_map_to_list.
  - unfold coasting_line. cbn [fst snd].
    rewrite bool_decide_eq_true_2 by done. by rewrite Hsc.
Qed.

End Coasting.



(** ** A shot at 0.0 *)

Lemma float_truthy_zero (T : Q) : (T == 0)%Q → float_truthy T = false.
Proof.
  intros HT. unfold float_truthy. by rewrite (Qeq_eq_bool _ _ HT).
Qed.

Lemma shot_send_next (g : Shot.gen) (timestamp T : Q) (lines : list Q) :
  next_shot g = Some (T, lines) → (T <= timestamp)%Q →
  Shot.send g timestamp = Ok (Some T, Shot.Found lines).
Proof.
  intros Hnext Hle.
  assert (Shot.wait T lines timestamp = (Some T, Shot.Found lines)) as Hwait.
  { unfold Shot.wait, Qgt_bool.
    apply Qle_bool_iff in Hle. by rewrite Hle. }
  destruct g as [[|T' lines']|T' lines'|[|T' lines']]; simpl in *;
    try done; injection Hnext as -> ->; by rewrite Hwait.
Qed.

(** C9.  When the record that the shot generator has in hand is 0.0 and
    the time of the frame has reached it, the generator returns that
    record and moves past it, but the test of line 208 takes it for no
    shot: nothing is reset, the frame goes on, and every track and every
    confidence of the state is still there when it ends. *)
Theorem shot_at_zero_resets_nothing {D : Dlib}
    (hungarian : matrix → list (nat * nat)) (st : state) (timestamp : Q)
    (frame : image) (T : Q) (lines : list Q) :
  (∀ cost, is_assignment (hungarian cost)) →
  next_shot (shotGenerator st) = Some (T, lines) →
  (T == 0)%Q → (0 <= timestamp)%Q →
  Shot.send (shotGenerator st) timestamp = Ok (Some T, Shot.Found lines) ∧
  reset_at_shot (Some T) (trackers st) (confidences st)
  = (trackers st, confidences st) ∧
  ∃ st' o,
    track_frame hungarian st timestamp frame = Ok (st', o) ∧
    shotGenerator st' = Shot.Found lines ∧
    dom (trackers st) ⊆ dom (trackers st') ∧
    dom (confidences st) ⊆ dom (confidences st').
Proof.
  intros Hsolver Hnext HT Ht.
  assert (Shot.send (shotGenerator st) timestamp
          = Ok (Some T, Shot.Found lines)) as Hshot.
  { apply shot_send_next; [done|]. by rewrite HT. }
  assert (shot_truthy (Some T) = false) as Hcut by by apply float_truthy_zero.
  split; [done|]. split; [by apply reset_at_no_shot|].
  destruct (track_frame_ok hungarian st timestamp frame (Some T)
              (Shot.Found lines) Hsolver Hshot)
    as (m & mapping & Hassign & Hinv & Hframe).
  destruct (frame_end_identifiers st timestamp (Some T) (Shot.Found lines)
              (cvtColor frame) mapping m Hassign Hinv)
    as (_ & _ & Hdom & _).
  pose proof (spawn_fold (cvtColor frame) (frame_T st timestamp) (m_faces m)
                {| s_trackers := m_trackers m;
                   s_confidences :=
                     frame_confidences st (Some T) (cvtColor frame);
                   s_identifier := identifier st; s_out := [] |})
    as (_ & _ & _ & Hco & _).
  fold (spawn_all st timestamp (Some T) (cvtColor frame) m) in Hco.
  cbn [s_confidences] in Hco.
  unfold frame_confidences in Hco.
  rewrite (reset_at_no_shot _ _ _ Hcut) in Hdom, Hco.
  rewrite dom_union_L in Hco.
  exists (frame_end st timestamp (Some T) (Shot.Found lines) (cvtColor frame)
            m).1,
         (frame_end st timestamp (Some T) (Shot.Found lines) (cvtColor frame)
            m).2.
  split; [by rewrite Hframe, <-surjective_pairing|].
  split; [done|]. simpl in *. split.
  - rewrite Hdom. apply union_subseteq_l.
  - rewrite Hco. etrans; [|apply union_subseteq_l]. apply union_subseteq_r.
Qed.

Lemma shot_at_zero_resets_nothing_witness :
  let st := {| shotGenerator := Shot.Found [0%Q; 5%Q];
               faceGenerator := faceGenerator Still.busy;
               trackers := trackers Still.busy;
               confidences := confidences Still.busy;
               identifier := 2 |} in
  Shot.send (shotGenerator st) 1%Q = Ok (Some 0%Q, Shot.Found [5%Q]) ∧
  reset_at_shot (Some 0%Q) (trackers st) (confidences st)
  = (trackers st, confidences st) ∧
  ∃ st' o,
    track_frame (D := Still.dlib) Still.diagonal st 1%Q () = Ok (st', o) ∧
    shotGenerator st' = Shot.Found [5%Q] ∧
    dom (trackers st) ⊆ dom (trackers st') ∧
    dom (confidences st) ⊆ dom (confidences st').
Proof.
  intros st.
  apply (shot_at_zero_resets_nothing (D := Still.dlib) Still.diagonal st 1%Q ()
           0%Q [5%Q]).
  - apply diagonal_is_assignment.
  - reflexivity.
  - reflexivity.
  - vm_compute. discriminate.
Defined.

(** ** Frames without matching *)

Lemma faces_left_Some (faces : Face.faces_t) :
  faces_left (Some <$> faces) = faces.
Proof.
  unfold faces_left.
  induction faces as [|face faces IH]; [done|].
  rewrite fmap_cons, omap_cons. simpl. by rewrite IH.
Qed.

Section Skipped.

Context {D : Dlib}.

(** Without tracks or without faces, a frame ends as [frame_end] says
    from the state in which the matching loop would start, whatever the
    solver. *)
Lemma track_frame_skip (hungarian : matrix → list (nat * nat)) (st : state)
    timestamp frame shot shotGenerator' :
  Shot.send (shotGenerator st) timestamp = Ok (shot, shotGenerator') →
  size (reset_at_shot shot (trackers st) (confidences st)).1 = 0%nat
  ∨ length (frame_faces st timestamp) = 0%nat →
  track_frame hungarian st timestamp frame
  = Ok (frame_end st timestamp shot shotGenerator' (cvtColor frame)
          (matching_init (frame_trackers st shot (cvtColor frame))
             (frame_faces st timestamp))).
Proof.
  intros Hshot Hzero. apply track_frame_end; [done| |].
  - apply match_faces_skip. unfold frame_trackers. by rewrite map_size_fmap.
  - apply frame_confidences_known.
Qed.

(** What that end of frame is. *)
Lemma frame_end_skip (st : state) timestamp shot shotGenerator' gray :
  let end_ := frame_end st timestamp shot shotGenerator' gray
                (matching_init (frame_trackers st shot gray)
                   (frame_faces st timestamp)) in
  matched end_.2 = [] ∧
  spawned end_.2
  = spawned_lines (frame_T st timestamp) (identifier st)
      (frame_faces st timestamp) ∧
  identifier end_.1
  = (identifier st + length (frame_faces st timestamp))%nat ∧
  o_identifier <$> coasting end_.2
  ≡ₚ elements (dom (reset_at_shot shot (trackers st) (confidences st)).1).
Proof.
  cbv zeta.
  set (m := matching_init (frame_trackers st shot gray)
              (frame_faces st timestamp)).
  assert (dom (frame_trackers st shot gray)
          = dom (reset_at_shot shot (trackers st) (confidences st)).1)
    as Hlive by (unfold frame_trackers; apply dom_fmap_L).
  pose proof (spawn_fold gray (frame_T st timestamp) (m_faces m)
                {| s_trackers := m_trackers m;
                   s_confidences := frame_confidences st shot gray;
                   s_identifier := identifier st; s_out := [] |})
    as (Hid & Hout & Htr & Hco & _).
  fold (spawn_all st timestamp shot gray m) in Hid, Hout, Htr, Hco.
  unfold m in Hid, Hout, Htr, Hco.
  cbn [s_identifier s_out s_trackers s_confidences matching_init m_faces
       m_trackers] in Hid, Hout, Htr, Hco.
  rewrite faces_left_Some in Hid, Hout, Htr, Hco.
  unfold frame_end. cbn [fst snd matched spawned coasting identifier].
  split; [done|]. split; [done|]. split; [done|].
  rewrite coasting_permutation.
  - unfold m. cbn [matching_init m_unmatched]. by rewrite Hlive.
  - unfold m. cbn [matching_init m_unmatched m_faces m_trackers].
    rewrite Hco. etrans; [apply frame_confidences_known|].
    apply union_subseteq_l.
  - unfold m. cbn [matching_init m_unmatched m_faces m_trackers].
    rewrite Htr. apply union_subseteq_l.
Qed.

End Skipped.

(** C10.  When no track is live after the test of line 208, or the face
    generator returns no face, the test of line 224 fails and the
    matching stage is skipped: for every solver it leaves the trackers
    and the faces as it found them, and the frame ends in the same state
    with the same output, in which no line comes from the matching loop.
    Every face of the frame starts a track, whose tracker and confidence
    are in the state when the frame ends, and every live track has its
    line from the last loop, with the tracker and the confidence that
    the update of line 219 left. *)
Theorem matching_skipped {D : Dlib} (st : state) (timestamp : Q)
    (frame : image) (shot : option Q) (shotGenerator' : Shot.gen) :
  Shot.send (shotGenerator st) timestamp = Ok (shot, shotGenerator') →
  size (reset_at_shot shot (trackers st) (confidences st)).1 = 0%nat
  ∨ length (frame_faces st timestamp) = 0%nat →
  ∃ st' o,
    (∀ hungarian : matrix → list (nat * nat),
       track_frame hungarian st timestamp frame = Ok (st', o)) ∧
    matched o = [] ∧
    spawned o
    = spawned_lines (frame_T st timestamp) (identifier st)
        (frame_faces st timestamp) ∧
    identifier st' = (identifier st + length (frame_faces st timestamp))%nat ∧
    o_identifier <$> coasting o
    ≡ₚ elements (dom (reset_at_shot shot (trackers st) (confidences st)).1) ∧
    Nt_and_Nf (size (frame_trackers st shot (cvtColor frame)))
      (length (frame_faces st timestamp)) = false ∧
    (∀ hungarian : matrix → list (nat * nat),
       match_faces hungarian (cvtColor frame) (frame_T st timestamp)
         (frame_trackers st shot (cvtColor frame))
         (frame_confidences st shot (cvtColor frame))
         (frame_faces st timestamp)
       = Ok (matching_init (frame_trackers st shot (cvtColor frame))
               (frame_faces st timestamp))) ∧
    dom (trackers st')
    = dom (reset_at_shot shot (trackers st) (confidences st)).1
      ∪ list_to_set (seq (S (identifier st))
                       (length (frame_faces st timestamp))) ∧
    (∀ k item,
       frame_faces st timestamp !! k = Some item →
       trackers st' !! (identifier st + S k)%nat
       = Some (updated (cvtColor frame)
                 (start_track correlation_tracker (cvtColor frame) item.2))
       ∧ confidences st' !! (identifier st + S k)%nat
         = Some (confidence (cvtColor frame)
                   (start_track correlation_tracker (cvtColor frame)
                      item.2))) ∧
    (well_formed st →
     ∀ i tr,
       (reset_at_shot shot (trackers st) (confidences st)).1 !! i = Some tr →
       trackers st' !! i = Some (updated (cvtColor frame) tr)
       ∧ confidences st' !! i = Some (confidence (cvtColor frame) tr)
       ∧ write_face (frame_T st timestamp) i (confidence (cvtColor frame) tr)
           (get_position (updated (cvtColor frame) tr)) ∈ coasting o).
Proof.
  intros Hshot Hzero.
  pose proof (frame_end_skip st timestamp shot shotGenerator'
                (cvtColor frame)) as Hend.
  cbv zeta in Hend.
  assert (size (frame_trackers st shot (cvtColor frame)) = 0%nat
          ∨ length (frame_faces st timestamp) = 0%nat) as Hzero'.
  { unfold frame_trackers. by rewrite map_size_fmap. }
  assert (loop_inv (frame_T st timestamp)
            (frame_trackers st shot (cvtColor frame))
            (frame_confidences st shot (cvtColor frame))
            (frame_faces st timestamp) []
            (matching_init (frame_trackers st shot (cvtColor frame))
               (frame_faces st timestamp))) as Hinv by apply loop_inv_init.
  destruct (frame_end_identifiers st timestamp shot shotGenerator'
              (cvtColor frame) []
              (matching_init (frame_trackers st shot (cvtColor frame))
                 (frame_faces st timestamp)))
    as (_ & _ & Hdom & _); [split; constructor|done|].
  pose proof (λ i tr Hwf Hi,
                frame_end_coasting st timestamp shot shotGenerator'
                  (cvtColor frame) [] _ i tr Hwf Hinv Hi
                  (not_elem_of_nil i)) as Hcoast.
  pose proof (spawn_fold_lookup (cvtColor frame) (frame_T st timestamp)
                (Some <$> frame_faces st timestamp)
                {| s_trackers := frame_trackers st shot (cvtColor frame);
                   s_confidences :=
                     frame_confidences st shot (cvtColor frame);
                   s_identifier := identifier st; s_out := [] |}) as Hnew.
  rewrite faces_left_Some in Hnew. cbn [s_identifier] in Hnew.
  change (foldl _ _ _)
    with (spawn_all st timestamp shot (cvtColor frame)
            (matching_init (frame_trackers st shot (cvtColor frame))
               (frame_faces st timestamp))) in Hnew.
  cbn [fst snd] in Hdom, Hcoast.
  assert (trackers
            (frame_end st timestamp shot shotGenerator' (cvtColor frame)
               (matching_init (frame_trackers st shot (cvtColor frame))
                  (frame_faces st timestamp))).1
          = s_trackers
              (spawn_all st timestamp shot (cvtColor frame)
                 (matching_init (frame_trackers st shot (cvtColor frame))
                    (frame_faces st timestamp)))) as Htr by done.
  assert (confidences
            (frame_end st timestamp shot shotGenerator' (cvtColor frame)
               (matching_init (frame_trackers st shot (cvtColor frame))
                  (frame_faces st timestamp))).1
          = s_confidences
              (spawn_all st timestamp shot (cvtColor frame)
                 (matching_init (frame_trackers st shot (cvtColor frame))
                    (frame_faces st timestamp)))) as Hco by done.
  rewrite <-Htr, <-Hco in Hnew.
  destruct (frame_end st timestamp shot shotGenerator' (cvtColor frame) _)
    as [st' o] eqn:Heq.
  cbn [fst snd] in *.
  destruct Hend as (Hmatched & Hspawned & Hid & Hperm).
  exists st', o. split.
  { intros hungarian. rewrite <-Heq. by apply track_frame_skip. }
  split_and!; [done|done|done|done| | | |done|].
  - destruct Hzero' as [->| ->]; [done|].
    unfold Nt_and_Nf. apply andb_false_r.
  - intros hungarian. by apply match_faces_skip.
  - rewrite Hdom, Hid. do 3 f_equal. lia.
  - intros Hwf i tr Hi. by apply Hcoast.
Qed.

Section SkippedExample.

#[local] Existing Instance Still.dlib.

Lemma matching_skipped_witness :
  (∃ st' o,
     (∀ hungarian : matrix → list (nat * nat),
        track_frame hungarian Still2.fresh 1%Q () = Ok (st', o)) ∧
     matched o = [] ∧
     spawned o
     = [write_face 1%Q 1 0 (Still.box 0 0 10 10);
        write_face 1%Q 2 0 (Still.box 20 20 30 30)] ∧
     identifier st' = 2%nat ∧
     o_identifier <$> coasting o ≡ₚ [] ∧
     Nt_and_Nf 0 2 = false ∧
     (∀ hungarian : matrix → list (nat * nat),
        match_faces hungarian () 1%Q ∅ ∅
          [(1%Z, Still.box 0 0 10 10); (2%Z, Still.box 20 20 30 30)]
        = Ok (matching_init ∅
                [(1%Z, Still.box 0 0 10 10); (2%Z, Still.box 20 20 30 30)])) ∧
     dom (trackers st') = ∅ ∪ list_to_set (seq 1 2) ∧
     (∀ k item,
        [(1%Z, Still.box 0 0 10 10); (2%Z, Still.box 20 20 30 30)] !! k
        = Some item →
        trackers st' !! (0 + S k)%nat = Some item.2
        ∧ confidences st' !! (0 + S k)%nat = Some (1 # 2)%Q) ∧
     (well_formed Still2.fresh →
      ∀ i tr,
        (∅ : gmap nat drectangle) !! i = Some tr →
        trackers st' !! i = Some tr
        ∧ confidences st' !! i = Some (1 # 2)%Q
        ∧ write_face 1%Q i (1 # 2)%Q tr ∈ coasting o))
  ∧
  (∃ st' o,
     (∀ hungarian : matrix → list (nat * nat),
        track_frame hungarian Still.busy 0%Q () = Ok (st', o)) ∧
     matched o = [] ∧
     spawned o = [] ∧
     identifier st' = 2%nat ∧
     o_identifier <$> coasting o ≡ₚ [2; 1]%nat ∧
     Nt_and_Nf 2 0 = false ∧
     (∀ hungarian : matrix → list (nat * nat),
        match_faces hungarian () 0%Q (trackers Still.busy)
          (confidences Still.busy) []
        = Ok (matching_init (trackers Still.busy) [])) ∧
     dom (trackers st') = dom (trackers Still.busy) ∪ list_to_set (seq 3 0) ∧
     (∀ k (item : Z * drectangle),
        [] !! k = Some item →
        trackers st' !! (2 + S k)%nat = Some item.2
        ∧ confidences st' !! (2 + S k)%nat = Some (1 # 2)%Q) ∧
     (well_formed Still.busy →
      ∀ i tr,
        trackers Still.busy !! i = Some tr →
        trackers st' !! i = Some tr
        ∧ confidences st' !! i = Some (1 # 2)%Q
        ∧ write_face 0%Q i (1 # 2)%Q tr ∈ coasting o)).
Proof.
  split.
  - apply (matching_skipped Still2.fresh 1%Q () None (Shot.Waiting 5%Q [])).
    + reflexivity.
    + left. reflexivity.
  - apply (matching_skipped Still.busy 0%Q () None (Shot.Waiting 5%Q [])).
    + reflexivity.
    + right. reflexivity.
Defined.

End SkippedExample.

(** A shot that line 208 takes for one leaves no track for the matching
    loop, so the frame only starts tracks: one for each face, written
    with the confidence 0.000. *)
Lemma shot_cut_reset {D : Dlib} (st : state) (timestamp : Q) (frame : image)
    (shot : option Q) (shotGenerator' : Shot.gen) :
  Shot.send (shotGenerator st) timestamp = Ok (shot, shotGenerator') →
  shot_truthy shot = true →
  reset_at_shot shot (trackers st) (confidences st) = (∅, ∅) ∧
  ∃ st' o,
    (∀ hungarian : matrix → list (nat * nat),
       track_frame hungarian st timestamp frame = Ok (st', o)) ∧
    matched o = [] ∧ coasting o = [] ∧
    spawned o
    = spawned_lines (frame_T st timestamp) (identifier st)
        (frame_faces st timestamp) ∧
    Forall (λ line, o_confidence line = 0%Q) (spawned o).
Proof.
  intros Hshot Hcut.
  assert (reset_at_shot shot (trackers st) (confidences st) = (∅, ∅)) as Hreset
    by (unfold reset_at_shot; by rewrite Hcut).
  split; [done|].
  pose proof (frame_end_skip st timestamp shot shotGenerator'
                (cvtColor frame)) as Hend.
  cbv zeta in Hend.
  destruct (frame_end st timestamp shot shotGenerator' (cvtColor frame) _)
    as [st' o] eqn:Heq.
  destruct Hend as (Hmatched & Hspawned & _ & Hcoast).
  exists st', o. split.
  { intros hungarian. rewrite <-Heq. apply track_frame_skip; [done|].
    left. by rewrite Hreset. }
  split; [done|].
  rewrite Hreset in Hcoast. simpl in Hcoast.
  rewrite dom_empty_L, elements_empty in Hcoast.
  apply Permutation_nil_r, fmap_nil_inv in Hcoast.
  split; [done|]. split; [done|].
  simpl in Hspawned. rewrite Hspawned.
  eapply Forall_impl; [apply spawned_lines_confidence|].
  by intros line [_ ?].
Qed.

(** ** Identifiers *)

Section Identifiers.

Context {D : Dlib}.

Variable hungarian : matrix → list (nat * nat).

(** Whatever happens in a frame that ends normally, the tracks it starts
    take the identifiers that follow the counter. *)
Lemma track_frame_identifiers (st st' : state) timestamp frame o :
  track_frame hungarian st timestamp frame = Ok (st', o) →
  (identifier st ≤ identifier st')%nat ∧
  o_identifier <$> spawned o
  = seq (S (identifier st)) (identifier st' - identifier st).
Proof.
  unfold track_frame.
  destruct (Shot.send (shotGenerator st) timestamp) as [[shot sg]|]; [|done].
  simpl.
  destruct (reset_at_shot shot (trackers st) (confidences st))
    as [trackers1 confidences1].
  destruct (Face.send (faceGenerator st) timestamp) as [[T faces] fg].
  destruct (update_all (cvtColor frame) trackers1 confidences1)
    as [trackers2 confidences2].
  destruct (match_faces _ _ _ _ _ _) as [m|]; [|done]. simpl.
  match goal with |- context [foldl _ ?s0 (m_faces m)] =>
    pose proof (spawn_fold (cvtColor frame) T (m_faces m) s0)
      as (Hid & Hout & _);
    set (s := foldl (spawn (cvtColor frame) T) s0 (m_faces m)) in * end.
  destruct (for_each _ _ _) as [coasted|]; [|done]. simpl.
  intros [= <- <-]. simpl in *.
  split; [lia|].
  rewrite Hout, Hid. simpl. rewrite spawned_lines_identifiers.
  f_equal. lia.
Qed.

Lemma created_cons (o : frame_output) (os : list frame_output) :
  created (o :: os) = (o_identifier <$> spawned o) ++ created os.
Proof. unfold created. simpl. by rewrite fmap_app. Qed.

Lemma track_frames_identifiers frames : ∀ (st : state),
  (identifier st ≤ identifier (track_frames hungarian st frames).1.2)%nat ∧
  created (track_frames hungarian st frames).1.1
  = seq (S (identifier st))
      (identifier (track_frames hungarian st frames).1.2 - identifier st).
Proof.
  induction frames as [|[timestamp frame] frames IH]; intros st; simpl.
  - split; [done|]. by rewrite Nat.sub_diag.
  - destruct (track_frame hungarian st timestamp frame) as [[st1 o]|] eqn:Hf;
      simpl.
    2:{ split; [done|]. by rewrite Nat.sub_diag. }
    apply track_frame_identifiers in Hf as [Hle Hnew].
    destruct (IH st1) as [Hle1 Hnew1].
    destruct (track_frames hungarian st1 frames) as [[os st2] e].
    cbn [fst snd] in *. split; [lia|].
    rewrite created_cons, Hnew, Hnew1.
    replace (S (identifier st1))
      with (S (identifier st) + (identifier st1 - identifier st))%nat by lia.
    rewrite <-seq_app. f_equal. lia.
Qed.

(** The frames processed before a point of a run and the state reached
    there are those of the run cut at that point, unless it had already
    stopped. *)
Lemma track_frames_app frames1 frames2 : ∀ (st : state),
  (identifier (track_frames hungarian st frames1).1.2
   ≤ identifier (track_frames hungarian st (frames1 ++ frames2)).1.2)%nat.
Proof.
  induction frames1 as [|[timestamp frame] frames1 IH]; intros st; simpl.
  - apply track_frames_identifiers.
  - destruct (track_frame hungarian st timestamp frame) as [[st1 o]|];
      [|done].
    specialize (IH st1).
    destruct (track_frames hungarian st1 frames1) as [[os1 st2] e1].
    destruct (track_frames hungarian st1 (frames1 ++ frames2))
      as [[os2 st3] e2].
    done.
Qed.

End Identifiers.

(** C6.  Over a whole run, whatever the frames, the shots and the
    detections, the tracks are given the identifiers 1, 2, 3, ... in the
    order in which they are started, the last one given being the value
    of the counter: no identifier is given twice, each is above those
    given before, and the counter does not go down when the run goes on
    with more frames, be there shots or not. *)
Theorem identifiers_unique_increasing {D : Dlib}
    (hungarian : matrix → list (nat * nat)) (frames later : list (Q * image))
    (shot : list Q) (detection : list face_line) :
  created (track hungarian frames shot detection).1.1
  = seq 1 (identifier (track hungarian frames shot detection).1.2) ∧
  NoDup (created (track hungarian frames shot detection).1.1) ∧
  StronglySorted lt (created (track hungarian frames shot detection).1.1) ∧
  (identifier (track hungarian frames shot detection).1.2
   ≤ identifier (track hungarian (frames ++ later) shot detection).1.2)%nat.
Proof.
  unfold track.
  destruct (track_frames_identifiers hungarian frames
              (track_init shot detection)) as [_ Hnew].
  simpl in Hnew. rewrite Nat.sub_0_r in Hnew. rewrite Hnew.
  split; [done|]. split; [apply NoDup_seq|]. split.
  - generalize 1%nat
      (identifier (track_frames hungarian (track_init shot detection)
                     frames).1.2).
    intros a n. revert a.
    induction n as [|n IH]; intros a; simpl; constructor; [apply IH|].
    apply Forall_forall. intros i Hi%elem_of_seq. lia.
  - apply track_frames_app.
Qed.

(** ** The acceptance rule *)

Section Acceptance.

Context {D : Dlib}.

Lemma Qgt_bool_iff (x y : Q) : Qgt_bool x y = true ↔ (y < x)%Q.
Proof.
  unfold Qgt_bool. rewrite negb_true_iff. split.
  - intros Hle. apply Qnot_le_lt. intros Hxy%Qle_bool_iff. congruence.
  - intros Hlt. destruct (Qle_bool x y) eqn:Hle; [|done].
    apply Qle_bool_iff in Hle. by apply Qlt_not_le in Hlt.
Qed.

(** The test of line 253 is the rule of the specification. *)
Lemma accepted_iff (trackers_ : list (nat * tracker)) (faces : Face.faces_t)
    (t f : nat) :
  accepted trackers_ faces (t, f) = true ↔ overlap_rule trackers_ faces t f.
Proof.
  unfold accepted, overlap_rule, enough_overlap. simpl. split.
  - destruct (trackers_ !! t) as [[i tr]|] eqn:Htr; [|done].
    destruct (faces !! f) as [[identifier face]|] eqn:Hfa; [|done].
    intros Hor%orb_true_iff.
    split; [by eapply lookup_lt_Some|]. split; [by eapply lookup_lt_Some|].
    exists i, tr, identifier, face. split; [done|]. split; [done|].
    destruct Hor as [?%Qgt_bool_iff|?%Qgt_bool_iff]; auto.
  - intros (_ & _ & i & tr & identifier & face & -> & -> & Hor).
    apply orb_true_iff.
    destruct Hor as [?%Qgt_bool_iff|?%Qgt_bool_iff]; auto.
Qed.

Lemma assignment_row (mapping : list (nat * nat)) t f f' :
  NoDup mapping.*1 → (t, f) ∈ mapping → (t, f') ∈ mapping → f = f'.
Proof.
  intros Hnd (k & Hk)%list_elem_of_lookup (k' & Hk')%list_elem_of_lookup.
  assert (k = k') as ->.
  { apply (NoDup_lookup mapping.*1 k k' t Hnd);
      rewrite list_lookup_fmap; [by rewrite Hk|by rewrite Hk']. }
  congruence.
Qed.

(** After the loop, a tracker is out of [unmatched] exactly when the
    pair of its row was accepted. *)
Lemma loop_inv_unmatched T (trackers : gmap nat tracker)
    (confidences : gmap nat Q) (faces : Face.faces_t)
    (mapping : list (nat * nat)) m t f i tr :
  dom trackers ⊆ dom confidences →
  is_assignment mapping →
  loop_inv T trackers confidences faces mapping m →
  (t, f) ∈ mapping →
  map_to_list trackers !! t = Some (i, tr) →
  i ∉ m_unmatched m ↔ accepted (map_to_list trackers) faces (t, f) = true.
Proof.
  intros Hknown [Hrows _] Hinv Hin Htr.
  assert (i ∈ dom trackers) as Hlive.
  { apply elem_of_dom. rewrite (row_lookup _ _ _ _ Htr). by eexists. }
  rewrite (inv_unmatched _ _ _ _ _ _ Hinv), elem_of_difference,
    elem_of_list_to_set, (inv_out _ _ _ _ _ _ Hinv).
  split.
  - intros Hni.
    destruct (decide (i ∈ o_identifier
                        <$> omap (matched_line T confidences
                                    (map_to_list trackers) faces) mapping))
      as [Hi|Hi]; [|by destruct Hni].
    apply matched_rows in Hi as ([t' f'] & tr' & Hin' & Hacc & Hrow').
    simpl in Hrow'.
    assert (t' = t) as -> by by eapply row_of_identifier.
    by rewrite (assignment_row mapping t f f' Hrows Hin Hin').
  - intros Hacc [_ Hni]. apply Hni.
    apply list_elem_of_fmap.
    assert (is_Some (confidences !! i)) as [c Hc]
      by by apply elem_of_dom, Hknown.
    apply accepted_iff in Hacc as Hrule.
    destruct Hrule as (_ & _ & i' & tr' & identifier & face & Htr' & Hfa & _).
    exists (write_face T i c face). split; [done|].
    apply list_elem_of_omap. exists (t, f). split; [done|].
    unfold matched_line. rewrite Hacc. simpl. rewrite Htr. simpl.
    rewrite Hfa. simpl. by rewrite Hc.
Qed.

End Acceptance.

(** C3.  With tracks and faces to match, the matching loop ends
    normally on the answer of the solver, and for every pair (t, f) of
    that answer the pair is accepted (the face is marked as matched and
    the tracker leaves [unmatched]) exactly when t and f stand for a
    tracker and a face and 2A > Fa or 2A > Ta, strictly.  A pair that is
    not accepted, a pair with a row or a column added to square the
    array among them, leaves the face as it was and the tracker in
    [unmatched]. *)
Theorem acceptance_rule {D : Dlib} (hungarian : matrix → list (nat * nat))
    (gray : image) (T : Q) (trackers : gmap nat tracker)
    (confidences : gmap nat Q) (faces : Face.faces_t) :
  (0 < size trackers)%nat → (0 < length faces)%nat →
  (∀ cost, is_assignment (hungarian cost)) →
  dom trackers ⊆ dom confidences →
  ∃ (areas cost : matrix) (m : matching),
    intersections (Nat.max (size trackers) (length faces))
      (map_to_list trackers) faces = Ok areas ∧
    cost_matrix areas = Ok cost ∧
    match_faces hungarian gray T trackers confidences faces = Ok m ∧
    ∀ t f, (t, f) ∈ hungarian cost →
      (pair_matched m (map_to_list trackers) t f
       ↔ overlap_rule (map_to_list trackers) faces t f) ∧
      (¬ overlap_rule (map_to_list trackers) faces t f →
       m_faces m !! f = Some <$> faces !! f ∧
       ∀ i tr, map_to_list trackers !! t = Some (i, tr) → i ∈ m_unmatched m) ∧
      (∀ i tr identifier face,
         map_to_list trackers !! t = Some (i, tr) →
         faces !! f = Some (identifier, face) →
         (2 * area (intersect (get_position tr) face) == area face)%Q →
         (2 * area (intersect (get_position tr) face)
          <= area (get_position tr))%Q →
         ¬ pair_matched m (map_to_list trackers) t f).
Proof.
  intros HNt HNf Hsolver Hknown.
  destruct (match_faces_solver hungarian gray T trackers confidences faces
              HNt HNf)
    as (areas & top & Hareas & _ & Hentry & _ & _ & Hcost & Hmatch).
  set (cost := np_rsub top areas) in *.
  destruct (match_loop_ok gray T trackers confidences faces areas)
    with (mapping := hungarian cost) as (m & Hm & Hinv); [|done|done|].
  { intros t f Ht Hf. apply Hentry; lia. }
  exists areas, cost, m. split; [done|]. split; [done|].
  split; [by rewrite Hmatch|].
  intros t f Hin.
  pose proof (inv_faces_done _ _ _ _ _ _ Hinv (t, f) Hin) as Hface.
  simpl in Hface.
  pose proof (loop_inv_unmatched T trackers confidences faces (hungarian cost)
                m t f) as Hun.
  assert (pair_matched m (map_to_list trackers) t f
          → overlap_rule (map_to_list trackers) faces t f) as Hrule.
  { intros [Hnone _]. apply accepted_iff.
    destruct (accepted _ _ (t, f)); [done|].
    rewrite Hnone in Hface. by destruct (faces !! f). }
  split; [split; [done|]|split].
  - clear Hrule. intros Hrule. pose proof Hrule as Hacc%accepted_iff.
    rewrite Hacc in Hface. split; [done|].
    destruct Hrule as (_ & _ & i & tr & _ & _ & Htr & _ & _).
    exists i, tr. split; [done|].
    by apply (Hun i tr Hknown (Hsolver _) Hinv Hin Htr).
  - intros Hnot.
    assert (accepted (map_to_list trackers) faces (t, f) = false) as Hacc.
    { destruct (accepted _ _ (t, f)) eqn:Hacc; [|done].
      by apply accepted_iff in Hacc. }
    rewrite Hacc in Hface. split; [done|].
    intros i tr Htr.
    destruct (decide (i ∈ m_unmatched m)) as [|Hni]; [done|].
    apply (Hun i tr Hknown (Hsolver _) Hinv Hin Htr) in Hni. congruence.
  - intros i tr identifier face Htr Hfa Heq Hle Hmatched.
    apply Hrule in Hmatched
      as (_ & _ & i' & tr' & identifier' & face' & Htr' & Hfa' & Hor).
    rewrite Htr in Htr'. rewrite Hfa in Hfa'.
    injection Htr' as <- <-. injection Hfa' as <- <-.
    destruct Hor as [Hlt|Hlt].
    + rewrite Heq in Hlt. by apply Qlt_irrefl in Hlt.
    + by apply Qlt_not_le in Hlt.
Qed.

Section AcceptanceExample.

#[local] Existing Instance Still.dlib.

Lemma acceptance_rule_witness :
  ∃ (areas cost : matrix) (m : matching),
    intersections (D := Still.dlib) 2
      (map_to_list (trackers Still.busy))
      [(1%Z, Still.box 0 0 10 10); (2%Z, Still.box 20 20 30 30)] = Ok areas ∧
    cost_matrix areas = Ok cost ∧
    match_faces Still.diagonal () 1%Q (trackers Still.busy)
      (confidences Still.busy)
      [(1%Z, Still.box 0 0 10 10); (2%Z, Still.box 20 20 30 30)] = Ok m ∧
    ∀ t f, (t, f) ∈ Still.diagonal cost →
      (pair_matched m (map_to_list (trackers Still.busy)) t f
       ↔ overlap_rule (map_to_list (trackers Still.busy))
           [(1%Z, Still.box 0 0 10 10); (2%Z, Still.box 20 20 30 30)] t f) ∧
      (¬ overlap_rule (map_to_list (trackers Still.busy))
           [(1%Z, Still.box 0 0 10 10); (2%Z, Still.box 20 20 30 30)] t f →
       m_faces m !! f
       = Some <$> [(1%Z, Still.box 0 0 10 10); (2%Z, Still.box 20 20 30 30)]
                  !! f ∧
       ∀ i tr, map_to_list (trackers Still.busy) !! t = Some (i, tr) →
               i ∈ m_unmatched m) ∧
      (∀ i tr identifier face,
         map_to_list (trackers Still.busy) !! t = Some (i, tr) →
         [(1%Z, Still.box 0 0 10 10); (2%Z, Still.box 20 20 30 30)] !! f
         = Some (identifier, face) →
         (2 * area (intersect (get_position tr) face) == area face)%Q →
         (2 * area (intersect (get_position tr) face)
          <= area (get_position tr))%Q →
         ¬ pair_matched m (map_to_list (trackers Still.busy)) t f).
Proof.
  apply (acceptance_rule (D := Still.dlib) Still.diagonal () 1%Q
           (trackers Still.busy) (confidences Still.busy)
           [(1%Z, Still.box 0 0 10 10); (2%Z, Still.box 20 20 30 30)]).
  - vm_compute. lia.
  - simpl. lia.
  - apply diagonal_is_assignment.
  - apply (bool_decide_unpack _). vm_compute. exact I.
Defined.

End AcceptanceExample.

(** ** A shot at 0.0 with tracks live *)

(** C7, on a shot file with the lines 0.0 and 0.0, detections at 0.0 and
    1.0 and frames at 0.0 and 0.5.  The first frame is given the first
    shot and starts track 1 on the detection at 0.0.  The second frame
    is given the second shot, a cut at 0.0, and yet track 1 and its
    confidence are still there when that frame ends: its only line is
    the one of track 1, written by the last loop with the confidence of
    the tracker. *)
Theorem shot_at_zero_keeps_tracks :
  let shot := [0%Q; 0%Q] in
  let detection :=
    [(0%Q, 1%Z, Still.box 0 0 10 10); (1%Q, 2%Z, Still.box 20 20 30 30)] in
  let run :=
    track (D := Still.dlib) Still.diagonal (Still.frames [0%Q; (1 # 2)%Q])
      shot detection in
  (Shot.sends (Shot.getShotGenerator shot) [0%Q; (1 # 2)%Q]).1
  = [Ok (Some 0%Q); Ok (Some 0%Q)] ∧
  written <$> run.1.1
  = [[write_face 0 1 0 (Still.box 0 0 10 10)];
     [write_face (1 # 2) 1 (1 # 2) (Still.box 0 0 10 10)]] ∧
  map_to_list (trackers run.1.2) = [(1%nat, Still.box 0 0 10 10)] ∧
  map_to_list (confidences run.1.2) = [(1%nat, (1 # 2)%Q)] ∧
  run.2 = None.
Proof. vm_compute. repeat split. Qed.

(** * Further properties *)

(** ** The command line *)

Lemma float_of_SMALLEST_DEFAULT :
  float_of_int SMALLEST_DEFAULT = S754_finite false 5066549580791808 (-47).
Proof. reflexivity. Qed.

(** The doubles nearest to 0.015 and to 1e-320. *)
Lemma upscale_rounds :
  upscale_of (S754_finite false 8646911284551352 (-59)) = Done 2400%Z.
Proof. vm_compute. reflexivity. Qed.

Lemma upscale_overflows :
  upscale_of (S754_finite false 2024 (-1074)) = Fails OverflowError.
Proof. vm_compute. reflexivity. Qed.

Section Rounding.

Variables prec emax : Z.

Lemma shr_1_nonneg (mrs : shr_record) :
  (0 ≤ shr_m mrs)%Z → (0 ≤ shr_m (shr_1 mrs))%Z.
Proof. destruct mrs as [[|[p|p|]|p] r s]; cbn; lia. Qed.

Lemma iter_pos_shr_1_nonneg (p : positive) : ∀ mrs : shr_record,
  (0 ≤ shr_m mrs)%Z → (0 ≤ shr_m (SpecFloat.iter_pos shr_1 p mrs))%Z.
Proof.
  induction p as [p IH|p IH|]; intros mrs Hm; cbn [SpecFloat.iter_pos].
  - by apply IH, IH, shr_1_nonneg.
  - by apply IH, IH.
  - by apply shr_1_nonneg.
Qed.

Lemma shr_fexp_nonneg (m e : Z) (l : location) :
  (0 ≤ m)%Z → (0 ≤ shr_m (shr_fexp prec emax m e l).1)%Z.
Proof.
  intros Hm. unfold shr_fexp, shr.
  assert (0 ≤ shr_m (shr_record_of_loc m l))%Z as Hrec
    by by destruct l as [|[]].
  destruct (_ - e)%Z as [|p|p]; cbn [fst]; [done| |done].
  by apply iter_pos_shr_1_nonneg.
Qed.

Lemma round_nearest_even_nonneg (m : Z) (l : location) :
  (0 ≤ m)%Z → (0 ≤ round_nearest_even m l)%Z.
Proof.
  intros Hm. destruct l as [|[]]; cbn; [done| |done|lia].
  destruct (Z.even m); lia.
Qed.

(** Rounding a mantissa that is not negative gives a zero, a finite
    number or an infinity of the sign asked for, never a NaN. *)
Lemma binary_round_aux_sign (sx : bool) (mx ex : Z) (lx : location) :
  (0 ≤ mx)%Z →
  binary_round_aux prec emax sx mx ex lx = S754_zero sx
  ∨ binary_round_aux prec emax sx mx ex lx = S754_infinity sx
  ∨ ∃ m e, binary_round_aux prec emax sx mx ex lx = S754_finite sx m e.
Proof.
  intros Hm. unfold binary_round_aux.
  pose proof (shr_fexp_nonneg mx ex lx Hm) as H1.
  destruct (shr_fexp prec emax mx ex lx) as [mrs' e']. cbn [fst] in H1.
  pose proof (shr_fexp_nonneg
                (round_nearest_even (shr_m mrs') (loc_of_shr_record mrs'))
                e' loc_Exact (round_nearest_even_nonneg _ _ H1)) as H2.
  destruct (shr_fexp prec emax _ e' loc_Exact) as [mrs'' e''].
  cbn [fst] in H2.
  destruct (shr_m mrs'') as [|m|m]; [by left| |lia].
  destruct (e'' <=? emax - prec)%Z; right; [right; by eexists _, _|by left].
Qed.

Lemma SFdiv_core_binary_nonneg (m1 m2 : positive) (e1 e2 : Z) :
  (0 ≤ (SFdiv_core_binary prec emax (Zpos m1) e1 (Zpos m2) e2).1.1)%Z.
Proof.
  unfold SFdiv_core_binary.
  set (s := (e1 - e2 - _)%Z).
  set (m' := match s with
             | Zpos _ => Z.shiftl (Zpos m1) s
             | Z0 => Zpos m1
             | Zneg _ => Z0
             end).
  assert (0 ≤ m')%Z as Hm'.
  { unfold m'. destruct s as [|p|p]; [done| |done]. by apply Z.shiftl_nonneg. }
  pose proof (Z.div_pos m' (Zpos m2) Hm' eq_refl) as Hq.
  unfold Z.div in Hq. by destruct (Z.div_eucl m' (Zpos m2)) as [q r].
Qed.

(** The quotient of two finite numbers has the sign of the rule of
    signs, and is no NaN. *)
Lemma SFdiv_finite_sign (sx sy : bool) (mx my : positive) (ex ey : Z) :
  let q := SFdiv prec emax (S754_finite sx mx ex) (S754_finite sy my ey) in
  q = S754_zero (xorb sx sy)
  ∨ q = S754_infinity (xorb sx sy)
  ∨ ∃ m e, q = S754_finite (xorb sx sy) m e.
Proof.
  cbv zeta. unfold SFdiv.
  pose proof (SFdiv_core_binary_nonneg mx my ex ey) as Hq.
  destruct (SFdiv_core_binary prec emax (Zpos mx) ex (Zpos my) ey)
    as [[mz ez] lz].
  by apply binary_round_aux_sign.
Qed.

End Rounding.

Lemma int_ceil_negative (m : positive) (e : Z) (u : Z) :
  int_ceil (S754_finite true m e) = Done u → (u ≤ 0)%Z.
Proof.
  cbn [int_ceil]. intros [= <-]. destruct e as [|p|p].
  - lia.
  - nia.
  - pose proof (Z.div_pos (Zpos m) (Zpos (2 ^ p)) ltac:(done) eq_refl).
    change (- Zneg m)%Z with (Zpos m). lia.
Qed.

(** The quotient of 36 by a finite number that is not zero. *)
Lemma quotient_sign (s : bool) (m : positive) (e : Z) :
  let q := SFdiv 53 1024 (float_of_int SMALLEST_DEFAULT) (S754_finite s m e) in
  q = S754_zero s ∨ q = S754_infinity s ∨ ∃ m' e', q = S754_finite s m' e'.
Proof.
  cbv zeta. rewrite float_of_SMALLEST_DEFAULT.
  apply (SFdiv_finite_sign 53 1024 false s).
Qed.

(** X1.  The ways in which the computation of [upscale] fails, for every
    double that [--smallest] can be: it raises ZeroDivisionError exactly
    when [smallest] is 0.0 or -0.0, the ValueError of [int] on a NaN
    exactly when [smallest] is a NaN, and OverflowError only for a
    finite [smallest] that is not zero and not above 36 (as 1e-320,
    whose quotient is an infinity). *)
Theorem upscale_failures (smallest : spec_float) :
  (upscale_of smallest = Fails ZeroDivisionError
   ↔ ∃ s, smallest = S754_zero s)
  ∧ (upscale_of smallest = Fails NaNError ↔ smallest = S754_nan)
  ∧ (upscale_of smallest = Fails OverflowError →
     (∃ s m e, smallest = S754_finite s m e)
     ∧ float_gt smallest (float_of_int SMALLEST_DEFAULT) = false).
Proof.
  destruct smallest as [s|s| |s m e].
  - split_and!; [|done|done]. split; [by eexists|by destruct s].
  - split_and!; [|by destruct s|by destruct s].
    split; [by destruct s|by intros [s' ?]].
  - split_and!; [|done|done]. split; [done|by intros [s' ?]].
  - unfold upscale_of.
    destruct (float_gt (S754_finite s m e) (float_of_int SMALLEST_DEFAULT))
      eqn:Hgt.
    { split_and!; [|done|done]. split; [done|by intros [s' ?]]. }
    cbn [float_div].
    destruct (quotient_sign s m e) as [->|[->|(m' & e' & ->)]]; cbn [int_ceil].
    + split_and!; [|done|done]. split; [done|by intros [s' ?]].
    + split_and!; [|done|]; [split; [done|by intros [s' ?]]|].
      intros _. split; [by eexists _, _, _|done].
    + split_and!; [|done|done]. split; [done|by intros [s' ?]].
Qed.

(** X2.  Nothing guards a [--smallest] that is not positive: at 0.0 and
    -0.0 the division raises, and below 0 either [int] raises
    OverflowError or the factor handed to the detector is zero or
    negative. *)
Theorem upscale_not_positive (smallest : spec_float) :
  SFleb smallest (S754_zero false) = true →
  match upscale_of smallest with
  | Done u => (u ≤ 0)%Z
  | Fails e => e = ZeroDivisionError ∨ e = OverflowError
  end.
Proof.
  destruct smallest as [s|s| |s m e]; intros Hle.
  - by left.
  - destruct s; [done|]. by vm_compute in Hle.
  - done.
  - destruct s; [|by vm_compute in Hle].
    unfold upscale_of.
    assert (float_gt (S754_finite true m e) (float_of_int SMALLEST_DEFAULT)
            = false) as -> by done.
    cbn [float_div].
    destruct (quotient_sign true m e) as [->|[->|(m' & e' & Hq)]];
      cbn [int_ceil]; [done|by right|].
    rewrite Hq.
    destruct (int_ceil (S754_finite true m' e')) as [u|err] eqn:Hu; [|done].
    by apply int_ceil_negative in Hu.
Qed.

Lemma upscale_not_positive_witness :
  match upscale_of (S754_finite true 5629499534213120 (-49)) with
  | Done u => (u ≤ 0)%Z
  | Fails e => e = ZeroDivisionError ∨ e = OverflowError
  end.
Proof.
  apply (upscale_not_positive (S754_finite true 5629499534213120 (-49))).
  reflexivity.
Defined.
(** ** Detection *)

Section DetectFacts.

Context {D : Dlib}.

Variable faceDetector : image → Z → list rectangle.

Lemma detect_boxes (t : Q) (n : nat) (out : list output_line)
    (boxes : list rectangle) :
  foldl (detect_box t) (n, out) boxes
  = ((n + length boxes)%nat,
     out ++ imap (λ k boundingBox, write_box t (S (n + k)) boundingBox) boxes).
Proof.
  revert n out. induction boxes as [|b boxes IH]; intros n out.
  - simpl. by rewrite Nat.add_0_r, app_nil_r.
  - cbn [foldl]. unfold detect_box at 2. cbn [fst snd].
    rewrite IH. cbn [imap length]. f_equal; [lia|].
    rewrite <-app_assoc. cbn [app]. rewrite Nat.add_0_r. do 2 f_equal.
    apply imap_ext. intros k x _. cbn. f_equal. lia.
Qed.

Lemma detect_frames (upscale : Z) (n : nat) (out : list output_line)
    (frames : list (Q * image)) :
  foldl (detect_frame faceDetector upscale) (n, out) frames
  = ((n + length (detections_of faceDetector frames upscale))%nat,
     out ++ imap (λ k item, write_box item.1 (S (n + k)) item.2)
              (detections_of faceDetector frames upscale)).
Proof.
  revert n out. induction frames as [|[t frame] frames IH]; intros n out.
  - simpl. by rewrite Nat.add_0_r, app_nil_r.
  - cbn [foldl]. unfold detect_frame at 2. rewrite detect_boxes, IH.
    unfold detections_of. rewrite bind_cons. fold (detections_of faceDetector frames upscale).
    cbn [fst snd]. rewrite length_app, length_fmap, imap_app, length_fmap.
    f_equal; [lia|]. rewrite <-app_assoc. do 2 f_equal.
    + rewrite imap_fmap. by apply imap_ext.
    + apply imap_ext. intros k x _. cbn. f_equal. lia.
Qed.

Lemma detect_closed (frames : list (Q * image)) (upscale : Z) :
  detect faceDetector frames upscale
  = imap (λ k item, write_box item.1 (S k) item.2)
      (detections_of faceDetector frames upscale).
Proof. unfold detect. by rewrite detect_frames. Qed.

Lemma imap_seq_fmap {A B : Type} (f : nat → A → B) (l : list A) (n : nat) :
  ∀ g : B → nat, (∀ k x, g (f k x) = (n + k)%nat) →
  g <$> imap f l = seq n (length l).
Proof.
  revert f n. induction l as [|x l IH]; intros f n g Hg; [done|].
  cbn [imap length seq]. rewrite fmap_cons, Hg, Nat.add_0_r. f_equal.
  apply IH. intros k y. unfold compose. rewrite Hg. lia.
Qed.

Lemma imap_fmap_id {A B : Type} (f : nat → A → B) (g : B → A) (l : list A) :
  (∀ k x, g (f k x) = x) → g <$> imap f l = l.
Proof.
  revert f. induction l as [|x l IH]; intros f Hg; [done|].
  cbn [imap]. rewrite fmap_cons, Hg. f_equal. apply IH. intros k y. apply Hg.
Qed.

Lemma detect_line_boxes (frames : list (Q * image)) (upscale : Z) :
  line_box <$> detect faceDetector frames upscale
  = detections_of faceDetector frames upscale.
Proof.
  rewrite detect_closed. apply imap_fmap_id. by intros k [t [a b c d]].
Qed.

(** X3. Detection writes one line for each box that the detector finds,
    in the order of the frames and, within a frame, of the detector:
    the line carries the time of the frame and the box, the identifiers
    count 1, 2, 3, ... over the whole video (they do not start again at
    each frame), and the confidence of every line is -1. *)
Theorem detect_numbers_every_box (frames : list (Q * image)) (upscale : Z) :
  let out := detect faceDetector frames upscale in
  let found := detections_of faceDetector frames upscale in
  line_box <$> out = found
  ∧ o_identifier <$> out = seq 1 (length found)
  ∧ Forall (λ line, o_confidence line = inject_Z (-1)) out.
Proof.
  cbv zeta. rewrite detect_closed. split_and!.
  - by rewrite <-detect_closed, detect_line_boxes.
  - apply imap_seq_fmap. done.
  - apply Forall_forall. intros line [k [item [-> _]]]%elem_of_lookup_imap. done.
Qed.

Lemma StronglySorted_app_Qle (l1 l2 : list Q) :
  StronglySorted Qle l1 → StronglySorted Qle l2 →
  (∀ x y, x ∈ l1 → y ∈ l2 → (x <= y)%Q) →
  StronglySorted Qle (l1 ++ l2).
Proof.
  induction 1 as [|x l1 Hs IH Hx]; intros H2 H; [done|].
  cbn [app]. constructor.
  - apply IH; [done|]. intros a b Ha Hb. apply H; [by right|done].
  - apply Forall_app. split; [done|].
    apply Forall_forall. intros y Hy. apply H; [by left|done].
Qed.

Lemma detections_times (frames : list (Q * image)) (upscale : Z) (t : Q) :
  t ∈ (detections_of faceDetector frames upscale).*1 → t ∈ frames.*1.
Proof.
  intros [[t' b] [-> Hin]]%list_elem_of_fmap.
  unfold detections_of in Hin. apply list_elem_of_bind in Hin as [[t0 frame] [Hb Hf]].
  apply list_elem_of_fmap in Hb as [b' [[= -> ->] _]].
  apply list_elem_of_fmap. by exists (t0, frame).
Qed.

(** X4. When the video yields its frames in the order of time, the lines
    of the detection file are in the order of time too: the file has the
    form that the face generator expects of it. *)
Theorem detect_chronological (frames : list (Q * image)) (upscale : Z) :
  StronglySorted Qle frames.*1 →
  StronglySorted Qle (o_t <$> detect faceDetector frames upscale).
Proof.
  intros Hsorted.
  replace (o_t <$> detect faceDetector frames upscale)
    with ((detections_of faceDetector frames upscale).*1).
  2:{ rewrite <-(detect_line_boxes frames upscale) at 1.
      by rewrite <-list_fmap_compose. }
  induction frames as [|[t frame] frames IH]; [constructor|].
  cbn [fmap list_fmap fst] in Hsorted. apply StronglySorted_inv in Hsorted as [Hs Ht].
  unfold detections_of. rewrite bind_cons. fold (detections_of faceDetector frames upscale).
  rewrite fmap_app. apply StronglySorted_app_Qle; [|by apply IH|].
  - rewrite <-list_fmap_compose. cbn [fst].
    generalize (faceDetector (cvtColor (t, frame).2) upscale). intros l.
    induction l as [|b l IHl]; [constructor|].
    rewrite fmap_cons. constructor; [done|].
    apply Forall_forall. intros y [b' [-> _]]%list_elem_of_fmap. cbn. apply Qle_refl.
  - intros x y Hx Hy. apply detections_times in Hy.
    apply list_elem_of_fmap in Hx as [[t' b] [-> Hx]].
    apply list_elem_of_fmap in Hx as [b' [[= -> ->] _]]. cbn.
    rewrite Forall_forall in Ht. by apply Ht.
Qed.

End DetectFacts.

Lemma detect_chronological_witness :
  StronglySorted Qle
    (o_t <$> detect (D := Still.dlib) Still2.two_faces
               [(0%Q, tt); (1%Q, tt)] 1).
Proof.
  apply (detect_chronological (D := Still.dlib)).
  repeat constructor; done.
Defined.
(** ** The generators, pulled to their end *)

Module ShotFacts.

Lemma wait_reached (T : Q) (lines : list Q) (t : Q) :
  (T <= t)%Q → Shot.wait T lines t = (Some T, Shot.Found lines).
Proof.
  intros Hle. unfold Shot.wait, Qgt_bool.
  apply Qle_bool_iff in Hle. by rewrite Hle.
Qed.

Lemma wait_not_reached (T : Q) (lines : list Q) (t : Q) :
  (t < T)%Q → Shot.wait T lines t = (None, Shot.Waiting T lines).
Proof.
  intros Hlt. unfold Shot.wait. by apply Qgt_bool_iff in Hlt as ->.
Qed.

Lemma wait_cases (T : Q) (lines : list Q) (t : Q) :
  (Shot.wait T lines t = (None, Shot.Waiting T lines) ∧ (t < T)%Q)
  ∨ (Shot.wait T lines t = (Some T, Shot.Found lines) ∧ (T <= t)%Q).
Proof.
  destruct (Qlt_le_dec t T) as [Hlt|Hle].
  - left. split; [by apply wait_not_reached|done].
  - right. split; [by apply wait_reached|done].
Qed.

(** What a pull does to the records in hand or unread: nothing when it
    answers with no cut, it takes the first when it answers with a cut,
    and it raises when there is none. *)
Lemma send_unread (g : Shot.gen) (t : Q) :
  match Shot.send g t with
  | Ok (None, g') => unread g' = unread g ∧ unread g ≠ []
  | Ok (Some T, g') => unread g = T :: unread g' ∧ (T <= t)%Q
  | Raise e => e = StopIteration ∧ unread g = []
  end.
Proof.
  destruct g as [[|T lines]|T lines|[|T lines]]; cbn; try done;
    destruct (wait_cases T lines t) as [[-> Hlt]|[-> Hle]]; done.
Qed.

Lemma send_reached (g : Shot.gen) (t T : Q) (lines : list Q) :
  unread g = T :: lines → (T <= t)%Q →
  Shot.send g t = Ok (Some T, Shot.Found lines).
Proof.
  intros Hg Hle.
  destruct g as [[|T' lines']|T' lines'|[|T' lines']]; cbn in *; try done;
    injection Hg as -> ->; by rewrite wait_reached.
Qed.

Lemma sends_raised (g : Shot.gen) (ts : list Q) :
  unread g = [] →
  Shot.sends g ts = (replicate (length ts) (Raise StopIteration), g).
Proof.
  intros Hg. induction ts as [|t ts IH]; [done|].
  cbn [Shot.sends]. pose proof (send_unread g t) as Hsend.
  destruct (Shot.send g t) as [[[T|] g']|e].
  - destruct Hsend as [Hsend _]. by rewrite Hg in Hsend.
  - by destruct Hsend as [_ Hsend].
  - destruct Hsend as [-> _]. by rewrite IH.
Qed.

Lemma sends_cuts (ts : list Q) : ∀ g : Shot.gen,
  cuts (Shot.sends g ts).1 `prefix_of` unread g
  ∧ Forall2 (λ (t : Q) (out : result (option Q)),
               ∀ T, out = Ok (Some T) → (T <= t)%Q)
      ts (Shot.sends g ts).1.
Proof.
  induction ts as [|t ts IH]; intros g.
  - split; [apply prefix_nil|constructor].
  - cbn [Shot.sends]. pose proof (send_unread g t) as Hsend.
    destruct (Shot.send g t) as [[[T|] g']|e].
    + destruct Hsend as [Hg Hle]. destruct (IH g') as [Hp Ht].
      destruct (Shot.sends g' ts) as [outs g'']. cbn in *. split.
      * rewrite Hg. by apply prefix_cons.
      * constructor; [|done]. by intros T' [= <-].
    + destruct Hsend as [Hg _]. destruct (IH g') as [Hp Ht].
      destruct (Shot.sends g' ts) as [outs g'']. cbn in *. split.
      * by rewrite <-Hg.
      * by constructor.
    + destruct (IH g) as [Hp Ht].
      destruct (Shot.sends g ts) as [outs g'']. cbn in *. split; [done|].
      by constructor.
Qed.

Lemma sends_drained (ts : list Q) : ∀ g : Shot.gen,
  Forall (λ t, Forall (λ T, (T <= t)%Q) (unread g)) ts →
  (Shot.sends g ts).1
  = (Ok ∘ Some <$> take (length ts) (unread g))
    ++ replicate (length ts - length (unread g)) (Raise StopIteration).
Proof.
  induction ts as [|t ts IH]; intros g Hall; [done|].
  apply Forall_cons in Hall as [Ht Hall].
  cbn [Shot.sends]. pose proof (send_unread g t) as Hsend.
  destruct (Shot.send g t) as [[[T|] g']|e] eqn:Heq.
  - destruct Hsend as [Hg Hle]. specialize (IH g').
    destruct (Shot.sends g' ts) as [outs g'']. cbn in *.
    rewrite Hg. cbn. f_equal. apply IH.
    eapply Forall_impl; [done|]. intros t' Ht'. rewrite Hg in Ht'.
    by apply Forall_cons in Ht' as [_ Ht'].
  - exfalso. destruct Hsend as [_ Hne].
    destruct (unread g) as [|T lines] eqn:Hg; [done|].
    apply Forall_cons in Ht as [Hle _].
    by rewrite (send_reached g t T lines Hg Hle) in Heq.
  - destruct Hsend as [-> Hg]. rewrite (sends_raised g ts Hg), Hg. done.
Qed.

End ShotFacts.

(** X5. Whatever the shot file and the times sent, the cuts that the
    shot generator returns are the first records of the file, in its
    order and each once, and none is returned before the time sent has
    reached it. *)
Theorem shot_cuts_in_order (shotFile : list Q) (ts : list Q) :
  let outs := (Shot.sends (Shot.getShotGenerator shotFile) ts).1 in
  cuts outs `prefix_of` shotFile
  ∧ Forall2 (λ (t : Q) (out : result (option Q)),
               ∀ T, out = Ok (Some T) → (T <= t)%Q) ts outs.
Proof. apply (ShotFacts.sends_cuts ts (Shot.getShotGenerator shotFile)). Qed.

(** X6. When every time sent has reached every record of the shot file,
    the generator returns one record at each pull, in the order of the
    file, and once the records are spent every further pull raises
    StopIteration. *)
Theorem shot_generator_spent (shotFile : list Q) (ts : list Q) :
  Forall (λ t, Forall (λ T, (T <= t)%Q) shotFile) ts →
  (Shot.sends (Shot.getShotGenerator shotFile) ts).1
  = (Ok ∘ Some <$> take (length ts) shotFile)
    ++ replicate (length ts - length shotFile) (Raise StopIteration).
Proof. apply (ShotFacts.sends_drained ts (Shot.getShotGenerator shotFile)). Qed.

Lemma shot_generator_spent_witness :
  (Shot.sends (Shot.getShotGenerator [1%Q; 2%Q]) [5%Q; 6%Q; 7%Q]).1
  = [Ok (Some 1%Q); Ok (Some 2%Q); Raise StopIteration].
Proof.
  apply (shot_generator_spent [1%Q; 2%Q] [5%Q; 6%Q; 7%Q]).
  repeat constructor; done.
Defined.
Module DrainedFacts.

Import Face LastGroup.

Lemma wait_group_reached (currentT : Q) (faces : faces_t) (line : face_line)
    (lines : list face_line) (t : Q) :
  (currentT <= t)%Q →
  wait currentT faces line lines t = ((currentT, faces), Returned line lines).
Proof.
  intros Hle. unfold wait, Qgt_bool.
  apply Qle_bool_iff in Hle. by rewrite Hle.
Qed.

(** A pull at a time that has reached the group in hand: the group is
    returned if another one follows, and lost if it is the last. *)
Lemma read_group_reached (lines : list face_line) : ∀ (faces : faces_t) (c t : Q),
  (∀ grp, grp ∈ groups_from c faces lines → (grp.1 <= t)%Q) →
  match groups_from c faces lines with
  | grp :: (_ :: _) as rest =>
      ∃ g', read faces (Some c) lines t = (grp, g')
            ∧ pending_groups g' = rest ∧ holds_faces g'
  | _ => read faces (Some c) lines t = ((t, []), Exhausted)
  end.
Proof.
  induction lines as [|[[T identifier] face] lines IH]; intros faces c t Hall;
    [done|].
  cbn [groups_from read] in *. destruct (Qeq_bool T c); [by apply IH|].
  pose proof (LastGroupFacts.groups_from_nonempty lines T [(identifier, face)]) as Hne.
  destruct (groups_from T [(identifier, face)] lines) as [|grp rest] eqn:Hg;
    [done|].
  exists (Returned (T, identifier, face) lines). split; [|by rewrite <-Hg].
  apply wait_group_reached. apply (Hall (c, faces)). by left.
Qed.

Lemma send_group_reached (g : gen) (t : Q) :
  holds_faces g →
  (∀ grp, grp ∈ pending_groups g → (grp.1 <= t)%Q) →
  match pending_groups g with
  | grp :: (_ :: _) as rest =>
      ∃ g', send g t = (grp, g') ∧ pending_groups g' = rest ∧ holds_faces g'
  | _ => send g t = ((t, []), Exhausted)
  end.
Proof.
  destruct g as [lines|c faces line lines|[[T identifier] face] lines|];
    cbn [send pending_groups holds_faces]; intros Hfaces Hall.
  - destruct lines as [|[[T identifier] face] lines]; [done|].
    by apply read_group_reached.
  - destruct line as [[T identifier] face].
    pose proof (LastGroupFacts.groups_from_nonempty lines T [(identifier, face)]) as Hne.
    destruct (groups_from T [(identifier, face)] lines) as [|grp rest] eqn:Hg;
      [done|].
    exists (Returned (T, identifier, face) lines). split; [|by rewrite <-Hg].
    apply wait_group_reached. apply (Hall (c, faces)). by left.
  - by apply read_group_reached.
  - done.
Qed.

Lemma sends_group_reached (ts : list Q) : ∀ g : gen,
  holds_faces g →
  Forall (λ t, ∀ grp, grp ∈ pending_groups g → (grp.1 <= t)%Q) ts →
  (sends g ts).1
  = take (length ts) (removelast (pending_groups g))
    ++ ((λ t, (t, [])) <$> drop (length (removelast (pending_groups g))) ts).
Proof.
  induction ts as [|t ts IH]; intros g Hfaces Hall.
  { cbn. by rewrite take_0, drop_nil. }
  apply Forall_cons in Hall as [Ht Hall].
  cbn [sends]. pose proof (send_group_reached g t Hfaces Ht) as Hsend.
  destruct (pending_groups g) as [|grp [|grp' rest]] eqn:Hg.
  - rewrite Hsend, FaceFacts.sends_exhausted. done.
  - rewrite Hsend, FaceFacts.sends_exhausted. done.
  - destruct Hsend as (g' & -> & Hg' & Hfaces'). specialize (IH g' Hfaces').
    destruct (sends g' ts) as [outs g'']. cbn [fst] in *.
    rewrite IH; [by rewrite Hg'|].
    eapply Forall_impl; [done|]. intros t' Ht' grp0 Hin. cbn in Ht'.
    apply Ht'. right. by rewrite <-Hg'.
Qed.

Lemma groups_from_times (lines : list face_line) :
  ∀ (c : Q) (faces : faces_t) (grp : Q * faces_t),
  grp ∈ groups_from c faces lines → grp.1 = c ∨ grp.1 ∈ timestamps lines.
Proof.
  induction lines as [|[[T identifier] face] lines IH]; intros c faces grp.
  - cbn. intros ->%list_elem_of_singleton. by left.
  - cbn [groups_from]. unfold timestamps. rewrite fmap_cons. cbn [fst].
    destruct (Qeq_bool T c).
    + intros [->|Hin]%IH; right; [by left|by right].
    + intros [->|[->|Hin]%IH]%elem_of_cons; [by left|right; by left|].
      right. by right.
Qed.

Lemma groups_times (lines : list face_line) (grp : Q * faces_t) :
  grp ∈ groups lines → grp.1 ∈ timestamps lines.
Proof.
  destruct lines as [|[[T identifier] face] lines]; [by intros ?%elem_of_nil|].
  cbn [groups]. unfold timestamps. rewrite fmap_cons.
  intros [->|Hin]%groups_from_times; [by left|by right].
Qed.

End DrainedFacts.

(** X7. When every time sent has reached every timestamp of the
    detection file, the face generator returns one group at each pull,
    in the order of the file, until only the last group is left: that
    one is never returned, and every further pull answers the time sent
    with no face. *)
Theorem face_generator_spent (detection : list face_line) (ts : list Q) :
  Forall (λ t, Forall (λ T, (T <= t)%Q) (timestamps detection)) ts →
  let returned := removelast (LastGroup.groups detection) in
  (Face.sends (Face.getFaceGenerator detection) ts).1
  = take (length ts) returned
    ++ ((λ t, (t, [])) <$> drop (length returned) ts).
Proof.
  intros Hall. cbv zeta.
  apply (DrainedFacts.sends_group_reached ts (Face.getFaceGenerator detection));
    [done|].
  eapply Forall_impl; [done|]. intros t Ht grp Hin. cbn in *.
  rewrite Forall_forall in Ht. apply Ht. by apply DrainedFacts.groups_times.
Qed.

Lemma face_generator_spent_witness :
  (Face.sends
     (Face.getFaceGenerator
        [(1%Q, 1%Z, Still.box 0 0 10 10); (1%Q, 2%Z, Still.box 20 20 30 30);
         (2%Q, 3%Z, Still.box 0 0 10 10)])
     [5%Q; 6%Q; 7%Q]).1
  = [(1%Q, [(1%Z, Still.box 0 0 10 10); (2%Z, Still.box 20 20 30 30)]);
     (6%Q, []); (7%Q, [])].
Proof.
  apply (face_generator_spent
           [(1%Q, 1%Z, Still.box 0 0 10 10); (1%Q, 2%Z, Still.box 20 20 30 30);
            (2%Q, 3%Z, Still.box 0 0 10 10)] [5%Q; 6%Q; 7%Q]).
  repeat constructor; done.
Defined.
(** ** A whole run of the tracker *)

Section RunFacts.

Context {D : Dlib}.

Variable hungarian : matrix → list (nat * nat).

Hypothesis solver : ∀ cost, is_assignment (hungarian cost).

Lemma track_frame_raise (st : state) (timestamp : Q) (frame : image) e :
  Shot.send (shotGenerator st) timestamp = Raise e →
  track_frame hungarian st timestamp frame = Raise e.
Proof. intros Hsend. unfold track_frame. by rewrite Hsend. Qed.

(** A frame comes to its end as soon as the shot generator answers. *)
Lemma track_frame_answered (st : state) (timestamp : Q) (frame : image)
    shot shotGenerator' :
  Shot.send (shotGenerator st) timestamp = Ok (shot, shotGenerator') →
  ∃ st' o, track_frame hungarian st timestamp frame = Ok (st', o)
           ∧ shotGenerator st' = shotGenerator'
           ∧ faceGenerator st' = (Face.send (faceGenerator st) timestamp).2.
Proof.
  intros Hsend.
  destruct (track_frame_ok hungarian st timestamp frame shot shotGenerator'
              solver Hsend) as (m & mapping & _ & _ & ->).
  by eexists _, _.
Qed.

Lemma track_frames_answered (frames : list (Q * image)) : ∀ st : state,
  length (track_frames hungarian st frames).1.1
  = answered (shotGenerator st) frames.*1
  ∧ (track_frames hungarian st frames).2
    = if decide (answered (shotGenerator st) frames.*1 = length frames)
      then None else Some StopIteration.
Proof.
  induction frames as [|[t frame] frames IH]; intros st; [done|].
  rewrite fmap_cons. cbn [track_frames answered fst length].
  pose proof (ShotFacts.send_unread (shotGenerator st) t) as Hunread.
  destruct (Shot.send (shotGenerator st) t) as [[shot g']|e] eqn:Hsend.
  - destruct (track_frame_answered st t frame shot g' Hsend)
      as (st' & o & -> & <- & _).
    destruct (IH st') as [Hlen Hexn].
    destruct (track_frames hungarian st' frames) as [[os st''] e'].
    cbn [fst snd length] in *. rewrite Hlen, Hexn. split; [done|].
    repeat case_decide; done || lia.
  - rewrite (track_frame_raise st t frame e Hsend). destruct Hunread as [-> _].
    done.
Qed.

End RunFacts.

Lemma answered_le (ts : list Q) : ∀ g : Shot.gen,
  (answered g ts ≤ length ts)%nat.
Proof.
  induction ts as [|t ts IH]; intros g; [done|]. cbn.
  destruct (Shot.send g t) as [[shot g']|e]; [|lia]. specialize (IH g'). lia.
Qed.

Lemma answered_all (ts : list Q) : ∀ g : Shot.gen,
  Exists (λ T, Forall (λ t, (t < T)%Q) ts) (unread g) →
  answered g ts = length ts.
Proof.
  induction ts as [|t ts IH]; intros g Hlater; [done|]. cbn.
  pose proof (ShotFacts.send_unread g t) as Hunread.
  destruct (Shot.send g t) as [[[T|] g']|e].
  - destruct Hunread as [Hg Hle]. f_equal. apply IH.
    rewrite Hg in Hlater. apply Exists_cons in Hlater as [Hlater|Hlater].
    + apply Forall_cons in Hlater as [Hlt _].
      by apply Qlt_not_le in Hlt.
    + eapply Exists_impl; [done|]. intros T' HT'.
      by apply Forall_cons in HT' as [_ HT'].
  - destruct Hunread as [Hg _]. f_equal. apply IH. rewrite Hg.
    eapply Exists_impl; [done|]. intros T' HT'.
    by apply Forall_cons in HT' as [_ HT'].
  - destruct Hunread as [_ Hg]. rewrite Hg in Hlater.
    by apply Exists_nil in Hlater.
Qed.

Lemma answered_spent (ts : list Q) : ∀ g : Shot.gen,
  Forall (λ t, Forall (λ T, (T <= t)%Q) (unread g)) ts →
  answered g ts = (length ts `min` length (unread g))%nat.
Proof.
  induction ts as [|t ts IH]; intros g Hall; [done|].
  apply Forall_cons in Hall as [Ht Hall]. cbn [answered length].
  destruct (unread g) as [|T lines] eqn:Hg.
  - pose proof (ShotFacts.send_unread g t) as Hunread.
    destruct (Shot.send g t) as [[[T|] g']|e].
    + destruct Hunread as [Hunread _]. by rewrite Hg in Hunread.
    + by destruct Hunread as [_ Hunread].
    + cbn. lia.
  - apply Forall_cons in Ht as [Hle _].
    rewrite (ShotFacts.send_reached g t T lines Hg Hle).
    rewrite (IH (Shot.Found lines)); [done|]. cbn [unread].
    eapply Forall_impl; [done|]. intros t' Ht'.
    by apply Forall_cons in Ht' as [_ Ht'].
Qed.

(** X8. With a solver that pairs no row and no column twice, the loops
    of a frame raise nothing (no IndexError, KeyError, AttributeError
    or ValueError), whatever the video, the shot file and the detection
    file: a run goes through the frames for which the shot generator
    answers, and the only way it stops before the end of the video is
    the StopIteration of the shot generator, raised at the first frame
    for which the generator has no record left. *)
Theorem track_stops_only_with_shots {D : Dlib}
    (hungarian : matrix → list (nat * nat)) (frames : list (Q * image))
    (shot : list Q) (detection : list face_line) :
  (∀ cost, is_assignment (hungarian cost)) →
  let run := track hungarian frames shot detection in
  let n := answered (Shot.getShotGenerator shot) frames.*1 in
  length run.1.1 = n ∧ (n ≤ length frames)%nat ∧
  run.2 = if decide (n = length frames) then None else Some StopIteration.
Proof.
  intros Hsolver. cbv zeta.
  destruct (track_frames_answered hungarian Hsolver frames
              (track_init shot detection)) as [Hlen Hexn].
  split; [done|]. split; [|done].
  rewrite <-(length_fmap fst frames). apply answered_le.
Qed.

Lemma track_stops_only_with_shots_witness :
  let run :=
    track (D := Still.dlib) Still.diagonal (Still.frames [0%Q; 1%Q; 2%Q])
      [1%Q] [] in
  length run.1.1 = 2%nat ∧ (2 ≤ 3)%nat ∧ run.2 = Some StopIteration.
Proof.
  apply (track_stops_only_with_shots (D := Still.dlib) Still.diagonal
           (Still.frames [0%Q; 1%Q; 2%Q]) [1%Q] []).
  apply diagonal_is_assignment.
Defined.

(** X9. When the shot file holds a record later than every frame of the
    video, the run goes through all the frames and raises nothing. *)
Theorem track_runs_to_end {D : Dlib}
    (hungarian : matrix → list (nat * nat)) (frames : list (Q * image))
    (shot : list Q) (detection : list face_line) :
  (∀ cost, is_assignment (hungarian cost)) →
  Exists (λ T, Forall (λ t, (t < T)%Q) frames.*1) shot →
  let run := track hungarian frames shot detection in
  length run.1.1 = length frames ∧ run.2 = None.
Proof.
  intros Hsolver Hlater. cbv zeta.
  destruct (track_frames_answered hungarian Hsolver frames
              (track_init shot detection)) as [Hlen Hexn].
  pose proof (answered_all frames.*1 (Shot.getShotGenerator shot) Hlater)
    as Hall.
  rewrite length_fmap in Hall. unfold track.
  cbn [track_init shotGenerator] in Hlen, Hexn.
  rewrite Hlen, Hexn, Hall. split; [done|]. by rewrite decide_True.
Qed.

Lemma track_runs_to_end_witness :
  let run :=
    track (D := Still.dlib) Still.diagonal (Still.frames [0%Q; 1%Q; 2%Q])
      [1%Q; 5%Q] [] in
  length run.1.1 = 3%nat ∧ run.2 = None.
Proof.
  apply (track_runs_to_end (D := Still.dlib) Still.diagonal
           (Still.frames [0%Q; 1%Q; 2%Q]) [1%Q; 5%Q] []).
  - apply diagonal_is_assignment.
  - right. left. cbn. repeat constructor; done.
Defined.

(** X10. When every frame of the video is at or after every record of
    the shot file and the video has more frames than the file has
    records, the run writes the lines of as many frames as there are
    records and then stops with StopIteration: with an empty shot file
    no frame is processed at all. *)
Theorem track_stops_after_last_shot {D : Dlib}
    (hungarian : matrix → list (nat * nat)) (frames : list (Q * image))
    (shot : list Q) (detection : list face_line) :
  (∀ cost, is_assignment (hungarian cost)) →
  Forall (λ t, Forall (λ T, (T <= t)%Q) shot) frames.*1 →
  (length shot < length frames)%nat →
  let run := track hungarian frames shot detection in
  length run.1.1 = length shot ∧ run.2 = Some StopIteration.
Proof.
  intros Hsolver Hspent Hshort. cbv zeta.
  destruct (track_frames_answered hungarian Hsolver frames
              (track_init shot detection)) as [Hlen Hexn].
  pose proof (answered_spent frames.*1 (Shot.getShotGenerator shot) Hspent)
    as Hall.
  rewrite length_fmap in Hall. unfold track.
  cbn [track_init shotGenerator unread Shot.getShotGenerator] in Hlen, Hexn, Hall.
  rewrite Hlen, Hexn, Hall. split; [lia|]. by rewrite decide_False by lia.
Qed.

Lemma track_stops_after_last_shot_witness :
  let run :=
    track (D := Still.dlib) Still.diagonal (Still.frames [1%Q; 2%Q]) [] [] in
  length run.1.1 = 0%nat ∧ run.2 = Some StopIteration.
Proof.
  apply (track_stops_after_last_shot (D := Still.dlib) Still.diagonal
           (Still.frames [1%Q; 2%Q]) [] []).
  - apply diagonal_is_assignment.
  - cbn. repeat constructor.
  - cbn. lia.
Defined.

Lemma answered_short (B : Q) (ts : list Q) : ∀ g : Shot.gen,
  Forall (λ T, (T <= B)%Q) (unread g) →
  (length (unread g) < length (filter (λ t, Qle_bool B t = true) ts))%nat →
  (answered g ts < length ts)%nat.
Proof.
  induction ts as [|t ts IH]; intros g Hrecords Hlate; [cbn in Hlate; lia|].
  cbn [answered length].
  pose proof (ShotFacts.send_unread g t) as Hunread.
  destruct (Shot.send g t) as [[[T|] g']|e] eqn:Hsend; [| |lia].
  - destruct Hunread as [Hg _]. rewrite Hg in Hrecords, Hlate.
    apply Forall_cons in Hrecords as [_ Hrecords].
    apply ->Nat.succ_lt_mono. apply IH; [done|].
    cbn [length] in Hlate. destruct (Qle_bool B t) eqn:HB.
    + rewrite filter_cons_True in Hlate by done.
      cbn [length] in Hlate. lia.
    + rewrite filter_cons_False in Hlate by by rewrite HB. lia.
  - destruct Hunread as [Hg Hne]. apply ->Nat.succ_lt_mono.
    apply IH; [by rewrite Hg|]. rewrite Hg.
    rewrite filter_cons_False in Hlate; [done|].
    intros HB%Qle_bool_iff.
    destruct (unread g) as [|T lines] eqn:Hg0; [done|].
    apply Forall_cons in Hrecords as [HT _].
    by rewrite (ShotFacts.send_reached g t T lines Hg0 (Qle_trans _ _ _ HT HB))
      in Hsend.
Qed.

(** X11. When the video goes on after the last record of the shot file
    for more frames than the file has records, the run stops with
    StopIteration before the end of the video: [B] is any time that no
    record exceeds, and the frames counted are those at or after [B]. *)
Theorem track_stops_past_the_shots {D : Dlib}
    (hungarian : matrix → list (nat * nat)) (frames : list (Q * image))
    (shot : list Q) (detection : list face_line) (B : Q) :
  (∀ cost, is_assignment (hungarian cost)) →
  Forall (λ T, (T <= B)%Q) shot →
  (length shot < length (filter (λ t, Qle_bool B t = true) frames.*1))%nat →
  let run := track hungarian frames shot detection in
  (length run.1.1 < length frames)%nat ∧ run.2 = Some StopIteration.
Proof.
  intros Hsolver Hrecords Hlate. cbv zeta.
  destruct (track_frames_answered hungarian Hsolver frames
              (track_init shot detection)) as [Hlen Hexn].
  pose proof (answered_short B frames.*1 (Shot.getShotGenerator shot)
                Hrecords Hlate) as Hshort.
  rewrite length_fmap in Hshort. unfold track.
  cbn [track_init shotGenerator] in Hlen, Hexn.
  rewrite Hlen, Hexn. split; [done|]. by rewrite decide_False by lia.
Qed.

Lemma track_stops_past_the_shots_witness :
  let run :=
    track (D := Still.dlib) Still.diagonal
      (Still.frames [0%Q; 1%Q; 2%Q; 3%Q]) [1%Q] [] in
  (length run.1.1 < 4)%nat ∧ run.2 = Some StopIteration.
Proof.
  apply (track_stops_past_the_shots (D := Still.dlib) Still.diagonal
           (Still.frames [0%Q; 1%Q; 2%Q; 3%Q]) [1%Q] [] 1%Q).
  - apply diagonal_is_assignment.
  - repeat constructor; done.
  - vm_compute. lia.
Defined.
(** ** The lines of a frame *)

Module TimeFacts.

Import Face.

Lemma wait_time (currentT : Q) (faces : faces_t) (line : face_line)
    (lines : list face_line) (t : Q) :
  ((wait currentT faces line lines t).1.1 <= t)%Q.
Proof.
  unfold wait, Qgt_bool. destruct (Qle_bool currentT t) eqn:Hle; cbn.
  - by apply Qle_bool_iff.
  - apply Qle_refl.
Qed.

Lemma read_time (lines : list face_line) :
  ∀ (faces : faces_t) (currentT : option Q) (t : Q),
  ((read faces currentT lines t).1.1 <= t)%Q.
Proof.
  induction lines as [|[[T identifier] face] lines IH];
    intros faces currentT t; cbn [read].
  - apply Qle_refl.
  - destruct currentT as [c|]; [|apply IH].
    destruct (Qeq_bool T c); [apply IH|apply wait_time].
Qed.

Lemma send_time (g : gen) (t : Q) : ((send g t).1.1 <= t)%Q.
Proof.
  destruct g as [lines|c faces line lines|[[T identifier] face] lines|];
    cbn [send].
  - apply read_time.
  - apply wait_time.
  - apply read_time.
  - apply Qle_refl.
Qed.

End TimeFacts.

Section FrameLines.

Context {D : Dlib}.

Lemma matched_line_time (T : Q) (confidences : gmap nat Q)
    (trackers_ : list (nat * tracker)) (faces : Face.faces_t)
    (p : nat * nat) (line : output_line) :
  matched_line T confidences trackers_ faces p = Some line → o_t line = T.
Proof.
  unfold matched_line. destruct (accepted trackers_ faces p); [|done].
  intros (item & _ & Hline)%bind_Some.
  apply bind_Some in Hline as (slot & _ & Hline).
  by apply bind_Some in Hline as (confidence & _ & [= <-]).
Qed.

Lemma coasting_line_time (T : Q) (confidences : gmap nat Q)
    (unmatched : gset nat) (item : nat * tracker) (line : output_line) :
  coasting_line T confidences unmatched item = Some line → o_t line = T.
Proof.
  unfold coasting_line. case_bool_decide; [|done].
  by intros (confidence & _ & [= <-])%bind_Some.
Qed.

Lemma frame_end_times (st : state) (timestamp : Q) (shot : option Q)
    (shotGenerator' : Shot.gen) (gray : image) (mapping : list (nat * nat))
    (m : matching) :
  loop_inv (frame_T st timestamp) (frame_trackers st shot gray)
    (frame_confidences st shot gray) (frame_faces st timestamp) mapping m →
  Forall (λ line, o_t line = frame_T st timestamp)
    (written (frame_end st timestamp shot shotGenerator' gray m).2).
Proof.
  intros Hinv. unfold written, frame_end. cbn [snd matched spawned coasting].
  rewrite !Forall_app. split_and!.
  - rewrite (inv_out _ _ _ _ _ _ Hinv). apply Forall_forall.
    intros line (p & _ & Hline)%list_elem_of_omap.
    by apply matched_line_time in Hline.
  - pose proof (spawn_fold gray (frame_T st timestamp) (m_faces m)
                  {| s_trackers := m_trackers m;
                     s_confidences := frame_confidences st shot gray;
                     s_identifier := identifier st; s_out := [] |})
      as (_ & Hout & _).
    fold (spawn_all st timestamp shot gray m) in Hout. rewrite Hout.
    cbn [s_out s_identifier app].
    eapply Forall_impl; [apply spawned_lines_confidence|]. by intros line [? _].
  - apply Forall_forall.
    intros line (item & _ & Hline)%list_elem_of_omap.
    by apply coasting_line_time in Hline.
Qed.

End FrameLines.

(** X12. In a run of the tracker, all the lines written for one frame
    carry the same time, and this time is never later than the time of
    the frame: it is the time of the group of detections returned for
    the frame or, when none is returned, the time of the frame itself. *)
Theorem track_line_times {D : Dlib}
    (hungarian : matrix → list (nat * nat)) (frames : list (Q * image))
    (shot : list Q) (detection : list face_line) :
  (∀ cost, is_assignment (hungarian cost)) →
  let os := (track hungarian frames shot detection).1.1 in
  Forall2 (λ (item : Q * image) (o : frame_output),
             ∃ T, (T <= item.1)%Q
                  ∧ Forall (λ line, o_t line = T) (written o))
    (take (length os) frames) os.
Proof.
  intros Hsolver. cbv zeta. unfold track.
  generalize (track_init shot detection). 
  induction frames as [|[t frame] frames IH]; intros st; [constructor|].
  cbn [track_frames].
  destruct (Shot.send (shotGenerator st) t) as [[shot' g']|e] eqn:Hsend.
  - destruct (track_frame_ok hungarian st t frame shot' g' Hsolver Hsend)
      as (m & mapping & _ & Hinv & ->).
    pose proof (frame_end_times st t shot' g' (cvtColor frame) mapping m Hinv)
      as Htimes.
    destruct (frame_end st t shot' g' (cvtColor frame) m) as [st' o].
    specialize (IH st').
    destruct (track_frames hungarian st' frames) as [[os st''] e'].
    cbn [fst snd length take] in *. constructor; [|done].
    exists (frame_T st t). split; [apply TimeFacts.send_time|done].
  - rewrite (track_frame_raise hungarian st t frame e Hsend). constructor.
Qed.

Lemma track_line_times_witness :
  let os :=
    (track (D := Still.dlib) Still.diagonal (Still.frames [0%Q; 1%Q; 2%Q])
       [5%Q]
       [(0%Q, 1%Z, Still.box 0 0 10 10); (1%Q, 2%Z, Still.box 20 20 30 30)]
    ).1.1 in
  Forall2 (λ (item : Q * unit) (o : frame_output),
             ∃ T, (T <= item.1)%Q
                  ∧ Forall (λ line, o_t line = T) (written o))
    (take (length os) (Still.frames [0%Q; 1%Q; 2%Q])) os.
Proof.
  apply (track_line_times (D := Still.dlib) Still.diagonal
           (Still.frames [0%Q; 1%Q; 2%Q]) [5%Q]
           [(0%Q, 1%Z, Still.box 0 0 10 10);
            (1%Q, 2%Z, Still.box 20 20 30 30)]).
  apply diagonal_is_assignment.
Defined.
(** ** The state kept across frames *)

Section StateFacts.

Context {D : Dlib}.

Variable hungarian : matrix → list (nat * nat).

Hypothesis solver : ∀ cost, is_assignment (hungarian cost).

Lemma reset_at_shot_dom (shot : option Q) (st : state) :
  dom (confidences st) = dom (trackers st) →
  dom (reset_at_shot shot (trackers st) (confidences st)).2
  = dom (reset_at_shot shot (trackers st) (confidences st)).1.
Proof.
  intros Hdom. unfold reset_at_shot. destruct (shot_truthy shot); [|done].
  cbn. by rewrite !dom_empty_L.
Qed.

Lemma reset_at_shot_subseteq (shot : option Q) (st : state) :
  dom (reset_at_shot shot (trackers st) (confidences st)).1
  ⊆ dom (trackers st).
Proof.
  unfold reset_at_shot. destruct (shot_truthy shot); [|done].
  cbn. rewrite dom_empty_L. set_solver +.
Qed.

Lemma track_frame_state_inv (st st' : state) (timestamp : Q) (frame : image)
    (o : frame_output) :
  state_inv st →
  track_frame hungarian st timestamp frame = Ok (st', o) →
  state_inv st'.
Proof.
  intros [Hdom Hbound] Hframe.
  destruct (Shot.send (shotGenerator st) timestamp) as [[shot g']|e] eqn:Hsend;
    [|by rewrite (track_frame_raise hungarian st timestamp frame e Hsend)
        in Hframe].
  destruct (track_frame_ok hungarian st timestamp frame shot g' solver Hsend)
    as (m & mapping & Hassign & Hinv & Hend).
  rewrite Hend in Hframe.
  destruct (frame_end_identifiers st timestamp shot g' (cvtColor frame)
              mapping m Hassign Hinv) as (Hle & _ & Htrackers & _).
  pose proof (spawn_fold (cvtColor frame) (frame_T st timestamp) (m_faces m)
                {| s_trackers := m_trackers m;
                   s_confidences :=
                     frame_confidences st shot (cvtColor frame);
                   s_identifier := identifier st; s_out := [] |})
    as (Hid & _ & _ & Hco & _).
  fold (spawn_all st timestamp shot (cvtColor frame) m) in Hid, Hco.
  cbn [s_confidences s_identifier] in Hid, Hco.
  assert (identifier (frame_end st timestamp shot g' (cvtColor frame) m).1
          = s_identifier (spawn_all st timestamp shot (cvtColor frame) m))
    as Hid' by done.
  assert (confidences (frame_end st timestamp shot g' (cvtColor frame) m).1
          = s_confidences (spawn_all st timestamp shot (cvtColor frame) m))
    as Hco' by done.
  cbn [fst] in Hle, Htrackers.
  destruct (frame_end st timestamp shot g' (cvtColor frame) m) as [st1 o1].
  injection Hframe as -> ->. cbn [fst] in *.
  unfold state_inv.
  split.
  - rewrite Hco', Hco, Htrackers, Hid', Hid.
    replace (identifier st + length (faces_left (m_faces m)) - identifier st)%nat
      with (length (faces_left (m_faces m))) by lia.
    f_equal. unfold frame_confidences.
    rewrite dom_union_L, dom_fmap_L, (reset_at_shot_dom shot st Hdom).
    set_solver +.
  - intros i. rewrite Htrackers. intros [Hi|Hi]%elem_of_union.
    + apply reset_at_shot_subseteq, Hbound in Hi. lia.
    + apply elem_of_list_to_set, elem_of_seq in Hi. lia.
Qed.

Lemma track_frames_state_inv (frames : list (Q * image)) : ∀ st : state,
  state_inv st → state_inv (track_frames hungarian st frames).1.2.
Proof.
  induction frames as [|[t frame] frames IH]; intros st Hst; [done|].
  cbn [track_frames].
  destruct (track_frame hungarian st t frame) as [[st' o]|e] eqn:Hframe;
    [|done].
  pose proof (track_frame_state_inv st st' t frame o Hst Hframe) as Hst'.
  specialize (IH st' Hst').
  by destruct (track_frames hungarian st' frames) as [[os st''] e'].
Qed.

End StateFacts.

(** X13. Whatever the video and the files, the state that a run of the
    tracker reaches keeps the two dictionaries in step: a track has a
    tracker exactly when it has a confidence, and the identifiers of the
    live tracks lie between 1 and the counter. *)
Theorem track_state_in_step {D : Dlib}
    (hungarian : matrix → list (nat * nat)) (frames : list (Q * image))
    (shot : list Q) (detection : list face_line) :
  (∀ cost, is_assignment (hungarian cost)) →
  let st := (track hungarian frames shot detection).1.2 in
  dom (confidences st) = dom (trackers st)
  ∧ ∀ i, i ∈ dom (trackers st) → (1 ≤ i ≤ identifier st)%nat.
Proof.
  intros Hsolver. cbv zeta.
  apply (track_frames_state_inv hungarian Hsolver frames
           (track_init shot detection)).
  split; [done|]. intros i. cbn. rewrite dom_empty_L. set_solver +.
Qed.

Lemma track_state_in_step_witness :
  let st :=
    (track (D := Still.dlib) Still.diagonal (Still.frames [0%Q; 1%Q; 2%Q])
       [5%Q]
       [(0%Q, 1%Z, Still.box 0 0 10 10); (1%Q, 2%Z, Still.box 20 20 30 30)]
    ).1.2 in
  dom (confidences st) = dom (trackers st)
  ∧ ∀ i, i ∈ dom (trackers st) → (1 ≤ i ≤ identifier st)%nat.
Proof.
  apply (track_state_in_step (D := Still.dlib) Still.diagonal
           (Still.frames [0%Q; 1%Q; 2%Q]) [5%Q]
           [(0%Q, 1%Z, Still.box 0 0 10 10);
            (1%Q, 2%Z, Still.box 20 20 30 30)]).
  apply diagonal_is_assignment.
Defined.
(** ** Every detection in one line *)

Lemma omap_id_Some {A : Type} (l : list A) : omap id (Some <$> l) = l.
Proof.
  induction l as [|x l IH]; [done|]. by rewrite fmap_cons, omap_cons, IH.
Qed.

Lemma fmap_omap_box {A B C : Type} (f : B → C) (g : A → option B)
    (l : list A) :
  f <$> omap g l = omap (λ x, f <$> g x) l.
Proof.
  induction l as [|x l IH]; [done|]. rewrite !omap_cons.
  destruct (g x) as [y|]; cbn [fmap option_fmap option_map]; [|done].
  by rewrite fmap_cons, IH.
Qed.

(** Putting a face back in a slot emptied by the matching loop. *)
Lemma omap_id_insert {A : Type} (slots : list (option A)) : ∀ (c : nat) (x : A),
  slots !! c = Some None →
  omap id (<[c := Some x]> slots) ≡ₚ x :: omap id slots.
Proof.
  induction slots as [|s slots IH]; intros c x Hc; [done|].
  destruct c as [|c].
  - injection Hc as ->. done.
  - cbn [insert list_insert]. rewrite !omap_cons.
    change (list_insert c (Some x) slots) with (<[c := Some x]> slots).
    destruct s as [y|]; cbn [id].
    + rewrite (IH c x Hc). apply perm_swap.
    + by apply IH.
Qed.

(** The faces taken by the columns [cols] and the faces left in the
    slots make up the faces of the frame. *)
Lemma slots_permutation {A : Type} (faces : list A) (cols : list nat) :
  ∀ slots : list (option A),
  NoDup cols →
  (∀ f, f ∈ cols → is_Some (faces !! f)) →
  (∀ f, slots !! f
        = if decide (f ∈ cols) then Some None else Some <$> faces !! f) →
  omap (faces !!.) cols ++ omap id slots ≡ₚ faces.
Proof.
  induction cols as [|c cols IH]; intros slots Hnodup Hsome Hslots.
  - assert (slots = Some <$> faces) as ->.
    { apply list_eq. intros f. rewrite Hslots, list_lookup_fmap.
      rewrite decide_False; [done|]. apply not_elem_of_nil. }
    by rewrite omap_id_Some.
  - apply NoDup_cons in Hnodup as [Hc Hnodup].
    destruct (Hsome c) as [x Hx]; [by left|].
    assert (slots !! c = Some None) as Hnone.
    { rewrite Hslots, decide_True; [done|by left]. }
    rewrite omap_cons, Hx. cbn [app].
    rewrite <-(IH (<[c := Some x]> slots)); [| done | |].
    + rewrite (omap_id_insert slots c x Hnone). by rewrite Permutation_middle.
    + intros f Hf. apply Hsome. by right.
    + intros f. destruct (decide (f = c)) as [->|Hne].
      * rewrite list_lookup_insert_eq by by eapply lookup_lt_Some.
        by rewrite decide_False, Hx.
      * rewrite list_lookup_insert_ne by done. rewrite Hslots.
        destruct (decide (f ∈ cols)) as [Hin|Hout].
        -- rewrite decide_True; [done|by right].
        -- rewrite decide_False; [done|]. by intros [?|?]%elem_of_cons.
Qed.

Section Conservation.

Context {D : Dlib}.

Variables (T : Q) (trackers : gmap nat tracker) (confidences : gmap nat Q).

Variable faces : Face.faces_t.

Hypothesis known : dom trackers ⊆ dom confidences.

Lemma accepted_lookups (p : nat * nat) :
  accepted (map_to_list trackers) faces p = true →
  ∃ i tr identifier face confidence,
    map_to_list trackers !! p.1 = Some (i, tr)
    ∧ faces !! p.2 = Some (identifier, face)
    ∧ confidences !! i = Some confidence.
Proof.
  unfold accepted.
  destruct (map_to_list trackers !! p.1) as [[i tr]|] eqn:Ht; [|done].
  destruct (faces !! p.2) as [[identifier face]|] eqn:Hf; [|done].
  intros _.
  assert (is_Some (confidences !! i)) as [confidence Hc].
  { apply elem_of_dom, known, elem_of_dom. exists tr.
    by apply elem_of_map_to_list, list_elem_of_lookup_2 with p.1. }
  by exists i, tr, identifier, face, confidence.
Qed.

Lemma matched_boxes (mapping : list (nat * nat)) :
  line_box
    <$> omap (matched_line T confidences (map_to_list trackers) faces) mapping
  = written_box T
      <$> omap (faces !!.)
            (accepted_columns (map_to_list trackers) faces mapping).
Proof.
  unfold accepted_columns.
  induction mapping as [|p mapping IH]; [done|].
  rewrite omap_cons. unfold matched_line at 1.
  destruct (accepted (map_to_list trackers) faces p) eqn:Hacc.
  - destruct (accepted_lookups p Hacc)
      as (i & tr & identifier & face & confidence & Ht & Hf & Hc).
    rewrite Ht, Hf. cbn [mbind option_bind fst snd]. rewrite Hc.
    cbn [mbind option_bind]. rewrite filter_cons_True by done.
    rewrite !fmap_cons, omap_cons, Hf, fmap_cons, IH. done.
  - rewrite filter_cons_False by by rewrite Hacc. done.
Qed.

Lemma spawned_boxes (identifier : nat) (left : Face.faces_t) :
  line_box <$> spawned_lines T identifier left = written_box T <$> left.
Proof.
  revert identifier. induction left as [|[i face] left IH]; intros identifier;
    [done|].
  cbn [spawned_lines]. by rewrite !fmap_cons, IH.
Qed.

Lemma accepted_columns_spec (mapping : list (nat * nat)) (f : nat) :
  f ∈ accepted_columns (map_to_list trackers) faces mapping
  ↔ ∃ p, p ∈ mapping ∧ p.2 = f
         ∧ accepted (map_to_list trackers) faces p = true.
Proof.
  unfold accepted_columns. rewrite list_elem_of_fmap. split.
  - intros (p & -> & [Hacc Hin]%list_elem_of_filter). by exists p.
  - intros (p & Hin & <- & Hacc). exists p. split; [done|].
    by apply list_elem_of_filter.
Qed.

Lemma loop_inv_conserves (mapping : list (nat * nat)) (m : matching) :
  is_assignment mapping →
  loop_inv T trackers confidences faces mapping m →
  (line_box <$> m_out m) ++ (written_box T <$> faces_left (m_faces m))
  ≡ₚ written_box T <$> faces.
Proof.
  intros [_ Hcols] Hinv.
  rewrite (inv_out _ _ _ _ _ _ Hinv), matched_boxes, <-fmap_app.
  apply fmap_Permutation. unfold faces_left. apply slots_permutation.
  - unfold accepted_columns. eapply sublist_NoDup; [done|].
    apply fmap_sublist, sublist_filter.
  - intros f (p & _ & <- & Hacc)%accepted_columns_spec.
    destruct (accepted_lookups p Hacc)
      as (i & tr & identifier & face & confidence & _ & Hf & _).
    by rewrite Hf.
  - intros f.
    destruct (decide (f ∈ accepted_columns (map_to_list trackers) faces
                            mapping)) as [Hin|Hout].
    + apply accepted_columns_spec in Hin as (p & Hin & <- & Hacc).
      by rewrite (inv_faces_done _ _ _ _ _ _ Hinv p Hin), Hacc.
    + destruct (decide (f ∈ mapping.*2)) as [Hcol|Hcol].
      * apply list_elem_of_fmap in Hcol as (p & -> & Hin).
        rewrite (inv_faces_done _ _ _ _ _ _ Hinv p Hin).
        destruct (accepted (map_to_list trackers) faces p) eqn:Hacc; [|done].
        exfalso. apply Hout, accepted_columns_spec. by exists p.
      * by apply (inv_faces_todo _ _ _ _ _ _ Hinv).
Qed.

End Conservation.

Lemma frame_end_conserves {D : Dlib} (st : state) (timestamp : Q)
    (shot : option Q) (shotGenerator' : Shot.gen) (gray : image)
    (mapping : list (nat * nat)) (m : matching) :
  is_assignment mapping →
  loop_inv (frame_T st timestamp) (frame_trackers st shot gray)
    (frame_confidences st shot gray) (frame_faces st timestamp) mapping m →
  line_box
    <$> (matched (frame_end st timestamp shot shotGenerator' gray m).2
         ++ spawned (frame_end st timestamp shot shotGenerator' gray m).2)
  ≡ₚ written_box (frame_T st timestamp) <$> frame_faces st timestamp.
Proof.
  intros Hassign Hinv. unfold frame_end. cbn [snd matched spawned].
  pose proof (spawn_fold gray (frame_T st timestamp) (m_faces m)
                {| s_trackers := m_trackers m;
                   s_confidences := frame_confidences st shot gray;
                   s_identifier := identifier st; s_out := [] |})
    as (_ & Hout & _).
  fold (spawn_all st timestamp shot gray m) in Hout.
  rewrite Hout. cbn [s_out s_identifier app].
  rewrite fmap_app, spawned_boxes.
  apply (loop_inv_conserves _ _ _ _ (frame_confidences_known _ _ _) mapping m
           Hassign Hinv).
Qed.

(** X14. In a frame for which the shot generator answers, every
    detection that the face generator returns is written exactly once,
    with the time of the group and its own box: in the line of the track
    it is matched to, or else in the line of a new track. *)
Theorem detections_written_once {D : Dlib}
    (hungarian : matrix → list (nat * nat)) (st : state) (timestamp : Q)
    (frame : image) (shot : option Q) (shotGenerator' : Shot.gen) :
  (∀ cost, is_assignment (hungarian cost)) →
  Shot.send (shotGenerator st) timestamp = Ok (shot, shotGenerator') →
  ∃ st' o,
    track_frame hungarian st timestamp frame = Ok (st', o) ∧
    line_box <$> (matched o ++ spawned o)
    ≡ₚ written_box (frame_T st timestamp) <$> frame_faces st timestamp.
Proof.
  intros Hsolver Hsend.
  destruct (track_frame_ok hungarian st timestamp frame shot shotGenerator'
              Hsolver Hsend) as (m & mapping & Hassign & Hinv & Hend).
  exists (frame_end st timestamp shot shotGenerator' (cvtColor frame) m).1,
         (frame_end st timestamp shot shotGenerator' (cvtColor frame) m).2.
  split; [by rewrite Hend, <-surjective_pairing|].
  by apply frame_end_conserves with mapping.
Qed.

Lemma detections_written_once_witness :
  ∃ st' o,
    track_frame (D := Still.dlib) Still.diagonal Still.busy 1%Q ()
    = Ok (st', o) ∧
    line_box <$> (matched o ++ spawned o)
    ≡ₚ [(1%Q, mk_rectangle 0 0 10 10); (1%Q, mk_rectangle 20 20 30 30)].
Proof.
  apply (detections_written_once (D := Still.dlib) Still.diagonal Still.busy
           1%Q () None (Shot.Waiting 5%Q [])).
  - apply diagonal_is_assignment.
  - reflexivity.
Defined.
(** ** A detection file of a single instant *)

Module SingleFacts.

Import Face.

Lemma read_single (lines : list face_line) : ∀ (faces : faces_t) (c t : Q),
  Forall (λ T, (T == c)%Q) (timestamps lines) →
  read faces (Some c) lines t = ((t, []), Exhausted).
Proof.
  induction lines as [|[[T identifier] face] lines IH]; intros faces c t Hall;
    [done|].
  unfold timestamps in Hall. rewrite fmap_cons in Hall.
  apply Forall_cons in Hall as [HT Hall]. cbn [fst] in HT.
  cbn [read]. apply Qeq_bool_iff in HT as Heq. rewrite Heq. apply IH.
  eapply Forall_impl; [done|]. intros T' HT'. cbn in HT'. by rewrite HT', HT.
Qed.

Lemma send_single (detection : list face_line) (T0 t : Q) :
  Forall (λ T, (T == T0)%Q) (timestamps detection) →
  send (getFaceGenerator detection) t = ((t, []), Exhausted).
Proof.
  intros Hall. destruct detection as [|[[T identifier] face] lines]; [done|].
  cbn [send getFaceGenerator read].
  unfold timestamps in Hall. rewrite fmap_cons in Hall.
  apply Forall_cons in Hall as [HT Hall]. cbn [fst] in HT.
  apply read_single. eapply Forall_impl; [done|].
  intros T' HT'. cbn in HT'. by rewrite HT', HT.
Qed.

End SingleFacts.

Section NoFaces.

Context {D : Dlib}.

Variable hungarian : matrix → list (nat * nat).

Lemma track_frame_idle (st st' : state) (timestamp : Q) (frame : image)
    (o : frame_output) :
  idle st →
  track_frame hungarian st timestamp frame = Ok (st', o) →
  written o = [] ∧ idle st'.
Proof.
  intros [Htrackers Hfaces] Hframe.
  destruct (Shot.send (shotGenerator st) timestamp) as [[shot g']|e] eqn:Hsend;
    [|by rewrite (track_frame_raise hungarian st timestamp frame e Hsend)
        in Hframe].
  assert (frame_faces st timestamp = []) as Hnone.
  { unfold frame_faces. by rewrite Hfaces. }
  assert ((reset_at_shot shot (trackers st) (confidences st)).1 = ∅) as Hreset.
  { unfold reset_at_shot. by destruct (shot_truthy shot). }
  rewrite (track_frame_skip hungarian st timestamp frame shot g' Hsend)
    in Hframe; [|right; by rewrite Hnone].
  destruct (frame_end_skip st timestamp shot g' (cvtColor frame))
    as (Hmatched & Hspawned & _ & Hcoasting).
  assert (trackers
            (frame_end st timestamp shot g' (cvtColor frame)
               (matching_init (frame_trackers st shot (cvtColor frame))
                  (frame_faces st timestamp))).1 = ∅) as Hempty.
  { unfold frame_end, spawn_all, matching_init, frame_trackers.
    rewrite Hnone, Hreset. cbn. apply fmap_empty. }
  assert (faceGenerator
            (frame_end st timestamp shot g' (cvtColor frame)
               (matching_init (frame_trackers st shot (cvtColor frame))
                  (frame_faces st timestamp))).1 = Face.Exhausted) as Hgen.
  { unfold frame_end. cbn. by rewrite Hfaces. }
  rewrite Hreset, dom_empty_L, elements_empty in Hcoasting.
  apply Permutation_nil_r, fmap_nil_inv in Hcoasting.
  destruct (frame_end st timestamp shot g' (cvtColor frame)
              (matching_init (frame_trackers st shot (cvtColor frame))
                 (frame_faces st timestamp))) as [st1 o1].
  injection Hframe as -> ->. cbn [fst snd] in *. split.
  - unfold written. by rewrite Hmatched, Hspawned, Hcoasting, Hnone.
  - split; [done|]. by rewrite Hgen.
Qed.

Lemma track_frames_idle (frames : list (Q * image)) : ∀ st : state,
  idle st →
  Forall (λ o, written o = []) (track_frames hungarian st frames).1.1.
Proof.
  induction frames as [|[t frame] frames IH]; intros st Hst; [constructor|].
  cbn [track_frames].
  destruct (track_frame hungarian st t frame) as [[st' o]|e] eqn:Hframe;
    [|constructor].
  destruct (track_frame_idle st st' t frame o Hst Hframe) as [Ho Hst'].
  specialize (IH st' Hst').
  destruct (track_frames hungarian st' frames) as [[os st''] e'].
  by constructor.
Qed.

End NoFaces.

(** X15. When all the lines of the detection file carry the same time,
    and when the file is empty, a run of the tracker writes no line at
    all, whatever the video, the shot file and the solver: the single
    group of the file is never returned by the face generator. *)
Theorem single_instant_never_tracked {D : Dlib}
    (hungarian : matrix → list (nat * nat)) (frames : list (Q * image))
    (shot : list Q) (detection : list face_line) (T0 : Q) :
  Forall (λ T, (T == T0)%Q) (timestamps detection) →
  Forall (λ o, written o = []) (track hungarian frames shot detection).1.1.
Proof.
  intros Hsingle. apply track_frames_idle. split; [done|].
  intros t. by apply SingleFacts.send_single with T0.
Qed.

Lemma single_instant_never_tracked_witness :
  Forall (λ o, written o = [])
    (track (D := Still.dlib) Still.diagonal (Still.frames [0%Q; 1%Q; 2%Q])
       [5%Q]
       [(1%Q, 1%Z, Still.box 0 0 10 10); (1%Q, 2%Z, Still.box 20 20 30 30)]
    ).1.1.
Proof.
  apply (single_instant_never_tracked (D := Still.dlib) Still.diagonal
           (Still.frames [0%Q; 1%Q; 2%Q]) [5%Q]
           [(1%Q, 1%Z, Still.box 0 0 10 10);
            (1%Q, 2%Z, Still.box 20 20 30 30)] 1%Q).
  repeat constructor.
Defined.
(** ** Where the faces returned come from *)

Module GroundedFacts.

Import Face.

Lemma sourced_nil (L : list face_line) (T : Q) : sourced L T [].
Proof. by intros item ?%elem_of_nil. Qed.

Lemma sourced_snoc (L : list face_line) (c T : Q) (faces : faces_t)
    (identifier : Z) (face : drectangle) :
  sourced L c faces → (T == c)%Q → (T, identifier, face) ∈ L →
  sourced L T (faces ++ [(identifier, face)]).
Proof.
  intros Hfaces HT Hin item [Hitem|Hitem%list_elem_of_singleton]%elem_of_app.
  - destruct (Hfaces item Hitem) as (T' & HL & HT'). exists T'.
    split; [done|]. by rewrite HT', HT.
  - subst item. by exists T.
Qed.

Lemma wait_grounded (L : list face_line) (c : Q) (faces : faces_t)
    (line : face_line) (lines : list face_line) (t : Q) :
  sourced L c faces → line :: lines ⊆ L →
  sourced L (wait c faces line lines t).1.1 (wait c faces line lines t).1.2
  ∧ grounded L (wait c faces line lines t).2.
Proof.
  intros Hfaces Hlines. unfold wait. destruct (Qgt_bool c t); cbn.
  - split; [apply sourced_nil|done].
  - done.
Qed.

Lemma read_grounded (L : list face_line) (t : Q) (lines : list face_line) :
  ∀ (faces : faces_t) (c : Q),
  sourced L c faces → lines ⊆ L →
  sourced L (read faces (Some c) lines t).1.1
    (read faces (Some c) lines t).1.2
  ∧ grounded L (read faces (Some c) lines t).2.
Proof.
  induction lines as [|[[T identifier] face] lines IH];
    intros faces c Hfaces Hlines; cbn [read].
  - split; [apply sourced_nil|done].
  - destruct (Qeq_bool T c) eqn:Heq; [|by apply wait_grounded].
    apply IH.
    + apply sourced_snoc with c; [done|by apply Qeq_bool_iff|].
      apply Hlines. by left.
    + intros line Hline. apply Hlines. by right.
Qed.

(** A pull returns faces of the file only, with the time of their
    lines, and leaves a generator that holds lines of the file only. *)
Lemma send_grounded (L : list face_line) (g : gen) (t : Q) :
  grounded L g →
  sourced L (send g t).1.1 (send g t).1.2 ∧ grounded L (send g t).2.
Proof.
  destruct g as [lines|c faces line lines|[[T identifier] face] lines|];
    cbn [send grounded].
  - intros Hlines. destruct lines as [|[[T identifier] face] lines].
    + split; [apply sourced_nil|done].
    + cbn [read]. apply read_grounded.
      * apply sourced_snoc with T; [apply sourced_nil|done|].
        apply Hlines. by left.
      * intros line Hline. apply Hlines. by right.
  - intros [Hfaces Hlines]. by apply wait_grounded.
  - intros Hlines. apply read_grounded.
    + intros item Hitem%list_elem_of_singleton. subst item.
      exists T. split; [|done].
      apply Hlines. by left.
    + intros line Hline. apply Hlines. by right.
  - intros _. split; [apply sourced_nil|done].
Qed.

(** What successive pulls return is, put end to end, the beginning of
    what the generator held. *)
Lemma sends_prefix (ts : list Q) : ∀ g : gen,
  ∃ rest, LastGroup.returned (sends g ts).1 ++ rest = LastGroup.pending g
          ∧ (LastGroup.pending g ≠ [] → rest ≠ []).
Proof.
  intros g. destruct (decide (LastGroup.pending g = [])) as [Hnil|Hne].
  - exists []. split; [|done]. rewrite app_nil_r, Hnil. revert g Hnil.
    induction ts as [|t ts IH]; intros g Hnil; [done|]. cbn [sends].
    destruct (send g t) as [[T fs] g1] eqn:Hsend.
    apply LastGroupFacts.send_pending in Hsend as Hcases.
    destruct Hcases as [[-> ->]|[Hfs Hne1]].
    + rewrite FaceFacts.sends_exhausted. unfold LastGroup.returned. cbn.
      apply LastGroupFacts.returned_nothing.
    + rewrite Hnil in Hfs. by apply app_eq_nil in Hfs as [_ ?].
  - destruct (sends g ts) as [outs g'] eqn:Hsends.
    destruct (LastGroupFacts.sends_pending ts g outs g' Hsends Hne)
      as (rest & Hrest & Heq).
    by exists rest.
Qed.

End GroundedFacts.

(** ** Facial features *)

Section ShapeFacts.

Context {D : Dlib}.

Variable facialFeaturesDetector : image → rectangle → list (Z * Z).

Lemma shape_face_identifiers (gray : image) (T : Q) (faces : Face.faces_t) :
  sh_identifier <$> (shape_face facialFeaturesDetector gray T <$> faces)
  = faces.*1.
Proof.
  rewrite <-list_fmap_compose. apply list_fmap_ext. by intros k [i face] _.
Qed.

Lemma shape_frames_identifiers (frames : list (Q * image)) : ∀ g : Face.gen,
  sh_identifier <$> shape_frames facialFeaturesDetector g frames
  = (LastGroup.returned (Face.sends g frames.*1).1).*1.
Proof.
  induction frames as [|[t frame] frames IH]; intros g; [done|].
  rewrite fmap_cons. cbn [shape_frames Face.sends fst].
  destruct (Face.send g t) as [[T faces] g'].
  specialize (IH g'). destruct (Face.sends g' frames.*1) as [outs g''].
  unfold LastGroup.returned in *. cbn [fst] in *.
  rewrite fmap_app, shape_face_identifiers, IH.
  rewrite !fmap_cons. cbn [snd concat]. by rewrite fmap_app.
Qed.

Lemma shape_frames_grounded (L : list face_line) (frames : list (Q * image)) :
  ∀ g : Face.gen, grounded L g →
  Forall (λ line,
            ∃ (item : Q * image) (T : Q) (face : drectangle),
              item ∈ frames ∧ (T, sh_identifier line, face) ∈ L
              ∧ (T == sh_t line)%Q ∧ (sh_t line <= item.1)%Q
              ∧ sh_points line
                = facialFeaturesDetector (cvtColor item.2) (int_box face))
    (shape_frames facialFeaturesDetector g frames).
Proof.
  induction frames as [|[t frame] frames IH]; intros g Hg; [constructor|].
  cbn [shape_frames].
  destruct (GroundedFacts.send_grounded L g t Hg) as [Hfaces Hg'].
  pose proof (TimeFacts.send_time g t) as Htime.
  destruct (Face.send g t) as [[T faces] g']. cbn [fst snd] in *.
  apply Forall_app. split.
  - apply Forall_forall.
    intros line [[identifier face] [-> Hitem]]%list_elem_of_fmap.
    destruct (Hfaces _ Hitem) as (T' & HL & HT'). cbn [fst snd] in HL.
    exists (t, frame), T', face. cbn. split_and!; [by left|done..].
  - eapply Forall_impl; [by apply IH|].
    intros line (item & T' & face & Hitem & Hrest).
    exists item, T', face. split; [by right|done].
Qed.

End ShapeFacts.

(** X16. The identifiers of the lines that [shape] writes are, in
    order, the first identifiers of the tracking file, and never all of
    them: the lines of the last instant of the tracking file get no
    facial features, whatever the video. *)
Theorem shape_leaves_last_instant {D : Dlib}
    (facialFeaturesDetector : image → rectangle → list (Z * Z))
    (frames : list (Q * image)) (tracking : list face_line) :
  ∃ rest,
    (sh_identifier <$> shape facialFeaturesDetector frames tracking) ++ rest
    = identifiers tracking
    ∧ (tracking ≠ [] → rest ≠ []).
Proof.
  unfold shape. rewrite shape_frames_identifiers.
  destruct (GroundedFacts.sends_prefix frames.*1
              (Face.getFaceGenerator tracking)) as (rest & Heq & Hne).
  exists rest.*1. split.
  - rewrite <-fmap_app, Heq. cbn [LastGroup.pending Face.getFaceGenerator].
    unfold LastGroup.detections, identifiers. rewrite <-list_fmap_compose.
    done.
  - intros Htracking Hrest. apply fmap_nil_inv in Hrest. revert Hrest.
    apply Hne. cbn. by destruct tracking.
Qed.

(** X17. Every line that [shape] writes comes from a line of the
    tracking file and from a frame of the video that is not earlier than
    it: it has the identifier of the line and its time, and its points
    are those that the predictor finds on that frame in the box of the
    line, the sides truncated to integers. *)
Theorem shape_lines_grounded {D : Dlib}
    (facialFeaturesDetector : image → rectangle → list (Z * Z))
    (frames : list (Q * image)) (tracking : list face_line) :
  Forall (λ line,
            ∃ (item : Q * image) (T : Q) (face : drectangle),
              item ∈ frames ∧ (T, sh_identifier line, face) ∈ tracking
              ∧ (T == sh_t line)%Q ∧ (sh_t line <= item.1)%Q
              ∧ sh_points line
                = facialFeaturesDetector (cvtColor item.2) (int_box face))
    (shape facialFeaturesDetector frames tracking).
Proof.
  unfold shape. apply shape_frames_grounded. by intros line Hline.
Qed.
(** ** The boxes of the tracking file *)

Section TrackGrounded.

Context {D : Dlib}.

Variable hungarian : matrix → list (nat * nat).

Hypothesis solver : ∀ cost, is_assignment (hungarian cost).

Variable L : list face_line.

Lemma track_frame_grounded (st st' : state) (timestamp : Q) (frame : image)
    (o : frame_output) :
  grounded L (faceGenerator st) →
  track_frame hungarian st timestamp frame = Ok (st', o) →
  grounded L (faceGenerator st')
  ∧ Forall (λ line,
              ∃ (T : Q) (identifier : Z) (face : drectangle),
                (T, identifier, face) ∈ L ∧ (T == o_t line)%Q
                ∧ line_box line = (o_t line, int_box face))
      (matched o ++ spawned o).
Proof.
  intros Hg Hframe.
  destruct (Shot.send (shotGenerator st) timestamp) as [[shot g']|e] eqn:Hsend;
    [|by rewrite (track_frame_raise hungarian st timestamp frame e Hsend)
        in Hframe].
  destruct (track_frame_ok hungarian st timestamp frame shot g' solver Hsend)
    as (m & mapping & Hassign & Hinv & Hend).
  rewrite Hend in Hframe.
  pose proof (frame_end_conserves st timestamp shot g' (cvtColor frame)
                mapping m Hassign Hinv) as Hperm.
  destruct (GroundedFacts.send_grounded L (faceGenerator st) timestamp Hg)
    as [Hfaces Hg'].
  assert (faceGenerator (frame_end st timestamp shot g' (cvtColor frame) m).1
          = (Face.send (faceGenerator st) timestamp).2) as Hgen by done.
  destruct (frame_end st timestamp shot g' (cvtColor frame) m) as [st1 o1].
  injection Hframe as -> ->. cbn [fst snd] in *. split; [by rewrite Hgen|].
  apply Forall_forall. intros line Hline.
  apply (list_elem_of_fmap_2 line_box) in Hline. rewrite Hperm in Hline.
  apply list_elem_of_fmap in Hline as ([identifier face] & Hbox & Hitem).
  destruct (Hfaces _ Hitem) as (T' & HL & HT'). cbn [fst snd] in HL.
  unfold written_box in Hbox. cbn [snd] in Hbox.
  assert (o_t line = frame_T st timestamp) as Ht.
  { by apply (f_equal fst) in Hbox. }
  exists T', identifier, face. split; [done|].
  rewrite Ht. split; [done|]. by rewrite Hbox.
Qed.

Lemma track_frames_grounded (frames : list (Q * image)) : ∀ st : state,
  grounded L (faceGenerator st) →
  Forall (λ o,
            Forall (λ line,
                      ∃ (T : Q) (identifier : Z) (face : drectangle),
                        (T, identifier, face) ∈ L ∧ (T == o_t line)%Q
                        ∧ line_box line = (o_t line, int_box face))
              (matched o ++ spawned o))
    (track_frames hungarian st frames).1.1.
Proof.
  induction frames as [|[t frame] frames IH]; intros st Hst; [constructor|].
  cbn [track_frames].
  destruct (track_frame hungarian st t frame) as [[st' o]|e] eqn:Hframe;
    [|constructor].
  destruct (track_frame_grounded st st' t frame o Hst Hframe) as [Hst' Ho].
  specialize (IH st' Hst').
  destruct (track_frames hungarian st' frames) as [[os st''] e'].
  by constructor.
Qed.

End TrackGrounded.

(** X18. In a run of the tracker, every line written for a matched
    detection or for a new track carries the box of a line of the
    detection file, its sides truncated to integers, and the time of
    that line. *)
Theorem tracked_boxes_are_detections {D : Dlib}
    (hungarian : matrix → list (nat * nat)) (frames : list (Q * image))
    (shot : list Q) (detection : list face_line) :
  (∀ cost, is_assignment (hungarian cost)) →
  Forall (λ o,
            Forall (λ line,
                      ∃ (T : Q) (identifier : Z) (face : drectangle),
                        (T, identifier, face) ∈ detection
                        ∧ (T == o_t line)%Q
                        ∧ line_box line = (o_t line, int_box face))
              (matched o ++ spawned o))
    (track hungarian frames shot detection).1.1.
Proof.
  intros Hsolver. apply track_frames_grounded; [done|].
  by intros line Hline.
Qed.

Lemma tracked_boxes_are_detections_witness :
  Forall (λ o,
            Forall (λ line,
                      ∃ (T : Q) (identifier : Z) (face : drectangle),
                        (T, identifier, face)
                        ∈ [(0%Q, 1%Z, Still.box 0 0 10 10);
                           (1%Q, 2%Z, Still.box 20 20 30 30)]
                        ∧ (T == o_t line)%Q
                        ∧ line_box line = (o_t line, int_box face))
              (matched o ++ spawned o))
    (track (D := Still.dlib) Still.diagonal (Still.frames [0%Q; 1%Q; 2%Q])
       [5%Q]
       [(0%Q, 1%Z, Still.box 0 0 10 10); (1%Q, 2%Z, Still.box 20 20 30 30)]
    ).1.1.
Proof.
  apply (tracked_boxes_are_detections (D := Still.dlib) Still.diagonal
           (Still.frames [0%Q; 1%Q; 2%Q]) [5%Q]
           [(0%Q, 1%Z, Still.box 0 0 10 10);
            (1%Q, 2%Z, Still.box 20 20 30 30)]).
  apply diagonal_is_assignment.
Defined.
(** ** Trackers started again on their detection *)

Section Restart.

Context {D : Dlib}.

Variables (gray : image) (T : Q).

(** What one turn of the matching loop does when it does not raise:
    nothing, or the four updates of lines 254-262. *)
Lemma match_pair_cases (confidences : gmap nat Q) (areas : matrix)
    (Nt Nf : nat) (trackers_ : list (nat * tracker)) (m m' : matching)
    (p : nat * nat) :
  match_pair gray T confidences areas Nt Nf trackers_ m p = Ok m' →
  m' = m
  ∨ ∃ i tracker0 identifier face confidence,
      trackers_ !! p.1 = Some (i, tracker0)
      ∧ m_faces m !! p.2 = Some (Some (identifier, face))
      ∧ i ∈ m_unmatched m
      ∧ confidences !! i = Some confidence
      ∧ m' = {| m_trackers :=
                  <[i := start_track (default tracker0 (m_trackers m !! i))
                           gray face]> (m_trackers m);
                m_unmatched := m_unmatched m ∖ {[i]};
                m_faces := <[p.2 := None]> (m_faces m);
                m_out := m_out m ++ [write_face T i confidence face] |}.
Proof.
  destruct p as [t f]. unfold match_pair.
  destruct (bool_decide (Nt ≤ t)%nat || bool_decide (Nf ≤ f)%nat);
    [intros [= <-]; by left|].
  destruct (np_get areas t f) as [area_tf|e]; [|done]. cbn [mbind result_bind].
  destruct (m_faces m !! f) as [[[identifier face]|]|] eqn:Hslot;
    [|done|done].
  cbn [or_raise mbind result_bind].
  destruct (trackers_ !! t) as [[i tracker0]|] eqn:Hrow; [|done].
  cbn [or_raise mbind result_bind].
  destruct (enough_overlap _ _ _); [|intros [= <-]; by left].
  case_bool_decide as Hi; [|done].
  destruct (confidences !! i) as [confidence|] eqn:Hc; [|done].
  cbn [or_raise mbind result_bind]. intros [= <-]. right.
  by exists i, tracker0, identifier, face, confidence.
Qed.

Variables (trackers : gmap nat tracker) (confidences : gmap nat Q).

Variables (faces : Face.faces_t) (areas : matrix).

Hypothesis areas_overlap :
  ∀ t f, (t < size trackers)%nat → (f < length faces)%nat →
         Array.entry areas t f
         = Some (overlap (map_to_list trackers) faces t f).

Hypothesis confidences_known : dom trackers ⊆ dom confidences.

Lemma restarted_step (done : list (nat * nat)) (m m' : matching)
    (p : nat * nat) :
  loop_inv T trackers confidences faces done m →
  restarted gray trackers confidences faces m →
  match_pair gray T confidences areas (size trackers) (length faces)
    (map_to_list trackers) m p = Ok m' →
  restarted gray trackers confidences faces m'.
Proof.
  intros Hinv Hm Hpair.
  apply match_pair_cases in Hpair
    as [->|(i & tracker0 & identifier & face & confidence
            & Hrow & Hslot & Hi & Hc & ->)]; [done|].
  assert (trackers !! i = Some tracker0) as Htr.
  { apply elem_of_map_to_list. by eapply list_elem_of_lookup_2. }
  apply (loop_inv_slot T trackers confidences faces done m) in Hslot;
    [|done].
  intros line. cbn [m_out m_trackers].
  intros [Hline|Hline%list_elem_of_singleton]%elem_of_app.
  - destruct (Hm line Hline)
      as (tr & face' & Hface & Hlive & Hconf & Hstart & Hbox).
    exists tr, face'. split_and!; [done|done|done| |done].
    rewrite lookup_insert_ne; [done|]. intros Heq.
    rewrite (inv_unmatched _ _ _ _ _ _ Hinv) in Hi.
    apply elem_of_difference in Hi as [_ Hi]. apply Hi. rewrite Heq.
    by apply elem_of_list_to_set, list_elem_of_fmap_2.
  - subst line. exists tracker0, face. cbn [write_face o_identifier
                                            o_confidence].
    split_and!; [|done|done| |done].
    + apply list_elem_of_fmap. exists (identifier, face). split; [done|].
      by eapply list_elem_of_lookup_2.
    + rewrite lookup_insert_eq.
      by rewrite (inv_trackers _ _ _ _ _ _ Hinv i Hi), Htr.
Qed.

Lemma match_loop_restarts (mapping : list (nat * nat)) :
  is_assignment mapping →
  ∃ m', for_each
          (match_pair gray T confidences areas (size trackers) (length faces)
             (map_to_list trackers))
          (matching_init trackers faces) mapping = Ok m' ∧
        loop_inv T trackers confidences faces mapping m' ∧
        restarted gray trackers confidences faces m'.
Proof.
  intros [Hrows Hcols].
  induction mapping as [|p done IH] using rev_ind.
  - exists (matching_init trackers faces). split; [done|].
    split; [apply loop_inv_init|]. by intros line ?%elem_of_nil.
  - rewrite fmap_app in Hrows, Hcols.
    apply NoDup_app in Hrows as (Hrows & Hrow & _).
    apply NoDup_app in Hcols as (Hcols & Hcol & _).
    destruct (IH Hrows Hcols) as (m & Hm & Hinv & Hre).
    destruct (match_pair_ok gray T trackers confidences faces areas
                areas_overlap confidences_known done m p Hinv)
      as (m' & Hm' & Hinv').
    + intros Hin. apply (Hrow _ Hin). apply list_elem_of_here.
    + intros Hin. apply (Hcol _ Hin). apply list_elem_of_here.
    + exists m'. split; [|split; [done|]].
      * rewrite for_each_app, Hm. cbn. by rewrite Hm'.
      * by apply restarted_step with done m p.
Qed.

End Restart.

Section RestartFrame.

Context {D : Dlib}.

Variable hungarian : matrix → list (nat * nat).

Hypothesis solver : ∀ cost, is_assignment (hungarian cost).

Lemma match_faces_restarts gray T (trackers : gmap nat tracker)
    (confidences : gmap nat Q) (faces : Face.faces_t) :
  dom trackers ⊆ dom confidences →
  ∃ m mapping,
    match_faces hungarian gray T trackers confidences faces = Ok m ∧
    is_assignment mapping ∧
    loop_inv T trackers confidences faces mapping m ∧
    restarted gray trackers confidences faces m.
Proof.
  intros Hknown.
  destruct (decide (size trackers = 0%nat ∨ length faces = 0%nat))
    as [Hzero|Hsome].
  - exists (matching_init trackers faces), [].
    split; [by apply match_faces_skip|].
    split; [split; constructor|]. split; [apply loop_inv_init|].
    by intros line ?%elem_of_nil.
  - destruct (match_faces_solver hungarian gray T trackers confidences faces)
      as (areas & top & _ & _ & Hentry & _ & _ & _ & ->); [lia|lia|].
    destruct (match_loop_restarts gray T trackers confidences faces areas)
      with (mapping := hungarian (np_rsub top areas))
      as (m & Hm & Hinv & Hre); [|done|done|].
    + intros t f Ht Hf. apply Hentry; lia.
    + by exists m, (hungarian (np_rsub top areas)).
Qed.

End RestartFrame.

(** X19. In a frame for which the shot generator answers, every line
    written for a matched detection belongs to a track that was live:
    the line shows the box of the detection and the confidence that the
    update of the tracker returned on this frame, and the frame ends
    with that tracker, updated, started again on the box of the
    detection, the confidence stored being the one shown. *)
Theorem matched_track_restarted {D : Dlib}
    (hungarian : matrix → list (nat * nat)) (st : state) (timestamp : Q)
    (frame : image) (shot : option Q) (shotGenerator' : Shot.gen) :
  (∀ cost, is_assignment (hungarian cost)) →
  well_formed st →
  Shot.send (shotGenerator st) timestamp = Ok (shot, shotGenerator') →
  ∃ st' o,
    track_frame hungarian st timestamp frame = Ok (st', o) ∧
    ∀ line, line ∈ matched o →
      ∃ tr face,
        face ∈ (frame_faces st timestamp).*2
        ∧ trackers st !! o_identifier line = Some tr
        ∧ line_box line = (o_t line, int_box face)
        ∧ o_confidence line = confidence (cvtColor frame) tr
        ∧ trackers st' !! o_identifier line
          = Some (start_track (updated (cvtColor frame) tr) (cvtColor frame)
                    face)
        ∧ confidences st' !! o_identifier line
          = Some (confidence (cvtColor frame) tr).
Proof.
  intros Hsolver Hwf Hsend.
  destruct (match_faces_restarts hungarian Hsolver (cvtColor frame)
              (frame_T st timestamp)
              (frame_trackers st shot (cvtColor frame))
              (frame_confidences st shot (cvtColor frame))
              (frame_faces st timestamp) (frame_confidences_known _ _ _))
    as (m & mapping & Hm & Hassign & Hinv & Hre).
  pose proof (loop_inv_unmatched_live _ _ _ _ _ _ Hinv) as Hlive.
  pose proof (frame_confidences_known st shot (cvtColor frame)) as Hknown.
  exists (frame_end st timestamp shot shotGenerator' (cvtColor frame) m).1,
         (frame_end st timestamp shot shotGenerator' (cvtColor frame) m).2.
  split.
  { rewrite <-surjective_pairing.
    apply track_frame_end; [done|done|]. by etrans. }
  cbn [frame_end fst snd matched trackers confidences].
  intros line Hline.
  destruct (Hre line Hline)
    as (tr & face & Hface & Htr & Hconf & Hstart & Hbox).
  unfold frame_trackers in Htr.
  apply lookup_fmap_Some in Htr as (tr0 & <- & Htr0).
  assert (trackers st !! o_identifier line = Some tr0) as Hold.
  { revert Htr0. unfold reset_at_shot. by destruct (shot_truthy shot). }
  assert (frame_confidences st shot (cvtColor frame) !! o_identifier line
          = Some (confidence (cvtColor frame) tr0)) as Hconf'.
  { unfold frame_confidences. apply lookup_union_Some_l.
    by rewrite lookup_fmap, Htr0. }
  rewrite Hconf' in Hconf. injection Hconf as Hconf.
  destruct (spawn_fold (cvtColor frame) (frame_T st timestamp) (m_faces m)
              {| s_trackers := m_trackers m;
                 s_confidences :=
                   frame_confidences st shot (cvtColor frame);
                 s_identifier := identifier st; s_out := [] |})
    as (_ & _ & _ & _ & Hkeep).
  fold (spawn_all st timestamp shot (cvtColor frame) m) in Hkeep.
  destruct (Hkeep (o_identifier line)) as [Hkt Hkc].
  { apply Hwf. by apply elem_of_dom. }
  cbn [s_trackers s_confidences] in Hkt, Hkc.
  exists tr0, face. by rewrite Hkt, Hkc.
Qed.

Lemma matched_track_restarted_witness :
  ∃ st' o,
    track_frame (D := Still.dlib) Still.diagonal Still.busy 1%Q ()
    = Ok (st', o) ∧
    ∀ line, line ∈ matched o →
      ∃ tr face,
        face ∈ [Still.box 0 0 10 10; Still.box 20 20 30 30]
        ∧ trackers Still.busy !! o_identifier line = Some tr
        ∧ line_box line = (o_t line, int_box face)
        ∧ o_confidence line = (1 # 2)%Q
        ∧ trackers st' !! o_identifier line = Some face
        ∧ confidences st' !! o_identifier line = Some (1 # 2)%Q.
Proof.
  apply (matched_track_restarted (D := Still.dlib) Still.diagonal Still.busy
           1%Q () None (Shot.Waiting 5%Q [])).
  - apply diagonal_is_assignment.
  - apply busy_well_formed.
  - reflexivity.
Defined.

(** X20. In a frame for which the shot generator answers, every line
    written for a new track shows the box of its detection and the
    confidence 0; the frame ends with, for that track, a tracker started
    on the box and updated once on the frame, and the confidence stored
    is the one that this update returned, not the 0 shown. *)
Theorem new_track_started {D : Dlib}
    (hungarian : matrix → list (nat * nat)) (st : state) (timestamp : Q)
    (frame : image) (shot : option Q) (shotGenerator' : Shot.gen) :
  (∀ cost, is_assignment (hungarian cost)) →
  Shot.send (shotGenerator st) timestamp = Ok (shot, shotGenerator') →
  ∃ st' o,
    track_frame hungarian st timestamp frame = Ok (st', o) ∧
    ∀ line, line ∈ spawned o →
      ∃ face,
        face ∈ (frame_faces st timestamp).*2
        ∧ line_box line = (o_t line, int_box face)
        ∧ o_confidence line = 0%Q
        ∧ trackers st' !! o_identifier line
          = Some (updated (cvtColor frame)
                    (start_track correlation_tracker (cvtColor frame) face))
        ∧ confidences st' !! o_identifier line
          = Some (confidence (cvtColor frame)
                    (start_track correlation_tracker (cvtColor frame) face)).
Proof.
  intros Hsolver Hsend.
  destruct (track_frame_ok hungarian st timestamp frame shot shotGenerator'
              Hsolver Hsend) as (m & mapping & _ & Hinv & Hend).
  exists (frame_end st timestamp shot shotGenerator' (cvtColor frame) m).1,
         (frame_end st timestamp shot shotGenerator' (cvtColor frame) m).2.
  split; [by rewrite Hend, <-surjective_pairing|].
  cbn [frame_end fst snd spawned trackers confidences].
  pose proof (spawn_fold (cvtColor frame) (frame_T st timestamp) (m_faces m)
                {| s_trackers := m_trackers m;
                   s_confidences :=
                     frame_confidences st shot (cvtColor frame);
                   s_identifier := identifier st; s_out := [] |})
    as (_ & Hout & _).
  pose proof (spawn_fold_started (cvtColor frame) (frame_T st timestamp)
                (m_faces m)
                {| s_trackers := m_trackers m;
                   s_confidences :=
                     frame_confidences st shot (cvtColor frame);
                   s_identifier := identifier st; s_out := [] |})
    as Hstarted.
  fold (spawn_all st timestamp shot (cvtColor frame) m) in Hout, Hstarted.
  rewrite Hout. cbn [s_out s_identifier app] in *.
  intros line Hline. rewrite Forall_forall in Hstarted.
  destruct (Hstarted line Hline) as (identifier' & face & Hin & Heq & Htr & Hco).
  exists face. split_and!; [|by rewrite Heq|by rewrite Heq|done|done].
  apply list_elem_of_lookup in Hin as [f Hf].
  apply (loop_inv_slot _ _ _ _ _ _ _ _ Hinv) in Hf.
  apply list_elem_of_fmap. exists (identifier', face). split; [done|].
  by eapply list_elem_of_lookup_2.
Qed.

Lemma new_track_started_witness :
  ∃ st' o,
    track_frame (D := Still.dlib) Still.diagonal Still.busy 1%Q ()
    = Ok (st', o) ∧
    ∀ line, line ∈ spawned o →
      ∃ face,
        face ∈ [Still.box 0 0 10 10; Still.box 20 20 30 30]
        ∧ line_box line = (o_t line, int_box face)
        ∧ o_confidence line = 0%Q
        ∧ trackers st' !! o_identifier line = Some face
        ∧ confidences st' !! o_identifier line = Some (1 # 2)%Q.
Proof.
  apply (new_track_started (D := Still.dlib) Still.diagonal Still.busy
           1%Q () None (Shot.Waiting 5%Q [])).
  - apply diagonal_is_assignment.
  - reflexivity.
Defined.
(** ** Files in the order of time *)

Lemma sorted_lower (b b' : Q) (l : list Q) :
  (b' <= b)%Q → StronglySorted Qle (b :: l) → StronglySorted Qle (b' :: l).
Proof.
  intros Hle [Hl Hb]%StronglySorted_inv. constructor; [done|].
  eapply Forall_impl; [done|]. intros x Hx. by eapply Qle_trans.
Qed.

Lemma sorted_skip (b c : Q) (l : list Q) :
  StronglySorted Qle (b :: c :: l) → StronglySorted Qle (b :: l).
Proof.
  intros [[Hl _]%StronglySorted_inv [_ Hb]%Forall_cons]%StronglySorted_inv.
  by constructor.
Qed.

Lemma sorted_tail (b : Q) (l : list Q) :
  StronglySorted Qle (b :: l) → StronglySorted Qle l.
Proof. by intros [Hl _]%StronglySorted_inv. Qed.

Lemma sorted_head (b c : Q) (l : list Q) :
  StronglySorted Qle (b :: c :: l) → (b <= c)%Q.
Proof. by intros [_ [Hb _]%Forall_cons]%StronglySorted_inv. Qed.

(** Lines of one time, then lines in order from that time on. *)
Lemma sorted_same_app (b T : Q) (l1 l2 : list Q) :
  (b <= T)%Q → Forall (λ x, x = T) l1 → StronglySorted Qle (T :: l2) →
  StronglySorted Qle (b :: l1 ++ l2).
Proof.
  intros Hb Hl1 Hl2. apply sorted_lower with T; [done|].
  induction Hl1 as [|x l1 -> _ IH]; [done|].
  cbn [app]. constructor; [done|]. constructor; [apply Qle_refl|].
  by apply StronglySorted_inv in IH as [_ IH].
Qed.

Module ChronoFacts.

Import Face.

Lemma wait_bounded (b c : Q) (faces : faces_t) (line : face_line)
    (lines : list face_line) (t : Q) :
  StronglySorted Qle (b :: c :: timestamps (line :: lines)) → (b <= t)%Q →
  (b <= (wait c faces line lines t).1.1)%Q
  ∧ bounded (wait c faces line lines t).1.1 (wait c faces line lines t).2.
Proof.
  intros Hsorted Hb. unfold wait.
  destruct (Qgt_bool c t) eqn:Hgt; cbn [fst snd bounded].
  - split; [done|]. apply Qgt_bool_iff in Hgt.
    constructor; [by apply sorted_tail in Hsorted|].
    apply sorted_tail, StronglySorted_inv in Hsorted as [_ Hc].
    constructor; [by apply Qlt_le_weak|].
    eapply Forall_impl; [done|]. intros x Hx.
    eapply Qle_trans; [by apply Qlt_le_weak|done].
  - split; [by apply sorted_head in Hsorted|].
    by apply sorted_tail in Hsorted.
Qed.

Lemma read_bounded (t : Q) (lines : list face_line) :
  ∀ (faces : faces_t) (b c : Q),
  StronglySorted Qle (b :: c :: timestamps lines) → (b <= t)%Q →
  (b <= (read faces (Some c) lines t).1.1)%Q
  ∧ bounded (read faces (Some c) lines t).1.1
      (read faces (Some c) lines t).2.
Proof.
  induction lines as [|[[T identifier] face] lines IH];
    intros faces b c Hsorted Hb; cbn [read].
  - done.
  - destruct (Qeq_bool T c); [|by apply wait_bounded].
    apply IH; [|done]. unfold timestamps in Hsorted.
    rewrite fmap_cons in Hsorted. by apply sorted_skip in Hsorted.
Qed.

(** A pull at a time not earlier than the bound answers with a time not
    earlier than the bound, and this time bounds what is left. *)
Lemma send_bounded (b : Q) (g : gen) (t : Q) :
  bounded b g → (b <= t)%Q →
  (b <= (send g t).1.1)%Q ∧ bounded (send g t).1.1 (send g t).2.
Proof.
  destruct g as [lines|c faces line lines|[[T identifier] face] lines|];
    cbn [send bounded]; intros Hsorted Hb.
  - destruct lines as [|[[T identifier] face] lines]; [done|].
    cbn [read]. by apply read_bounded.
  - by apply wait_bounded.
  - by apply read_bounded.
  - done.
Qed.

End ChronoFacts.

Section ChronoRun.

Context {D : Dlib}.

Variable hungarian : matrix → list (nat * nat).

Hypothesis solver : ∀ cost, is_assignment (hungarian cost).

Lemma track_frames_chronological (frames : list (Q * image)) :
  ∀ (st : state) (b : Q),
  bounded b (faceGenerator st) →
  StronglySorted Qle (b :: frames.*1) →
  StronglySorted Qle
    (b :: (o_t <$> all_written (track_frames hungarian st frames).1.1)).
Proof.
  induction frames as [|[t frame] frames IH]; intros st b Hg Hsorted.
  { repeat constructor. }
  rewrite fmap_cons in Hsorted. cbn [fst] in Hsorted.
  cbn [track_frames].
  destruct (Shot.send (shotGenerator st) t) as [[shot g']|e] eqn:Hsend;
    [|rewrite (track_frame_raise hungarian st t frame e Hsend);
      repeat constructor].
  destruct (track_frame_ok hungarian st t frame shot g' solver Hsend)
    as (m & mapping & _ & Hinv & ->).
  pose proof (frame_end_times st t shot g' (cvtColor frame) mapping m Hinv)
    as Htimes.
  destruct (ChronoFacts.send_bounded b (faceGenerator st) t Hg)
    as [Hb Hg']; [by apply sorted_head in Hsorted|].
  pose proof (TimeFacts.send_time (faceGenerator st) t) as HT.
  assert (faceGenerator (frame_end st t shot g' (cvtColor frame) m).1
          = (Face.send (faceGenerator st) t).2) as Hgen by done.
  fold (frame_T st t) in Hb, Hg', HT.
  destruct (frame_end st t shot g' (cvtColor frame) m) as [st' o].
  cbn [fst snd] in *. rewrite <-Hgen in Hg'.
  specialize (IH st' (frame_T st t) Hg').
  destruct (track_frames hungarian st' frames) as [[os st''] e'].
  cbn [fst snd] in *. unfold all_written in *.
  rewrite fmap_cons. cbn [concat]. rewrite fmap_app.
  apply sorted_same_app with (frame_T st t); [done| |].
  - by apply Forall_fmap.
  - apply IH. apply sorted_lower with t; [done|].
    by apply sorted_tail in Hsorted.
Qed.

End ChronoRun.

Section ChronoShape.

Context {D : Dlib}.

Variable facialFeaturesDetector : image → rectangle → list (Z * Z).

Lemma shape_frames_chronological (frames : list (Q * image)) :
  ∀ (g : Face.gen) (b : Q),
  bounded b g →
  StronglySorted Qle (b :: frames.*1) →
  StronglySorted Qle
    (b :: (sh_t <$> shape_frames facialFeaturesDetector g frames)).
Proof.
  induction frames as [|[t frame] frames IH]; intros g b Hg Hsorted.
  { repeat constructor. }
  rewrite fmap_cons in Hsorted. cbn [fst] in Hsorted.
  cbn [shape_frames].
  destruct (ChronoFacts.send_bounded b g t Hg)
    as [Hb Hg']; [by apply sorted_head in Hsorted|].
  pose proof (TimeFacts.send_time g t) as HT.
  destruct (Face.send g t) as [[T faces] g']. cbn [fst snd] in *.
  rewrite fmap_app. apply sorted_same_app with T; [done| |].
  - apply Forall_fmap, Forall_fmap, Forall_forall. by intros [i face] _.
  - apply IH; [done|]. apply sorted_lower with t; [done|].
    by apply sorted_tail in Hsorted.
Qed.

End ChronoShape.

(** The earlier of the first frame and the first line. *)
Lemma first_bound (ts Ts : list Q) :
  StronglySorted Qle ts → StronglySorted Qle Ts →
  ∃ b, StronglySorted Qle (b :: ts) ∧ StronglySorted Qle (b :: Ts).
Proof.
  intros Hts HTs.
  destruct ts as [|t ts]; [|destruct Ts as [|T Ts]].
  - destruct Ts as [|T Ts]; [exists 0%Q; by repeat constructor|].
    exists T. split; [by repeat constructor|].
    apply sorted_lower with T; [apply Qle_refl|].
    constructor; [done|]. constructor; [apply Qle_refl|].
    by apply StronglySorted_inv in HTs as [_ ?].
  - exists t. split; [|by repeat constructor].
    constructor; [done|]. constructor; [apply Qle_refl|].
    by apply StronglySorted_inv in Hts as [_ ?].
  - destruct (Qlt_le_dec t T) as [Hlt%Qlt_le_weak|Hle].
    + exists t. split.
      * constructor; [done|]. constructor; [apply Qle_refl|].
        by apply StronglySorted_inv in Hts as [_ ?].
      * apply sorted_lower with T; [done|].
        constructor; [done|]. constructor; [apply Qle_refl|].
        by apply StronglySorted_inv in HTs as [_ ?].
    + exists T. split.
      * apply sorted_lower with t; [done|].
        constructor; [done|]. constructor; [apply Qle_refl|].
        by apply StronglySorted_inv in Hts as [_ ?].
      * constructor; [done|]. constructor; [apply Qle_refl|].
        by apply StronglySorted_inv in HTs as [_ ?].
Qed.

(** X21. When the frames of the video and the lines of the detection
    file are in the order of time, so are the lines that a run of the
    tracker writes: the tracking file has the form that the face
    generator of [shape] expects of it. *)
Theorem track_chronological {D : Dlib}
    (hungarian : matrix → list (nat * nat)) (frames : list (Q * image))
    (shot : list Q) (detection : list face_line) :
  (∀ cost, is_assignment (hungarian cost)) →
  StronglySorted Qle frames.*1 →
  StronglySorted Qle (timestamps detection) →
  StronglySorted Qle
    (o_t <$> all_written (track hungarian frames shot detection).1.1).
Proof.
  intros Hsolver Hframes Hdetection.
  destruct (first_bound frames.*1 (timestamps detection) Hframes Hdetection)
    as (b & Hb1 & Hb2).
  apply sorted_tail with b.
  by apply track_frames_chronological.
Qed.

Lemma track_chronological_witness :
  StronglySorted Qle
    (o_t <$> all_written
               (track (D := Still.dlib) Still.diagonal
                  (Still.frames [0%Q; 1%Q; 2%Q]) [5%Q]
                  [(0%Q, 1%Z, Still.box 0 0 10 10);
                   (1%Q, 2%Z, Still.box 20 20 30 30)]).1.1).
Proof.
  apply (track_chronological (D := Still.dlib) Still.diagonal
           (Still.frames [0%Q; 1%Q; 2%Q]) [5%Q]
           [(0%Q, 1%Z, Still.box 0 0 10 10);
            (1%Q, 2%Z, Still.box 20 20 30 30)]).
  - apply diagonal_is_assignment.
  - cbn. repeat constructor; done.
  - cbn. repeat constructor; done.
Defined.

(** X22. When the frames of the video and the lines of the tracking
    file are in the order of time, so are the lines that [shape]
    writes. *)
Theorem shape_chronological {D : Dlib}
    (facialFeaturesDetector : image → rectangle → list (Z * Z))
    (frames : list (Q * image)) (tracking : list face_line) :
  StronglySorted Qle frames.*1 →
  StronglySorted Qle (timestamps tracking) →
  StronglySorted Qle (sh_t <$> shape facialFeaturesDetector frames tracking).
Proof.
  intros Hframes Htracking.
  destruct (first_bound frames.*1 (timestamps tracking) Hframes Htracking)
    as (b & Hb1 & Hb2).
  apply sorted_tail with b.
  by apply shape_frames_chronological.
Qed.

Lemma shape_chronological_witness :
  StronglySorted Qle
    (sh_t <$> shape (D := Still.dlib) Still2.corners
                (Still.frames [0%Q; 1%Q; 2%Q])
                [(0%Q, 1%Z, Still.box 0 0 10 10);
                 (1%Q, 2%Z, Still.box 20 20 30 30);
                 (2%Q, 2%Z, Still.box 20 20 30 30)]).
Proof.
  apply (shape_chronological (D := Still.dlib) Still2.corners
           (Still.frames [0%Q; 1%Q; 2%Q])
           [(0%Q, 1%Z, Still.box 0 0 10 10);
            (1%Q, 2%Z, Still.box 20 20 30 30);
            (2%Q, 2%Z, Still.box 20 20 30 30)]).
  - cbn. repeat constructor; done.
  - cbn. repeat constructor; done.
Defined.
(** ** The identifiers of the detection file *)

Module AnonymousFacts.

Import Face.

Lemma wait_anonymous (c : Q) (faces : faces_t) (line : face_line)
    (lines : list face_line) (t : Q) :
  wait c (anonymous <$> faces) (anonymous_line line)
    (anonymous_line <$> lines) t
  = (((wait c faces line lines t).1.1,
      anonymous <$> (wait c faces line lines t).1.2),
     anonymous_gen (wait c faces line lines t).2).
Proof. unfold wait. by destruct (Qgt_bool c t). Qed.

Lemma read_anonymous (t : Q) (lines : list face_line) :
  ∀ (faces : faces_t) (currentT : option Q),
  read (anonymous <$> faces) currentT (anonymous_line <$> lines) t
  = (((read faces currentT lines t).1.1,
      anonymous <$> (read faces currentT lines t).1.2),
     anonymous_gen (read faces currentT lines t).2).
Proof.
  induction lines as [|[[T identifier] face] lines IH];
    intros faces currentT; [done|].
  rewrite fmap_cons. cbn [anonymous_line fst snd read].
  assert (anonymous <$> faces ++ [(identifier, face)]
          = (anonymous <$> faces) ++ [(0%Z, face)]) as Happ
    by by rewrite fmap_app.
  destruct currentT as [c|].
  - destruct (Qeq_bool T c).
    + by rewrite <-Happ, IH.
    + apply (wait_anonymous c faces (T, identifier, face) lines t).
  - by rewrite <-Happ, IH.
Qed.

Lemma send_anonymous (g : gen) (t : Q) :
  send (anonymous_gen g) t
  = (((send g t).1.1, anonymous <$> (send g t).1.2),
     anonymous_gen (send g t).2).
Proof.
  destruct g as [lines|c faces line lines|[[T identifier] face] lines|];
    cbn [send anonymous_gen].
  - apply (read_anonymous t lines [] None).
  - apply wait_anonymous.
  - apply (read_anonymous t lines [(identifier, face)] (Some T)).
  - done.
Qed.

End AnonymousFacts.

Lemma for_each_commutes {A S : Type} (body : S → A → result S)
    (h : S → S) (l : list A) :
  (∀ s x, body (h s) x = s' ← body s x; Ok (h s')) →
  ∀ s, for_each body (h s) l = s' ← for_each body s l; Ok (h s').
Proof.
  intros Hbody. induction l as [|x l IH]; intros s; [done|].
  cbn [for_each]. rewrite Hbody. destruct (body s x) as [s1|e]; [|done].
  cbn. apply IH.
Qed.

Lemma for_each_ext {A S : Type} (body1 body2 : S → A → result S)
    (l : list A) :
  (∀ s x, body1 s x = body2 s x) →
  ∀ s, for_each body1 s l = for_each body2 s l.
Proof.
  intros Hbody. induction l as [|x l IH]; intros s; [done|].
  cbn [for_each]. rewrite Hbody. destruct (body2 s x) as [s1|e]; [|done].
  cbn. apply IH.
Qed.

Section Anonymous.

Context {D : Dlib}.

Variable hungarian : matrix → list (nat * nat).

Lemma intersections_row_anonymous (t : nat) (position : drectangle)
    (faces : Face.faces_t) : ∀ (n : nat) (areas : matrix),
  for_each (intersections_row t position) areas
    (zip (seq n (length (anonymous <$> faces))) (anonymous <$> faces))
  = for_each (intersections_row t position) areas
      (zip (seq n (length faces)) faces).
Proof.
  induction faces as [|[identifier face] faces IH]; intros n areas; [done|].
  rewrite fmap_cons. cbn [length seq zip zip_with for_each].
  cbn [intersections_row anonymous snd].
  destruct (np_set areas t n (area (intersect position face))) as [areas'|e];
    [|done].
  cbn. apply IH.
Qed.

Lemma intersections_anonymous (N : nat) (trackers_ : list (nat * tracker))
    (faces : Face.faces_t) :
  intersections N trackers_ (anonymous <$> faces)
  = intersections N trackers_ faces.
Proof.
  unfold intersections. apply for_each_ext.
  intros areas [t [i tracker]]. cbv zeta.
  apply (intersections_row_anonymous t (get_position tracker) faces 0 areas).
Qed.

Lemma match_pair_anonymous (gray : image) (T : Q) (confidences : gmap nat Q)
    (areas : matrix) (Nt Nf : nat) (trackers_ : list (nat * tracker))
    (m : matching) (p : nat * nat) :
  match_pair gray T confidences areas Nt Nf trackers_ (anonymous_matching m) p
  = m' ← match_pair gray T confidences areas Nt Nf trackers_ m p;
    Ok (anonymous_matching m').
Proof.
  destruct p as [t f]. unfold match_pair.
  destruct (bool_decide (Nt ≤ t)%nat || bool_decide (Nf ≤ f)%nat); [done|].
  destruct (np_get areas t f) as [area_tf|e]; [|done]. cbn [mbind result_bind].
  cbn [anonymous_matching m_faces m_trackers m_unmatched m_out].
  rewrite list_lookup_fmap.
  destruct (m_faces m !! f) as [[[identifier face]|]|]; [|done|done].
  cbn [fmap option_fmap option_map anonymous or_raise mbind result_bind snd].
  destruct (trackers_ !! t) as [[i tracker0]|]; [|done].
  cbn [or_raise mbind result_bind].
  destruct (enough_overlap _ _ _); [|done].
  case_bool_decide; [|done].
  destruct (confidences !! i) as [confidence|]; [|done].
  cbn [or_raise mbind result_bind]. unfold anonymous_matching.
  cbn [m_faces m_trackers m_unmatched m_out].
  by rewrite list_fmap_insert.
Qed.

Lemma matching_init_anonymous (trackers : gmap nat tracker)
    (faces : Face.faces_t) :
  matching_init trackers (anonymous <$> faces)
  = anonymous_matching (matching_init trackers faces).
Proof.
  unfold matching_init, anonymous_matching.
  cbn [m_faces m_trackers m_unmatched m_out].
  by rewrite <-!list_fmap_compose.
Qed.

Lemma match_faces_anonymous (gray : image) (T : Q)
    (trackers : gmap nat tracker) (confidences : gmap nat Q)
    (faces : Face.faces_t) :
  match_faces hungarian gray T trackers confidences (anonymous <$> faces)
  = m ← match_faces hungarian gray T trackers confidences faces;
    Ok (anonymous_matching m).
Proof.
  unfold match_faces. rewrite length_fmap, matching_init_anonymous.
  destruct (Nt_and_Nf (size trackers) (length faces)); [|done].
  rewrite intersections_anonymous.
  destruct (intersections _ _ _) as [areas|e]; [|done].
  cbn [mbind result_bind].
  destruct (cost_matrix areas) as [cost|e]; [|done].
  cbn [mbind result_bind].
  apply for_each_commutes. intros m p. apply match_pair_anonymous.
Qed.

Lemma spawn_anonymous (gray : image) (T : Q)
    (slots : list (option (Z * drectangle))) : ∀ s : spawning,
  foldl (spawn gray T) s
    ((λ slot : option (Z * drectangle), anonymous <$> slot) <$> slots)
  = foldl (spawn gray T) s slots.
Proof.
  induction slots as [|[[identifier face]|] slots IH]; intros s; [done|..];
    rewrite fmap_cons; cbn [foldl]; apply IH.
Qed.

(** A frame does the same with the identifiers of the detections
    forgotten. *)
Lemma track_frame_anonymous (st : state) (timestamp : Q) (frame : image) :
  track_frame hungarian (anonymous_state st) timestamp frame
  = r ← track_frame hungarian st timestamp frame;
    Ok (anonymous_state r.1, r.2).
Proof.
  unfold track_frame.
  cbn [anonymous_state shotGenerator faceGenerator trackers confidences
       identifier].
  destruct (Shot.send (shotGenerator st) timestamp) as [[shot g']|e];
    [|done].
  cbn [mbind result_bind].
  destruct (reset_at_shot shot (trackers st) (confidences st))
    as [trackers1 confidences1].
  rewrite AnonymousFacts.send_anonymous.
  destruct (Face.send (faceGenerator st) timestamp) as [[T faces] g1].
  cbn [fst snd].
  destruct (update_all (cvtColor frame) trackers1 confidences1)
    as [trackers2 confidences2].
  rewrite match_faces_anonymous.
  destruct (match_faces hungarian (cvtColor frame) T trackers2 confidences2
              faces) as [m|e]; [|done].
  cbn [mbind result_bind anonymous_matching m_faces m_trackers m_unmatched
       m_out].
  rewrite spawn_anonymous.
  destruct (for_each _ [] _) as [coasted|e]; [|done].
  done.
Qed.

Lemma track_frames_anonymous (frames : list (Q * image)) : ∀ st : state,
  track_frames hungarian (anonymous_state st) frames
  = ((track_frames hungarian st frames).1.1,
     anonymous_state (track_frames hungarian st frames).1.2,
     (track_frames hungarian st frames).2).
Proof.
  induction frames as [|[t frame] frames IH]; intros st; [done|].
  cbn [track_frames]. rewrite track_frame_anonymous.
  destruct (track_frame hungarian st t frame) as [[st' o]|e]; [|done].
  cbn [mbind result_bind fst snd]. rewrite IH.
  by destruct (track_frames hungarian st' frames) as [[os st''] e'].
Qed.

End Anonymous.

(** X23. The identifiers of the detection file play no part in the
    tracking: with every identifier of the file replaced by 0, a run
    writes the same lines, stops in the same way, and ends with the same
    trackers, confidences and counter. *)
Theorem detection_identifiers_ignored {D : Dlib}
    (hungarian : matrix → list (nat * nat)) (frames : list (Q * image))
    (shot : list Q) (detection : list face_line) :
  let run := track hungarian frames shot detection in
  let run0 := track hungarian frames shot (anonymous_line <$> detection) in
  run0.1.1 = run.1.1 ∧ run0.2 = run.2
  ∧ trackers run0.1.2 = trackers run.1.2
  ∧ confidences run0.1.2 = confidences run.1.2
  ∧ identifier run0.1.2 = identifier run.1.2.
Proof.
  cbv zeta. unfold track.
  change (track_init shot (anonymous_line <$> detection))
    with (anonymous_state (track_init shot detection)).
  by rewrite track_frames_anonymous.
Qed.
